(** * libgibbs global minimisation: hull builders, tie-point resolver and
      composition-set evaluation

    A shallow embedding of
    - [optimizer/utils/convex_hull.cpp]        (internal hull, dependent dimensions),
    - [optimizer/utils/convex_hull_global.cpp] (global hull, facet basis matrices),
    - [optimizer/global_minimization.hpp]      ([GlobalMinimizer::find_tie_points]),
    - [optimizer/compositionset.cpp]           (objective, gradient, clone),
    with [std::sort] as GNU libstdc++ implements it.

    A C++ [double] is a binary64 float of the kernel ([PrimFloat.float]), so
    every definition below computes with the arithmetic the program uses.
    A result of type [option _] is [None] where the C++ program has no defined
    result: a failed [BOOST_ASSERT], a thrown exception, or a read or write
    outside a container. *)

From Stdlib Require Import Floats ZArith Bool Ascii String.
From stdpp Require Import base option list sorting gmap strings.

Set Warnings "-inexact-float".
Local Open Scope float_scope.

(** ** Numbers and vectors *)

Abbreviation double := float.

(** [std::vector<double>]. *)
Abbreviation vec := (list float).

(** [acc += c] over a range, from the initial value [0]. *)
Definition accumulate (l : vec) : double := fold_left PrimFloat.add l 0.

(** [distance += std::pow(coord,2)] over a range, then [sqrt]: the squares are
    formed as [coord*coord], the correctly rounded value of the square. *)
Definition sum_of_squares (l : vec) : double :=
  fold_left (fun acc c => acc + c * c) l 0.

Definition euclidean_norm (l : vec) : double := PrimFloat.sqrt (sum_of_squares l).

(** ** Standard algorithms *)

(** [std::lexicographical_compare] with [operator<] of [double]: the order
    [std::sort] uses on [std::vector<double>]. *)
Fixpoint lexicographical_compare (a b : vec) : bool :=
  match a, b with
  | [], [] => false
  | [], _ :: _ => true
  | _ :: _, [] => false
  | x :: a', y :: b' =>
      if x <? y then true
      else if y <? x then false
      else lexicographical_compare a' b'
  end.

(** [std::unique (first, last, pred)]: of every run of consecutive elements
    that [pred] relates to the element kept last, only that element stays. *)
Fixpoint unique_from {A} (pred : A -> A -> bool) (kept : A) (l : list A) : list A :=
  match l with
  | [] => [kept]
  | x :: l' =>
      if pred kept x then unique_from pred kept l'
      else kept :: unique_from pred x l'
  end.

Definition std_unique {A} (pred : A -> A -> bool) (l : list A) : list A :=
  match l with
  | [] => []
  | x :: l' => unique_from pred x l'
  end.

(** What [std::sort] requires of its comparison on the range it sorts: a
    strict weak ordering. It is checked on the elements of the range. *)
Definition irreflexive_on {A} (cmp : A -> A -> bool) (l : list A) : bool :=
  forallb (fun a => negb (cmp a a)) l.

Definition transitive_on {A} (cmp : A -> A -> bool) (l : list A) : bool :=
  forallb (fun a => forallb (fun b => forallb (fun c =>
    implb (cmp a b && cmp b c) (cmp a c)) l) l) l.

Definition equiv_transitive_on {A} (cmp : A -> A -> bool) (l : list A) : bool :=
  let eqv a b := negb (cmp a b) && negb (cmp b a) in
  forallb (fun a => forallb (fun b => forallb (fun c =>
    implb (eqv a b && eqv b c) (eqv a c)) l) l) l.

Definition strict_weak_ordering_on {A} (cmp : A -> A -> bool) (l : list A) : bool :=
  irreflexive_on cmp l && transitive_on cmp l && equiv_transitive_on cmp l.

(** The type of a sorting routine with the interface of [std::sort]. *)
Definition sort_routine : Type := forall A, (A -> A -> bool) -> list A -> list A.

(** What the C++ standard promises of [std::sort]: the result is a
    rearrangement of the range, and no later element is less than an earlier
    one, whenever the comparison is a strict weak ordering on the range.
    The relative order of equivalent elements is not part of the promise. *)
Definition sorted_by {A} (cmp : A -> A -> bool) (l : list A) : Prop :=
  StronglySorted (fun a b => cmp b a = false) l.

Definition std_sort_contract (sort : sort_routine) : Prop :=
  forall A (cmp : A -> A -> bool) (l : list A),
    sort A cmp l ≡ₚ l /\
    (strict_weak_ordering_on cmp l = true -> sorted_by cmp (sort A cmp l)).

(** A straight insertion sort: what libstdc++'s [std::sort] runs on a range
    of at most sixteen elements. Each element moves left past the elements
    it is less than. *)
Fixpoint linear_insert {A} (cmp : A -> A -> bool) (val : A) (l : list A) : list A :=
  match l with
  | [] => [val]
  | y :: l' => if cmp val y then val :: y :: l' else y :: linear_insert cmp val l'
  end.

Definition insertion_sort : sort_routine :=
  fun A cmp l => fold_left (fun acc val => linear_insert cmp val acc) l [].

(** [std::set<std::size_t>]: the elements in ascending order, each once. *)
Fixpoint set_insert (k : nat) (s : list nat) : list nat :=
  match s with
  | [] => [k]
  | y :: s' =>
      if (k <? y)%nat then k :: y :: s'
      else if (k =? y)%nat then y :: s'
      else y :: set_insert k s'
  end.

(** ** convex_hull.cpp *)

(** The part of a Qhull facet the hull builders read. [vertex_point] is
    [vertex.point()]: the point's id in the input and its coordinates as
    Qhull holds them (after the dropped dimensions are removed). *)
Record QhullVertex := {
  point_id : nat;
  vertex_point : vec
}.

Record QhullFacet := {
  isDefined : bool;
  isGood : bool;
  isSimplicial : bool;
  hyperplane : vec;
  facet_vertices : list QhullVertex;
  facetArea : double
}.

(** The hull engine: the facet list [Qhull qhull(point_buffer, command)]
    gives for the buffered points and the dimensions the command
    ["Qt Qbk:0Bk:0 ..."] drops, or [None] when Qhull throws. *)
Definition hull_engine : Type := list vec -> list nat -> option (list QhullFacet).

(** The inner loop of [restore_dependent_dimensions]: [n] coordinates are
    read through [iter], added to [point_sum] and pushed on [final_point];
    [*iter] at the end of the point is a read outside it. *)
Fixpoint copy_independent (n : nat) (iter : vec) (point_sum : double) (final_point : vec)
  : option (vec * double * vec) :=
  match n with
  | O => Some (iter, point_sum, final_point)
  | S n' =>
      match iter with
      | [] => None
      | c :: iter' => copy_independent n' iter' (point_sum + c) (final_point ++ [c])
      end
  end.

(** The outer loop, over the dependent dimensions in ascending order. *)
Fixpoint restore_from (dependent_dimensions : list nat) (sublattice_offset : nat)
    (iter : vec) (final_point : vec) : option vec :=
  match dependent_dimensions with
  | [] => Some final_point
  | dim :: dims =>
      '(iter', point_sum, final_point') ←
        copy_independent (dim - sublattice_offset) iter 0 final_point;
      restore_from dims (S dim) iter' (final_point' ++ [1 - point_sum])
  end.

Definition restore_dependent_dimensions (point : vec) (dependent_dimensions : list nat)
  : option vec :=
  restore_from dependent_dimensions 0 point [].

(** [too_similar] of [internal_lower_convex_hull]. *)
Fixpoint all_close (a b : vec) : bool :=
  match a, b with
  | x :: a', y :: b' => if 1e-20 <? abs (x - y) then false else all_close a' b'
  | _, _ => true
  end.

Definition too_similar (a b : vec) : bool :=
  if (length a =? length b)%nat then all_close a b else false.

(** A facet of the lower hull, as both builders select it: the last
    hyperplane coordinate is not positive and the hyperplane has
    coordinates. (For an empty hyperplane the program reads the orientation
    before the range; whatever is read, the facet is skipped.) *)
Definition lower_hull_facet (facet : QhullFacet) : bool :=
  negb (0 <? default 0 (last (hyperplane facet))) && negb (length (hyperplane facet) =? 0)%nat.

(** The facet loop of [internal_lower_convex_hull]: every vertex of every
    defined, good lower-hull facet is pushed on [candidate_points] with its
    dependent dimensions restored; the loop then [continue]s, so the edge
    tests written after it are never run. *)
Fixpoint collect_candidate_points (facets : list QhullFacet)
    (dependent_dimensions : list nat) (candidate_points : list vec) : option (list vec) :=
  match facets with
  | [] => Some candidate_points
  | facet :: facets' =>
      if isDefined facet && isGood facet && lower_hull_facet facet then
        restored ← mapM (fun vertex =>
          restore_dependent_dimensions (vertex_point vertex) dependent_dimensions)
          (facet_vertices facet);
        collect_candidate_points facets' dependent_dimensions (candidate_points ++ restored)
      else collect_candidate_points facets' dependent_dimensions candidate_points
  end.

(** The search for the point of lowest energy (last coordinate); reading
    the energy of a point with no coordinate is a read outside it. *)
Fixpoint minimum_point (minimum : vec) (points : list vec) : option vec :=
  match points with
  | [] => Some minimum
  | pt :: points' =>
      e_min ← last minimum; e_pt ← last pt;
      minimum_point (if e_pt <? e_min then pt else minimum) points'
  end.

Section InternalHull.
Variable std_sort : sort_routine.
Variable Qhull : hull_engine.

Definition internal_lower_convex_hull
    (points : list vec) (dependent_dimensions : list nat)
    (critical_edge_length : double)
    (calculate_objective : vec -> double) : option (list vec) :=
  match points with
  | [] => None
  | front :: _ =>
      if negb (0 <? critical_edge_length) then None else
      let point_dimension := length front in
      let point_count := length points in
      if (point_count =? 1)%nat then
        return_point ← restore_dependent_dimensions front dependent_dimensions;
        Some [return_point]
      else if (point_count <=? point_dimension)%nat then
        mapM (fun pt => restore_dependent_dimensions pt dependent_dimensions) points
      else
        facets ← Qhull points dependent_dimensions;
        candidate_points ← collect_candidate_points facets dependent_dimensions [];
        if (0 <? length candidate_points)%nat then
          let sorted := std_sort _ lexicographical_compare candidate_points in
          let deduplicated := std_unique too_similar sorted in
          mapM (fun pt => restore_dependent_dimensions pt dependent_dimensions) deduplicated
        else
          minimum ← minimum_point front points;
          Some [removelast minimum]
  end.

End InternalHull.

(** ** convex_hull_global.cpp *)

(** A [boost::numeric::ublas::matrix<double>], as the list of its rows. *)
Abbreviation matrix := (list (list float)).

(** [MatrixType (rows, cols)]. The program leaves the entries unset; every
    entry is assigned before it is read when each vertex of a facet has as
    many coordinates as the facet has vertices. The model starts from [0]. *)
Definition new_matrix (rows cols : nat) : matrix := replicate rows (replicate cols 0).

(** [m (r, c) = v]; an index outside the matrix assigns nothing here. *)
Definition matrix_assign (r c : nat) (v : double) (m : matrix) : matrix :=
  alter (fun row => <[c := v]> row) r m.

(** [boost::numeric::ublas::prod (m, v)]: one component per row of [m],
    the products added up from [0]. (For a row and a vector of different
    sizes the program has no defined result; the shorter one bounds the sum
    here.) *)
Definition inner_prod (row v : vec) : double :=
  fold_left (fun t ab => t + fst ab * snd ab) (zip row v) 0.

Definition prod (m : matrix) (v : vec) : vec := map (fun row => inner_prod row v) m.

(** [SimplicialFacet<double>] (its header is not part of the sources; the
    fields are the ones the two translation units read and write). *)
Record SimplicialFacet := {
  vertices : list nat;
  normal : vec;
  area : double;
  basis_matrix : matrix
}.

(** The loop over a vertex's coordinates, the energy (last) excepted:
    [new_facet.basis_matrix (row_index, column_index) = *coord]. *)
Fixpoint fill_column (coords : vec) (row_index column_index : nat) (m : matrix) : matrix :=
  match coords with
  | [] => m
  | coord :: coords' =>
      fill_column coords' (S row_index) column_index
        (matrix_assign row_index column_index coord m)
  end.

(** The loop over the vertices of a facet: one column per vertex, then
    a [1] in the last row. The matrix is stored as filled: the call of
    [InvertMatrix] that follows in the source is commented out. *)
Fixpoint fill_basis_matrix (vs : list QhullVertex) (column_index vertex_count : nat)
    (m : matrix) : matrix :=
  match vs with
  | [] => m
  | vertex :: vs' =>
      let m1 := fill_column (removelast (vertex_point vertex)) 0 column_index m in
      let m2 := matrix_assign (vertex_count - 1) column_index 1 m1 in
      fill_basis_matrix vs' (S column_index) vertex_count m2
  end.

Definition new_facet_of (facet : QhullFacet) : SimplicialFacet :=
  let vertex_count := length (facet_vertices facet) in
  {| vertices := map point_id (facet_vertices facet);
     normal := hyperplane facet;
     area := facetArea facet;
     basis_matrix :=
       fill_basis_matrix (facet_vertices facet) 0 vertex_count
         (new_matrix vertex_count vertex_count) |}.

(** The facet the program returns for a single input point. *)
Definition single_point_facet : SimplicialFacet :=
  {| vertices := [0%nat]; normal := [0]; area := 0; basis_matrix := [] |}.

Section GlobalHull.
Variable Qhull : hull_engine.

(** Every defined, good, simplicial lower-hull facet becomes a candidate
    and the loop [continue]s; the edge tests after it are never run, so
    [calculate_midpoint_energy] is never called. *)
Definition global_lower_convex_hull
    (points : list vec) (critical_edge_length : double)
    (calculate_midpoint_energy : nat -> nat -> double) : option (list SimplicialFacet) :=
  match points with
  | [] => None
  | front :: _ =>
      if negb (0 <? critical_edge_length) then None else
      let point_dimension := length front in
      let point_count := length points in
      if (point_count =? 1)%nat then Some [single_point_facet]
      else
        facets ← Qhull points [(point_dimension - 2)%nat];
        Some (map new_facet_of
                (filter (fun facet =>
                   isDefined facet && isGood facet && isSimplicial facet
                   && lower_hull_facet facet = true) facets))
  end.

End GlobalHull.

(** ** conditions.hpp *)

(** [Optimizer::PhaseStatus] (its header is not part of the sources). *)
Inductive PhaseStatus := ENTERED | DORMANT | FIXED | SUSPENDED.

(** [struct evalconditions]; a [std::map] is the list of its entries in key
    order. *)
Record evalconditions := {
  statevars : list (ascii * double);
  elements : list string;
  phases : list (string * PhaseStatus);
  xfrac : list (string * double)
}.

(** ** global_minimization.hpp *)

(** An entry of the hull map, [ConvexHullMap::HullEntryType]. *)
Record HullEntry := {
  phase_name : string;
  energy : double;
  internal_coordinates : vec;
  global_coordinates : list (string * double);
  global_hull_status : bool
}.

(** The members of [GlobalMinimizer]. [hull_map [id]] is [hull_map !! id]. *)
Record GlobalMinimizer := {
  hull_map : list HullEntry;
  candidate_facets : list SimplicialFacet;
  critical_edge_length : double;
  initial_subdivisions_per_axis : nat;
  refinement_subdivisions_per_axis : nat;
  max_search_depth : nat;
  discard_unstable : bool
}.

(** The constructor's defaults. *)
Definition GlobalMinimizer_new : GlobalMinimizer :=
  {| hull_map := []; candidate_facets := [];
     critical_edge_length := 0.05;
     initial_subdivisions_per_axis := 20;
     refinement_subdivisions_per_axis := 2;
     max_search_depth := 5;
     discard_unstable := true |}.

(** [difference = point2.internal_coordinates], then
    [*(diff_iter++) -= *coord] for every coordinate of point 1: a point 1
    longer than point 2 writes outside [difference]. *)
Fixpoint subtract_coordinates (difference point1 : vec) : option vec :=
  match point1, difference with
  | [], _ => Some difference
  | _ :: _, [] => None
  | coord :: point1', d :: difference' =>
      rest ← subtract_coordinates difference' point1';
      Some ((d - coord) :: rest)
  end.

Definition internal_distance (point1_entry point2_entry : HullEntry) : option double :=
  difference ← subtract_coordinates (internal_coordinates point2_entry)
                                    (internal_coordinates point1_entry);
  Some (euclidean_norm difference).

Definition facet_area_comparator (a b : SimplicialFacet) : bool := area a <? area b.

(** Modelled from the spec: [for_each_pair] of utils/for_each_pair.hpp, which
    is not part of the sources. It calls [f] on every unordered pair of the
    range, the earlier element first. *)
Fixpoint for_each_pair {A S} (f : A -> A -> S -> option S) (l : list A) (s : S) : option S :=
  match l with
  | [] => Some s
  | a :: l' =>
      s' ← foldl (fun acc b => s0 ← acc; f a b s0) (Some s) l';
      for_each_pair f l' s'
  end.

Section TiePoints.
Variable hull : list HullEntry.
(** The constant [critical_edge_length] that the lambda captures and the
    merge step reads. *)
Variable critical_edge_length : double.

(** The body of the lambda passed to [for_each_pair]. *)
Definition accept_pair (point1_id point2_id : nat) (candidate_ids : list nat)
  : option (list nat) :=
  point1_entry ← hull !! point1_id;
  point2_entry ← hull !! point2_id;
  if negb (String.eqb (phase_name point1_entry) (phase_name point2_entry)) then
    Some (set_insert point2_id (set_insert point1_id candidate_ids))
  else
    distance ← internal_distance point1_entry point2_entry;
    if critical_edge_length <? distance then
      Some (set_insert point2_id (set_insert point1_id candidate_ids))
    else Some candidate_ids.

(** The inner loop of the merge step from the element after [point2] on:
    [rest] holds the ids after [point2], the first of them at index [j].
    The answer is the index of the id to erase, if the loop reaches one. *)
Fixpoint inner_scan (point1_id : nat) (rest : list nat) (j : nat) : option (option nat) :=
  match rest with
  | [] => Some None
  | point2_id :: rest' =>
      point1_entry ← hull !! point1_id;
      point2_entry ← hull !! point2_id;
      if negb (String.eqb (phase_name point1_entry) (phase_name point2_entry)) then
        inner_scan point1_id rest' (S j)
      else
        distance ← internal_distance point1_entry point2_entry;
        if distance <=? critical_edge_length then Some (Some j)
        else inner_scan point1_id rest' (S j)
  end.

(** The two loops up to the first erasure: [point1] is at index [i],
    [after_point2] are the ids the inner loop has still to visit (the first
    at index [j]) and [after_point1] the ids after [point1]. *)
Fixpoint outer_scan (point1_id : nat) (after_point2 : list nat) (j : nat)
    (after_point1 : list nat) (i : nat) : option (option nat) :=
  found ← inner_scan point1_id after_point2 j;
  match found with
  | Some k => Some (Some k)
  | None =>
      match after_point1 with
      | [] => Some None
      | point1_id' :: after => outer_scan point1_id' after (S (S i)) after (S i)
      end
  end.

(** The merge step. After an erasure the program sets [point1] to the first
    id and [point2] to the second; the loop test [++point2 != end] then
    moves [point2] to the third before the body runs again. With a single
    id left, [point2] is already [end] and is incremented past it.
    [n] bounds the number of erasures. *)
Fixpoint merge_from (n : nat) (candidate_ids : list nat) (point1_id : nat)
    (after_point2 : list nat) (j : nat) (after_point1 : list nat) (i : nat)
  : option (list nat) :=
  found ← outer_scan point1_id after_point2 j after_point1 i;
  match found with
  | None => Some candidate_ids
  | Some k =>
      match delete k candidate_ids, n with
      | first :: second :: rest, S n' =>
          merge_from n' (first :: second :: rest) first rest 2 (second :: rest) 0
      | _, _ => None
      end
  end.

Definition merge_tie_points (candidate_ids : list nat) : option (list nat) :=
  match candidate_ids with
  | [] => Some []
  | first :: rest => merge_from (length candidate_ids) candidate_ids first rest 1 rest 0
  end.

(** Everything [find_tie_points] does with the facet it has chosen. *)
Definition tie_points_of_facet (final_facet : SimplicialFacet) : option (list HullEntry) :=
  candidate_ids ← for_each_pair accept_pair (vertices final_facet) [];
  merged ← merge_tie_points candidate_ids;
  ids ← (if (length merged =? 0)%nat then
           first_vertex ← head (vertices final_facet);
           Some (set_insert first_vertex merged)
         else Some merged);
  mapM (fun point_id => hull !! point_id) ids.

End TiePoints.

(** [trial_point]: the conditions' mole fractions in key order, then [1]. *)
Definition trial_point (conditions : evalconditions) : vec :=
  map snd (xfrac conditions) ++ [1].

(** The test that makes a facet a pre-candidate: no component of
    [prod (facet.basis_matrix, trial_point)] is negative. *)
Definition encloses (conditions : evalconditions) (facet : SimplicialFacet) : bool :=
  negb (existsb (fun coord => coord <? 0)
          (prod (basis_matrix facet) (trial_point conditions))).

Definition pre_candidate_facets (gm : GlobalMinimizer) (conditions : evalconditions)
  : list SimplicialFacet :=
  filter (fun facet => encloses conditions facet = true) (candidate_facets gm).

Section FindTiePoints.
Variable std_sort : sort_routine.

(** [GlobalMinimizer::find_tie_points]. The local constant
    [critical_edge_length = 0.05] hides the member of the same name. The
    writes to the log and to [std::cout] are left out. *)
Definition find_tie_points (gm : GlobalMinimizer) (conditions : evalconditions)
  : option (list HullEntry) :=
  let critical_edge_length := 0.05 in
  match std_sort _ facet_area_comparator (pre_candidate_facets gm conditions) with
  | [] => Some []
  | final_facet :: _ => tie_points_of_facet (hull_map gm) critical_edge_length final_facet
  end.

End FindTiePoints.

(** ** compositionset.cpp *)

(** Modelled from the spec: the expression trees ([boost::spirit::utree] built
    by code that is not part of the sources), as the tagged variant the spec
    describes: constants, variable references, named symbols, the binary
    operators [+ - * / ^], [log] and [exp], and a choice by the range of a
    state variable. *)
Inductive binary_op := OpAdd | OpSub | OpMul | OpDiv | OpPow.

Inductive unary_op := OpLog | OpExp.

Inductive utree :=
  | Constant (value : double)
  | VariableRef (name : string)
  | StateVariable (code : ascii)
  | SymbolRef (name : string)
  | Binary (op : binary_op) (lhs rhs : utree)
  | Unary (op : unary_op) (child : utree)
  | Piecewise (code : ascii) (low high : double) (inside otherwise : utree).

(** [boost::bimap<std::string,int>]: the left view, in key order.
    [bimap_at] is [indices.left.at (name)], which throws on a missing name. *)
Abbreviation bimap := (list (string * Z)).

Fixpoint bimap_at (indices : bimap) (name : string) : option Z :=
  match indices with
  | [] => None
  | (key, index) :: indices' =>
      if String.eqb key name then Some index else bimap_at indices' name
  end.

(** [ASTSymbolMap]. *)
Abbreviation ASTSymbolMap := (list (string * utree)).

(** [x[index]] for the array [double* const x]. *)
Definition array_at (x : vec) (index : Z) : option double :=
  if (index <? 0)%Z then None else x !! Z.to_nat index.

(** An entry of [tree_data] ([ast_entry]): the differentiating variables,
    the model's name and the derivative's tree. *)
Record ast_entry := {
  diffvars : list string;
  model_name : string;
  ast : utree
}.

(** The members of [CompositionSet] that the evaluation functions read.
    [models] maps a model's name to [get_ast ()] of the model, in key order;
    [tree_data] lists the entries in the order of [ast_deriv_order_index]. *)
Record CompositionSet := {
  cset_name : string;
  models : list (string * utree);
  symbols : ASTSymbolMap;
  tree_data : list ast_entry;
  phase_indices : bimap;
  starting_point : list (string * double)
}.

(** The entries between [lower_bound (order)] and [upper_bound (order)]. *)
Definition derivative_trees (order : nat) (cs : CompositionSet) : list ast_entry :=
  filter (fun entry => length (diffvars entry) = order) (tree_data cs).

Definition perturbation : double := 1e-7.

Section Evaluation.
(** [process_utree (tree, conditions, main_indices, symbols, x).get<double> ()];
    [None] when it throws. Its definition is not part of the sources. *)
Variable process_utree :
  utree -> evalconditions -> bimap -> ASTSymbolMap -> vec -> option double.

Definition evaluate_objective (cs : CompositionSet) (conditions : evalconditions)
    (main_indices : bimap) (x : vec) : option double :=
  foldl (fun objective model =>
           acc ← objective;
           value ← process_utree (snd model) conditions main_indices (symbols cs) x;
           Some (acc + value))
        (Some 0) (models cs).

(** One turn of the second loop of [evaluate_objective_gradient]. *)
Definition accumulate_derivative (cs : CompositionSet) (conditions : evalconditions)
    (main_indices : bimap) (x : vec) (retmap : gmap Z float) (entry : ast_entry)
  : option (gmap Z float) :=
  let compset_name := (cset_name cs ++ "_FRAC")%string in
  diffvalue ← process_utree (ast entry) conditions main_indices (symbols cs) x;
  diffvar ← head (diffvars entry);
  varindex ← bimap_at main_indices diffvar;
  if negb (String.eqb diffvar compset_name) then
    frac_index ← bimap_at main_indices compset_name;
    frac ← array_at x frac_index;
    Some (<[varindex := default 0 (retmap !! varindex) + frac * diffvalue]> retmap)
  else
    Some (<[varindex := default 0 (retmap !! varindex) + diffvalue]> retmap).

Definition evaluate_objective_gradient (cs : CompositionSet) (conditions : evalconditions)
    (main_indices : bimap) (x : vec) : option (gmap Z float) :=
  let retmap := foldl (fun m i => <[snd i := 0]> m) ∅ main_indices in
  foldl (fun acc entry =>
           m ← acc; accumulate_derivative cs conditions main_indices x m entry)
        (Some retmap) (derivative_trees 1 cs).

(** The second loop of [evaluate_internal_objective_gradient], from
    coordinate [i] on, for [count] more coordinates. [x_copy] is carried from
    one turn to the next as the program leaves it. *)
Fixpoint internal_gradient_loop (cs : CompositionSet) (conditions : evalconditions)
    (count i : nat) (x x_copy gradient : vec) : option vec :=
  match count with
  | O => Some gradient
  | S count' =>
      xi ← x !! i;
      let x_lower := <[i := xi - perturbation]> x_copy in
      lower_obj ← evaluate_objective cs conditions (phase_indices cs) x_lower;
      let x_upper := <[i := xi + perturbation]> x_lower in
      upper_obj ← evaluate_objective cs conditions (phase_indices cs) x_upper;
      internal_gradient_loop cs conditions count' (S i) x x_upper
        (<[i := (upper_obj - lower_obj) / (2 * perturbation)]> gradient)
  end.

Definition evaluate_internal_objective_gradient (cs : CompositionSet)
    (conditions : evalconditions) (x : vec) : option vec :=
  let size := length (phase_indices cs) in
  if (length x <? size)%nat then None
  else internal_gradient_loop cs conditions size 0 x (take size x) (replicate size 0).

End Evaluation.


(** Modelled from the spec: [process_utree] of utils/math_expr.cpp, which is
    not part of the sources. The tree is folded recursively: a variable is
    resolved through the name-to-index map into [x], a named symbol through
    the symbol table (its tree is evaluated with the same bindings), a state
    variable from the conditions. A missing binding and a domain error ([log]
    of a non-positive number, division by zero) make the evaluation fail. A
    chain of symbol references longer than the symbol table is cyclic and
    fails as well. The transcendental functions of the C library are taken
    from a record. *)
Record libm := {
  libm_log : double -> double;
  libm_exp : double -> double;
  libm_pow : double -> double -> double
}.

(** An instance for trees that use none of [log], [exp] and [^]: what it
    gives for them is never read there. *)
Definition arithmetic_only : libm :=
  {| libm_log := fun _ => nan; libm_exp := fun _ => nan; libm_pow := fun _ _ => nan |}.

Fixpoint statevar_at (vars : list (ascii * double)) (code : ascii) : option double :=
  match vars with
  | [] => None
  | (key, value) :: vars' =>
      if Ascii.eqb key code then Some value else statevar_at vars' code
  end.

Fixpoint symbol_at (table : ASTSymbolMap) (name : string) : option utree :=
  match table with
  | [] => None
  | (key, tree) :: table' =>
      if String.eqb key name then Some tree else symbol_at table' name
  end.

Definition apply_binary (m : libm) (op : binary_op) (a b : double) : option double :=
  match op with
  | OpAdd => Some (a + b)
  | OpSub => Some (a - b)
  | OpMul => Some (a * b)
  | OpDiv => if b =? 0 then None else Some (a / b)
  | OpPow => Some (libm_pow m a b)
  end.

Definition apply_unary (m : libm) (op : unary_op) (a : double) : option double :=
  match op with
  | OpLog => if a <=? 0 then None else Some (libm_log m a)
  | OpExp => Some (libm_exp m a)
  end.

Fixpoint process_utree_depth (m : libm) (conditions : evalconditions)
    (main_indices : bimap) (table : ASTSymbolMap) (x : vec) (depth : nat)
  : utree -> option double :=
  fix go (tree : utree) : option double :=
    match tree with
    | Constant value => Some value
    | VariableRef name => index ← bimap_at main_indices name; array_at x index
    | StateVariable code => statevar_at (statevars conditions) code
    | SymbolRef name =>
        match depth with
        | O => None
        | S depth' =>
            symbol ← symbol_at table name;
            process_utree_depth m conditions main_indices table x depth' symbol
        end
    | Binary op lhs rhs => a ← go lhs; b ← go rhs; apply_binary m op a b
    | Unary op child => a ← go child; apply_unary m op a
    | Piecewise code low high inside otherwise =>
        value ← statevar_at (statevars conditions) code;
        if (low <=? value) && (value <? high) then go inside else go otherwise
    end.

Definition process_utree_model (m : libm) (tree : utree) (conditions : evalconditions)
    (main_indices : bimap) (table : ASTSymbolMap) (x : vec) : option double :=
  process_utree_depth m conditions main_indices table x (length table) tree.

(** Modelled from the spec: the renaming helpers ([ast_variable_rename],
    [ast_copy_with_renamed_phase], [EnergyModel::clone_with_renamed_phase]),
    which are not part of the sources. The trees are walked and rebuilt; a
    name of a variable or of a symbol that begins with the old phase name
    (as the names [<PHASE>_<SUBLINDEX>_<SPECIES>] and [<PHASE>_FRAC] do) has
    this prefix replaced by the new name, and every other name is kept.
    Nothing is substituted inside a name. [strip_prefix old name] is what
    follows [old] in [name], if [name] begins with [old]. *)
Fixpoint strip_prefix (old name : string) : option string :=
  match old, name with
  | EmptyString, _ => Some name
  | String a old', String b name' =>
      if Ascii.eqb a b then strip_prefix old' name' else None
  | String _ _, EmptyString => None
  end.

Definition begins_with (phase name : string) : bool :=
  match strip_prefix phase name with
  | Some _ => true
  | None => false
  end.

Definition rename_phase (old new name : string) : string :=
  match strip_prefix old name with
  | Some rest => (new ++ rest)%string
  | None => name
  end.

Fixpoint ast_variable_rename (old new : string) (tree : utree) : utree :=
  match tree with
  | Constant value => Constant value
  | VariableRef name => VariableRef (rename_phase old new name)
  | StateVariable code => StateVariable code
  | SymbolRef name => SymbolRef (rename_phase old new name)
  | Binary op lhs rhs =>
      Binary op (ast_variable_rename old new lhs) (ast_variable_rename old new rhs)
  | Unary op child => Unary op (ast_variable_rename old new child)
  | Piecewise code low high inside otherwise =>
      Piecewise code low high (ast_variable_rename old new inside)
                              (ast_variable_rename old new otherwise)
  end.

Definition rename_entry (old new : string) (entry : ast_entry) : ast_entry :=
  {| diffvars := map (rename_phase old new) (diffvars entry);
     model_name := model_name entry;
     ast := ast_variable_rename old new (ast entry) |}.

Definition rename_symbols (old new : string) (table : ASTSymbolMap) : ASTSymbolMap :=
  map (fun symbol => (rename_phase old new (fst symbol),
                      ast_variable_rename old new (snd symbol))) table.

Definition rename_indices (old new : string) (indices : bimap) : bimap :=
  map (fun position => (rename_phase old new (fst position), snd position)) indices.

(** The copy constructor [CompositionSet (other, new_starting_point, new_name)],
    member by member as the source sets them, for the members of the record. *)
Definition CompositionSet_clone (other : CompositionSet)
    (new_starting_point : list (string * double)) (new_name : string) : CompositionSet :=
  let old_phase_name := cset_name other in
  let new_phase_name := new_name in
  {| cset_name := new_name;
     starting_point := new_starting_point;
     models := map (fun energymod =>
                      (fst energymod,
                       ast_variable_rename old_phase_name new_phase_name (snd energymod)))
                   (models other);
     tree_data := map (rename_entry old_phase_name new_phase_name) (tree_data other);
     symbols := rename_symbols old_phase_name new_phase_name (symbols other);
     phase_indices := rename_indices old_phase_name new_phase_name (phase_indices other) |}.

(** ** The properties the claims speak of *)

(** Each dependent coordinate of [q] is [1] minus the sum (added up from
    [0], left to right) of the coordinates of [q] between the previous
    dependent coordinate and itself: the independent coordinates of its own
    sublattice. *)
Fixpoint dependent_restored_from (dependent_dimensions : list nat)
    (sublattice_offset : nat) (q : vec) : Prop :=
  match dependent_dimensions with
  | [] => True
  | dim :: dims =>
      q !! dim = Some (1 - accumulate (take (dim - sublattice_offset)
                                            (drop sublattice_offset q)))
      /\ dependent_restored_from dims (S dim) q
  end.

Definition dependent_restored (dependent_dimensions : list nat) (q : vec) : Prop :=
  dependent_restored_from dependent_dimensions 0 q.

(** The number of coordinates [restore_dependent_dimensions] reads. *)
Fixpoint independent_count (dependent_dimensions : list nat) (sublattice_offset : nat) : nat :=
  match dependent_dimensions with
  | [] => 0
  | dim :: dims => (dim - sublattice_offset) + independent_count dims (S dim)
  end.

(** The length of an edge between two vertices of a facet in site-fraction
    space: the energy (last coordinate) is left out. *)
Definition edge_length (vertex1 vertex2 : QhullVertex) : double :=
  euclidean_norm (zip_with PrimFloat.sub (removelast (vertex_point vertex2))
                                         (removelast (vertex_point vertex1))).

(** The contribution of one first-derivative tree to the gradient, as the
    claim words it: the value of the tree, multiplied by [x[_FRAC]] unless
    the tree is the derivative with respect to [_FRAC] itself. *)
Definition weighted_derivative
    (process_utree : utree -> evalconditions -> bimap -> ASTSymbolMap -> vec -> option double)
    (cs : CompositionSet) (conditions : evalconditions)
    (main_indices : bimap) (x : vec) (entry : ast_entry) : option (Z * double) :=
  diffvalue ← process_utree (ast entry) conditions main_indices (symbols cs) x;
  diffvar ← head (diffvars entry);
  varindex ← bimap_at main_indices diffvar;
  if String.eqb diffvar (cset_name cs ++ "_FRAC")%string then Some (varindex, diffvalue)
  else
    frac_index ← bimap_at main_indices (cset_name cs ++ "_FRAC")%string;
    frac ← array_at x frac_index;
    Some (varindex, frac * diffvalue).

(** The contributions to the index [k], in the order of the trees. *)
Definition contributions_to (k : Z) (contributions : list (Z * double)) : vec :=
  map snd (filter (fun c => fst c = k) contributions).

(** The facet the spec's stable choice picks: the first facet, in the order
    of [candidate_facets], among the enclosing facets of smallest area. *)
Fixpoint first_smallest (best : SimplicialFacet) (facets : list SimplicialFacet)
  : SimplicialFacet :=
  match facets with
  | [] => best
  | facet :: facets' =>
      first_smallest (if facet_area_comparator facet best then facet else best) facets'
  end.

Definition stable_choice (gm : GlobalMinimizer) (conditions : evalconditions)
  : option SimplicialFacet :=
  match pre_candidate_facets gm conditions with
  | [] => None
  | facet :: facets => Some (first_smallest facet facets)
  end.

(** The names a tree refers to, and the names in use by a composition set
    and an index map. *)
Fixpoint names_of_tree (tree : utree) : list string :=
  match tree with
  | Constant _ | StateVariable _ => []
  | VariableRef name | SymbolRef name => [name]
  | Binary _ lhs rhs => names_of_tree lhs ++ names_of_tree rhs
  | Unary _ child => names_of_tree child
  | Piecewise _ _ _ inside otherwise => names_of_tree inside ++ names_of_tree otherwise
  end.

Definition names_in_use (cs : CompositionSet) (main_indices : bimap) : list string :=
  (cset_name cs ++ "_FRAC")%string
  :: map fst main_indices
  ++ concat (map (fun model => names_of_tree (snd model)) (models cs))
  ++ concat (map (fun symbol => fst symbol :: names_of_tree (snd symbol)) (symbols cs))
  ++ concat (map (fun entry => diffvars entry ++ names_of_tree (ast entry)) (tree_data cs)).

(** The new phase name is fresh: no name in use begins with it. *)
Definition fresh_phase_name (new : string) (names : list string) : Prop :=
  Forall (fun name => begins_with new name = false) names.

(** [retmap[k] += c] for the contributions [(k, c)] in turn. *)
Definition add_contributions (retmap : gmap Z float) (contributions : list (Z * double))
  : gmap Z float :=
  foldl (fun m kc => <[fst kc := default 0 (m !! fst kc) + snd kc]> m) retmap contributions.

(** The gradient the contributions add up to: for every index of the index
    map, the sum of the contributions to it. *)
Definition gradient_of_contributions (main_indices : bimap)
    (contributions : list (Z * double)) : gmap Z float :=
  list_to_map (map (fun k => (k, accumulate (contributions_to k contributions)))
                   (map snd main_indices)).

(** The central finite difference of the claim: the objective at [x] with
    coordinate [i] raised and lowered by the perturbation, every other
    coordinate as in [x]. *)
Definition central_difference
    (process_utree : utree -> evalconditions -> bimap -> ASTSymbolMap -> vec -> option double)
    (cs : CompositionSet) (conditions : evalconditions) (x : vec) (i : nat)
  : option double :=
  xi ← x !! i;
  lower_obj ← evaluate_objective process_utree cs conditions (phase_indices cs)
                 (<[i := xi - perturbation]> x);
  upper_obj ← evaluate_objective process_utree cs conditions (phase_indices cs)
                 (<[i := xi + perturbation]> x);
  Some ((upper_obj - lower_obj) / (2 * perturbation)).

(** The point at which the program takes the difference for coordinate [i]:
    [x] with every earlier coordinate raised by the perturbation. *)
Definition raised_before (i : nat) (x : vec) : vec :=
  map (fun c => c + perturbation) (take i x) ++ drop i x.

(** ** Concrete inputs *)

Definition same_vec (a b : vec) : bool :=
  (length a =? length b)%nat
  && forallb (fun ab => PrimFloat.Leibniz.eqb (fst ab) (snd ab)) (zip a b).

Definition same_points (a b : list vec) : bool :=
  (length a =? length b)%nat
  && forallb (fun ab => same_vec (fst ab) (snd ab)) (zip a b).

(** A hull engine that knows the hull of one input: it answers [facets] for
    [points] with the dimensions [dropped] removed, and throws otherwise. *)
Definition hull_of (points : list vec) (dropped : list nat) (facets : list QhullFacet)
  : hull_engine :=
  fun points' dropped' =>
    if same_points points points' && bool_decide (dropped = dropped') then Some facets
    else None.

(** A hull engine that throws on every call. *)
Definition Qhull_throws : hull_engine := fun _ _ => None.

Definition vertex_at (id : nat) (point : vec) : QhullVertex :=
  {| point_id := id; vertex_point := point |}.

Definition good_facet (hp : vec) (vs : list QhullVertex) (a : double) : QhullFacet :=
  {| isDefined := true; isGood := true; isSimplicial := true;
     hyperplane := hp; facet_vertices := vs; facetArea := a |}.

(** One sublattice (A,B), points [(y_A, y_B, energy)]; the dependent
    dimension is 1, so Qhull sees [(y_A, energy)]: a diamond whose four
    edges all span 0.01 in y_A. *)
Definition diamond_points : list vec :=
  [ [0.50; 0.50; 0]; [0.51; 0.49; -1]; [0.52; 0.48; 0]; [0.51; 0.49; 1] ].

Definition diamond_facets : list QhullFacet :=
  [ good_facet [-0.99995; -0.0099995]
      [vertex_at 0 [0.50; 0]; vertex_at 1 [0.51; -1]] 1.00005;
    good_facet [0.99995; -0.0099995]
      [vertex_at 1 [0.51; -1]; vertex_at 2 [0.52; 0]] 1.00005;
    good_facet [0.99995; 0.0099995]
      [vertex_at 2 [0.52; 0]; vertex_at 3 [0.51; 1]] 1.00005;
    good_facet [-0.99995; 0.0099995]
      [vertex_at 3 [0.51; 1]; vertex_at 0 [0.50; 0]] 1.00005 ].

Definition diamond_hull : hull_engine := hull_of diamond_points [1%nat] diamond_facets.

(** Two sublattices (Fe,Ni)(C,Va), points [(y_Fe, y_Ni, y_C, y_Va, energy)];
    the dependent dimensions are 1 and 3, so Qhull sees
    [(y_Fe, y_C, energy)]: a pyramid with its base at energy 0 over the unit
    square, its apex at [(0.25, 0.5, -1)], and one point inside. *)
Definition pyramid_points : list vec :=
  [ [0; 1; 0; 1; 0]; [1; 0; 0; 1; 0]; [0; 1; 1; 0; 0]; [1; 0; 1; 0; 0];
    [0.25; 0.75; 0.5; 0.5; -1]; [0.75; 0.25; 0.5; 0.5; -0.1] ].

Definition pyramid_facets : list QhullFacet :=
  [ good_facet [0; -0.894427; -0.447214]
      [vertex_at 0 [0; 0; 0]; vertex_at 1 [1; 0; 0]; vertex_at 4 [0.25; 0.5; -1]] 0.559017;
    good_facet [0.8; 0; -0.6]
      [vertex_at 1 [1; 0; 0]; vertex_at 3 [1; 1; 0]; vertex_at 4 [0.25; 0.5; -1]] 0.625;
    good_facet [0; 0.894427; -0.447214]
      [vertex_at 3 [1; 1; 0]; vertex_at 2 [0; 1; 0]; vertex_at 4 [0.25; 0.5; -1]] 0.559017;
    good_facet [-0.970143; 0; -0.242536]
      [vertex_at 2 [0; 1; 0]; vertex_at 0 [0; 0; 0]; vertex_at 4 [0.25; 0.5; -1]] 0.515388;
    good_facet [0; 0; 1]
      [vertex_at 0 [0; 0; 0]; vertex_at 1 [1; 0; 0]; vertex_at 3 [1; 1; 0]] 0.5;
    good_facet [0; 0; 1]
      [vertex_at 0 [0; 0; 0]; vertex_at 3 [1; 1; 0]; vertex_at 2 [0; 1; 0]] 0.5 ].

Definition pyramid_hull : hull_engine := hull_of pyramid_points [1%nat; 3%nat] pyramid_facets.

Definition hull_entry (phase : string) (internal : vec)
    (global : list (string * double)) (e : double) : HullEntry :=
  {| phase_name := phase; energy := e; internal_coordinates := internal;
     global_coordinates := global; global_hull_status := true |}.

Definition with_critical_edge_length (gm : GlobalMinimizer) (cel : double) : GlobalMinimizer :=
  {| hull_map := hull_map gm; candidate_facets := candidate_facets gm;
     critical_edge_length := cel;
     initial_subdivisions_per_axis := initial_subdivisions_per_axis gm;
     refinement_subdivisions_per_axis := refinement_subdivisions_per_axis gm;
     max_search_depth := max_search_depth gm;
     discard_unstable := discard_unstable gm |}.

(** A binary system A-B with the phases ALPHA and BETA. The points of the
    global hull are [(x_A, x_B, energy)]; Qhull drops dimension 1 and sees
    [(x_A, energy)]: a triangle with the lower edges from x_A = 1 to 0.4 and
    from 0.4 to 0. The target is x_A = 0.7. *)
Definition binary_hull_map : list HullEntry :=
  [ hull_entry "ALPHA" [1; 0] [("A"%string, 1); ("B"%string, 0)] 0;
    hull_entry "ALPHA" [0.4; 0.6] [("A"%string, 0.4); ("B"%string, 0.6)] (-1000);
    hull_entry "BETA" [0; 1] [("A"%string, 0); ("B"%string, 1)] 0 ].

Definition binary_points : list vec := [ [1; 0; 0]; [0.4; 0.6; -1000]; [0; 1; 0] ].

Definition binary_facets : list QhullFacet :=
  [ good_facet [0.99999982; -0.0006]
      [vertex_at 0 [1; 0]; vertex_at 1 [0.4; -1000]] 1000.00018;
    good_facet [-0.99999992; -0.0004]
      [vertex_at 1 [0.4; -1000]; vertex_at 2 [0; 0]] 1000.00008;
    good_facet [0; 1]
      [vertex_at 2 [0; 0]; vertex_at 0 [1; 0]] 1 ].

Definition binary_hull : hull_engine := hull_of binary_points [1%nat] binary_facets.

Definition binary_upper_facet : SimplicialFacet :=
  {| vertices := [0%nat; 1%nat]; normal := [0.99999982; -0.0006]; area := 1000.00018;
     basis_matrix := [ [1; 0.4]; [1; 1] ] |}.

Definition binary_lower_facet : SimplicialFacet :=
  {| vertices := [1%nat; 2%nat]; normal := [-0.99999992; -0.0004]; area := 1000.00008;
     basis_matrix := [ [0.4; 0]; [1; 1] ] |}.

Definition binary_minimizer : GlobalMinimizer :=
  {| hull_map := binary_hull_map;
     candidate_facets := [binary_upper_facet; binary_lower_facet];
     critical_edge_length := 0.05;
     initial_subdivisions_per_axis := 20;
     refinement_subdivisions_per_axis := 2;
     max_search_depth := 5;
     discard_unstable := true |}.

Definition binary_conditions : evalconditions :=
  {| statevars := [("T"%char, 300)];
     elements := ["A"%string; "B"%string];
     phases := [("ALPHA"%string, ENTERED); ("BETA"%string, ENTERED)];
     xfrac := [("A"%string, 0.7)] |}.

(** A quaternary system A-B-C-D: a facet of three ALPHA points within 0.025
    of each other (site fractions of A, B and C) and BETA at pure D. *)
Definition quaternary_hull_map : list HullEntry :=
  [ hull_entry "ALPHA" [0.50; 0.30; 0.20]
      [("A"%string, 0.50); ("B"%string, 0.30); ("C"%string, 0.20); ("D"%string, 0)] (-900);
    hull_entry "ALPHA" [0.52; 0.29; 0.19]
      [("A"%string, 0.52); ("B"%string, 0.29); ("C"%string, 0.19); ("D"%string, 0)] (-901);
    hull_entry "ALPHA" [0.51; 0.31; 0.18]
      [("A"%string, 0.51); ("B"%string, 0.31); ("C"%string, 0.18); ("D"%string, 0)] (-902);
    hull_entry "BETA" [0; 1]
      [("A"%string, 0); ("B"%string, 0); ("C"%string, 0); ("D"%string, 1)] (-500) ].

Definition quaternary_facet : SimplicialFacet :=
  {| vertices := [0%nat; 1%nat; 2%nat; 3%nat];
     normal := [0.1; 0.2; 0.3; -0.9; -0.2];
     area := 0.0002;
     basis_matrix := [ [0.50; 0.52; 0.51; 0];
                       [0.30; 0.29; 0.31; 0];
                       [0.20; 0.19; 0.18; 0];
                       [1; 1; 1; 1] ] |}.

Definition quaternary_minimizer : GlobalMinimizer :=
  {| hull_map := quaternary_hull_map;
     candidate_facets := [quaternary_facet];
     critical_edge_length := 0.05;
     initial_subdivisions_per_axis := 20;
     refinement_subdivisions_per_axis := 2;
     max_search_depth := 5;
     discard_unstable := true |}.

Definition quaternary_conditions : evalconditions :=
  {| statevars := [("T"%char, 300)];
     elements := ["A"%string; "B"%string; "C"%string; "D"%string];
     phases := [("ALPHA"%string, ENTERED); ("BETA"%string, ENTERED)];
     xfrac := [("A"%string, 0.408); ("B"%string, 0.24); ("C"%string, 0.152)] |}.

(** A binary system with three phases and two lower facets of equal area
    that meet at the target x_A = 0.5. *)
Definition tie_hull_map : list HullEntry :=
  [ hull_entry "ALPHA" [1; 0] [("A"%string, 1); ("B"%string, 0)] 0;
    hull_entry "GAMMA" [0.5; 0.5] [("A"%string, 0.5); ("B"%string, 0.5)] (-1);
    hull_entry "BETA" [0; 1] [("A"%string, 0); ("B"%string, 1)] 0 ].

Definition tie_first_facet : SimplicialFacet :=
  {| vertices := [0%nat; 1%nat]; normal := [0.894427; -0.447214];
     area := 1.118033988749895; basis_matrix := [ [1; 0.5]; [1; 1] ] |}.

Definition tie_second_facet : SimplicialFacet :=
  {| vertices := [1%nat; 2%nat]; normal := [-0.894427; -0.447214];
     area := 1.118033988749895; basis_matrix := [ [0.5; 0]; [1; 1] ] |}.

Definition tie_minimizer : GlobalMinimizer :=
  {| hull_map := tie_hull_map;
     candidate_facets := [tie_first_facet; tie_second_facet];
     critical_edge_length := 0.05;
     initial_subdivisions_per_axis := 20;
     refinement_subdivisions_per_axis := 2;
     max_search_depth := 5;
     discard_unstable := true |}.

Definition tie_conditions : evalconditions :=
  {| statevars := [("T"%char, 300)];
     elements := ["A"%string; "B"%string];
     phases := [("ALPHA"%string, ENTERED); ("BETA"%string, ENTERED);
                ("GAMMA"%string, ENTERED)];
     xfrac := [("A"%string, 0.5)] |}.

(** A miscibility gap: two ALPHA points 0.14 apart on one facet. *)
Definition gap_hull_map : list HullEntry :=
  [ hull_entry "ALPHA" [0.45; 0.55] [("A"%string, 0.45); ("B"%string, 0.55)] (-10);
    hull_entry "ALPHA" [0.55; 0.45] [("A"%string, 0.55); ("B"%string, 0.45)] (-10) ].

Definition gap_facet : SimplicialFacet :=
  {| vertices := [0%nat; 1%nat]; normal := [0; -1]; area := 0.1;
     basis_matrix := [ [0.45; 0.55]; [1; 1] ] |}.

Definition gap_minimizer : GlobalMinimizer :=
  {| hull_map := gap_hull_map;
     candidate_facets := [gap_facet];
     critical_edge_length := 0.05;
     initial_subdivisions_per_axis := 20;
     refinement_subdivisions_per_axis := 2;
     max_search_depth := 5;
     discard_unstable := true |}.

(** A phase ALPHA with one sublattice (A,B) and the energy y_A * y_B; the
    first-derivative trees are the ones differentiation gives. *)
Definition product_set : CompositionSet :=
  {| cset_name := "ALPHA";
     models := [("REDLICH_KISTER"%string,
                 Binary OpMul (VariableRef "ALPHA_0_A") (VariableRef "ALPHA_0_B"))];
     symbols := [];
     tree_data :=
       [ {| diffvars := ["ALPHA_0_A"%string]; model_name := "REDLICH_KISTER";
            ast := VariableRef "ALPHA_0_B" |};
         {| diffvars := ["ALPHA_0_B"%string]; model_name := "REDLICH_KISTER";
            ast := VariableRef "ALPHA_0_A" |};
         {| diffvars := ["ALPHA_FRAC"%string]; model_name := "REDLICH_KISTER";
            ast := Binary OpMul (VariableRef "ALPHA_0_A") (VariableRef "ALPHA_0_B") |};
         {| diffvars := ["ALPHA_0_A"%string; "ALPHA_0_B"%string];
            model_name := "REDLICH_KISTER"; ast := Constant 1 |} ];
     phase_indices := [("ALPHA_0_A"%string, 0%Z); ("ALPHA_0_B"%string, 1%Z)];
     starting_point := [] |}.

Definition product_indices : bimap :=
  [("ALPHA_0_A"%string, 0%Z); ("ALPHA_0_B"%string, 1%Z); ("ALPHA_FRAC"%string, 2%Z)].

(** A phase BETA whose energy is the difference of two named functions,
    [BETA_G0] of its own and [ALPHA_G0]; cloned under the name ALPHA, both
    functions are called [ALPHA_G0]. *)
Definition colliding_set : CompositionSet :=
  {| cset_name := "BETA";
     models := [("PURE_ENERGY"%string,
                 Binary OpSub (SymbolRef "BETA_G0") (SymbolRef "ALPHA_G0"))];
     symbols := [("ALPHA_G0"%string, Constant 1); ("BETA_G0"%string, Constant 3)];
     tree_data :=
       [ {| diffvars := ["BETA_FRAC"%string]; model_name := "PURE_ENERGY";
            ast := Binary OpSub (SymbolRef "BETA_G0") (SymbolRef "ALPHA_G0") |} ];
     phase_indices := [("BETA_0_A"%string, 0%Z); ("BETA_0_B"%string, 1%Z)];
     starting_point := [] |}.

Definition colliding_indices : bimap :=
  [("BETA_0_A"%string, 0%Z); ("BETA_0_B"%string, 1%Z); ("BETA_FRAC"%string, 2%Z)].

(** ** Further code of the same files *)

(** *** global_minimization.hpp: the dependent dimensions in [run] *)

(** The loop of [GlobalMinimizer::run] that determines the dependent
    dimensions of a phase. [species_counts] lists, for the sublattices
    0, 1, ... of the phase, the number of species
    [std::distance (ic0, ic1)]; the loop ends at the first sublattice that
    has none. *)
Fixpoint dependent_dimensions_from (species_counts : list nat)
    (current_dependent_dimension : nat) (dependent_dimensions : list nat) : list nat :=
  match species_counts with
  | [] => dependent_dimensions
  | number_of_species :: species_counts' =>
      if (number_of_species =? 0)%nat then dependent_dimensions
      else
        let last_component := (current_dependent_dimension + (number_of_species - 1))%nat in
        dependent_dimensions_from species_counts' (S last_component)
          (set_insert last_component dependent_dimensions)
  end.

Definition run_dependent_dimensions (species_counts : list nat) : list nat :=
  dependent_dimensions_from species_counts 0 [].

(** The coordinates of [q] that are not dependent, in order: for every
    dependent dimension, the coordinates between the previous dependent
    dimension and itself. *)
Fixpoint independent_coordinates (dependent_dimensions : list nat)
    (sublattice_offset : nat) (q : vec) : vec :=
  match dependent_dimensions with
  | [] => []
  | dim :: dims =>
      take (dim - sublattice_offset) (drop sublattice_offset q)
      ++ independent_coordinates dims (S dim) q
  end.

(** *** Matrices and signs *)

(** [m (r, c)], read. *)
Definition matrix_at (m : matrix) (r c : nat) : option double :=
  row ← m !! r; row !! c.

(** [!(x < 0)]: a number the enclosure test of [find_tie_points] lets pass. *)
Definition not_negative (x : double) : bool := negb (x <? 0).

(** The sign test on the specification floats of the kernel: everything
    but a negative number and minus infinity. *)
Definition SF_not_negative (x : spec_float) : bool :=
  match x with
  | S754_infinity true | S754_finite true _ _ => false
  | _ => true
  end.

(** The vertices as Qhull gives them for a hull of points in composition
    space: each vertex of a facet of [n] vertices has [n] coordinates, the
    energy last, and no coordinate before the energy is negative. *)
Definition composition_vertices (qfacet : QhullFacet) : Prop :=
  Forall (fun vertex =>
            length (vertex_point vertex) = length (facet_vertices qfacet)
            /\ Forall (fun c => not_negative c = true) (removelast (vertex_point vertex)))
         (facet_vertices qfacet).

(** The cases of the comparisons of exponents and mantissas. *)
Ltac compare_cases :=
  repeat match goal with
  | H : context [Z.compare ?a ?b] |- _ => destruct (Z.compare_spec a b)
  | |- context [Z.compare ?a ?b] => destruct (Z.compare_spec a b)
  | H : context [Pos.compare ?a ?b] |- _ => destruct (Pos.compare_spec a b)
  | |- context [Pos.compare ?a ?b] => destruct (Pos.compare_spec a b)
  end.

(** *** compositionset.cpp: the other evaluation functions *)

(** [variables.at (name)] for a [std::map<std::string,double>], the list of
    its entries in key order. *)
Fixpoint variable_at (variables : list (string * double)) (name : string) : option double :=
  match variables with
  | [] => None
  | (key, value) :: variables' =>
      if String.eqb key name then Some value else variable_at variables' name
  end.

(** The translation the overloads for a variable map start with:
    [vars[std::distance (variables.begin (), i)] = i->second] and
    [main_indices.insert (position (i->first, std::distance (variables.begin (), i)))]. *)
Definition fictitious_indices (variables : list (string * double)) : bimap :=
  imap (fun i variable => (fst variable, Z.of_nat i)) variables.

Definition variable_array (variables : list (string * double)) : vec := map snd variables.

(** [{varindex1, varindex2}] or [{varindex2, varindex1}]: the smaller index
    first. *)
Definition hessian_key (varindex1 varindex2 : Z) : list Z :=
  if (varindex1 <=? varindex2)%Z then [varindex1; varindex2] else [varindex2; varindex1].

(** The first loops of [evaluate_objective_hessian]:
    [retmap[{i->second, j->second}] = 0] unless [i->second > j->second]. *)
Definition zero_hessian_row (i : Z) (retmap : gmap (list Z) float) (indices : bimap)
  : gmap (list Z) float :=
  foldl (fun m j => if (i >? snd j)%Z then m else <[[i; snd j] := 0]> m) retmap indices.

Definition zero_hessian (main_indices : bimap) : gmap (list Z) float :=
  foldl (fun m i => zero_hessian_row (snd i) m main_indices) ∅ main_indices.

(** One turn of the loop of [hessian_sparsity_structure]. *)
Definition insert_nonzero_entry (main_indices : bimap) (retset : gset (list Z))
    (entry : ast_entry) : option (gset (list Z)) :=
  diffvar1 ← diffvars entry !! 0%nat;
  diffvar2 ← diffvars entry !! 1%nat;
  varindex1 ← bimap_at main_indices diffvar1;
  varindex2 ← bimap_at main_indices diffvar2;
  Some ({[ hessian_key varindex1 varindex2 ]} ∪ retset).

Definition hessian_sparsity_structure (cs : CompositionSet) (main_indices : bimap)
  : option (gset (list Z)) :=
  foldl (fun acc entry => retset ← acc; insert_nonzero_entry main_indices retset entry)
        (Some ∅) (derivative_trees 2 cs).

Section EvaluationOfMaps.
Variable process_utree :
  utree -> evalconditions -> bimap -> ASTSymbolMap -> vec -> option double.

(** One turn of the second loop of
    [evaluate_single_phase_objective_gradient]. *)
Definition accumulate_single_phase_derivative (cs : CompositionSet)
    (conditions : evalconditions) (main_indices : bimap) (x : vec)
    (retmap : gmap Z float) (entry : ast_entry) : option (gmap Z float) :=
  diffvalue ← process_utree (ast entry) conditions main_indices (symbols cs) x;
  diffvar ← head (diffvars entry);
  varindex ← bimap_at main_indices diffvar;
  Some (<[varindex := default 0 (retmap !! varindex) + diffvalue]> retmap).

Definition evaluate_single_phase_objective_gradient (cs : CompositionSet)
    (conditions : evalconditions) (main_indices : bimap) (x : vec)
  : option (gmap Z float) :=
  let retmap := foldl (fun m i => <[snd i := 0]> m) ∅ main_indices in
  foldl (fun acc entry =>
           m ← acc;
           accumulate_single_phase_derivative cs conditions main_indices x m entry)
        (Some retmap) (derivative_trees 1 cs).

(** The overloads that take the variables as a map. *)
Definition evaluate_objective_of_map (cs : CompositionSet) (conditions : evalconditions)
    (variables : list (string * double)) : option double :=
  evaluate_objective process_utree cs conditions
    (fictitious_indices variables) (variable_array variables).

Definition evaluate_objective_gradient_of_map (cs : CompositionSet)
    (conditions : evalconditions) (variables : list (string * double))
  : option (gmap Z float) :=
  evaluate_objective_gradient process_utree cs conditions
    (fictitious_indices variables) (variable_array variables).

Definition evaluate_single_phase_objective_gradient_of_map (cs : CompositionSet)
    (conditions : evalconditions) (variables : list (string * double))
  : option (gmap Z float) :=
  evaluate_single_phase_objective_gradient cs conditions
    (fictitious_indices variables) (variable_array variables).

(** One turn of the second loop of [evaluate_objective_hessian]. *)
Definition accumulate_second_derivative (cs : CompositionSet)
    (conditions : evalconditions) (main_indices : bimap) (x : vec)
    (retmap : gmap (list Z) float) (entry : ast_entry) : option (gmap (list Z) float) :=
  let compset_name := (cset_name cs ++ "_FRAC")%string in
  diffvalue ← process_utree (ast entry) conditions main_indices (symbols cs) x;
  diffvar1 ← diffvars entry !! 0%nat;
  diffvar2 ← diffvars entry !! 1%nat;
  varindex1 ← bimap_at main_indices diffvar1;
  varindex2 ← bimap_at main_indices diffvar2;
  let searchlist := hessian_key varindex1 varindex2 in
  if String.eqb diffvar1 compset_name || String.eqb diffvar2 compset_name then
    Some (<[searchlist := default 0 (retmap !! searchlist) + diffvalue]> retmap)
  else
    frac_index ← bimap_at main_indices compset_name;
    frac ← array_at x frac_index;
    Some (<[searchlist := default 0 (retmap !! searchlist) + frac * diffvalue]> retmap).

Definition evaluate_objective_hessian (cs : CompositionSet) (conditions : evalconditions)
    (main_indices : bimap) (x : vec) : option (gmap (list Z) float) :=
  foldl (fun acc entry =>
           m ← acc; accumulate_second_derivative cs conditions main_indices x m entry)
        (Some (zero_hessian main_indices)) (derivative_trees 2 cs).

End EvaluationOfMaps.

(** The contribution of one first-derivative tree to the single-phase
    gradient: the index of its variable and the value of the tree. *)
Definition plain_derivative
    (process_utree : utree -> evalconditions -> bimap -> ASTSymbolMap -> vec -> option double)
    (cs : CompositionSet) (conditions : evalconditions)
    (main_indices : bimap) (x : vec) (entry : ast_entry) : option (Z * double) :=
  diffvalue ← process_utree (ast entry) conditions main_indices (symbols cs) x;
  diffvar ← head (diffvars entry);
  varindex ← bimap_at main_indices diffvar;
  Some (varindex, diffvalue).

(** The contribution of one second-derivative tree to the Hessian: its
    key and the value of the tree, multiplied by [x[_FRAC]] unless one of
    the two variables is [_FRAC] itself. *)
Definition weighted_second_derivative
    (process_utree : utree -> evalconditions -> bimap -> ASTSymbolMap -> vec -> option double)
    (cs : CompositionSet) (conditions : evalconditions)
    (main_indices : bimap) (x : vec) (entry : ast_entry) : option (list Z * double) :=
  diffvalue ← process_utree (ast entry) conditions main_indices (symbols cs) x;
  diffvar1 ← diffvars entry !! 0%nat;
  diffvar2 ← diffvars entry !! 1%nat;
  varindex1 ← bimap_at main_indices diffvar1;
  varindex2 ← bimap_at main_indices diffvar2;
  if String.eqb diffvar1 (cset_name cs ++ "_FRAC")%string
     || String.eqb diffvar2 (cset_name cs ++ "_FRAC")%string
  then Some (hessian_key varindex1 varindex2, diffvalue)
  else
    frac_index ← bimap_at main_indices (cset_name cs ++ "_FRAC")%string;
    frac ← array_at x frac_index;
    Some (hessian_key varindex1 varindex2, frac * diffvalue).

(** The contributions to a key of the Hessian, in the order of the trees. *)
Definition contributions_to_key (key : list Z) (contributions : list (list Z * double)) : vec :=
  map snd (filter (fun c => fst c = key) contributions).

(** A key of the upper triangle over the indices of an index map. *)
Definition upper_triangle_key (main_indices : bimap) (key : list Z) : Prop :=
  exists i j, key = [i; j] /\ i ∈ map snd main_indices /\ j ∈ map snd main_indices
              /\ (i <= j)%Z.

(** *** Further concrete inputs *)

(** One sublattice (A,B), four points [(y_A, y_B, energy)], and a hull whose
    only facet faces upwards. *)
Definition upper_points : list vec :=
  [ [0; 1; 5]; [1; 0; 3]; [0.5; 0.5; 4]; [0.2; 0.8; 7] ].

Definition upper_facets : list QhullFacet :=
  [ good_facet [0.1; 0.9] [vertex_at 0 [0; 5]; vertex_at 3 [0.2; 7]] 2 ].

Definition upper_hull : hull_engine := hull_of upper_points [1%nat] upper_facets.

(** A system of one phase without composition dependence: one point on the
    hull, and the facet the global hull builder returns for it. *)
Definition single_hull_map : list HullEntry :=
  [ hull_entry "GRAPHITE" [1] [("C"%string, 1)] (-2000) ].

Definition single_minimizer : GlobalMinimizer :=
  {| hull_map := single_hull_map;
     candidate_facets := [single_point_facet];
     critical_edge_length := 0.05;
     initial_subdivisions_per_axis := 20;
     refinement_subdivisions_per_axis := 2;
     max_search_depth := 5;
     discard_unstable := true |}.

(** The binary system above with the facets as the global hull builder
    stores them. *)
Definition binary_stored_minimizer : GlobalMinimizer :=
  {| hull_map := binary_hull_map;
     candidate_facets :=
       map new_facet_of
         (filter (fun facet => lower_hull_facet facet = true) binary_facets);
     critical_edge_length := 0.05;
     initial_subdivisions_per_axis := 20;
     refinement_subdivisions_per_axis := 2;
     max_search_depth := 5;
     discard_unstable := true |}.

Definition binary_other_conditions : evalconditions :=
  {| statevars := [("T"%char, 300)];
     elements := ["A"%string; "B"%string];
     phases := [("ALPHA"%string, ENTERED); ("BETA"%string, ENTERED)];
     xfrac := [("A"%string, 0.1)] |}.

(** Two ids of the hull map whose entries belong to the same phase. *)
Definition same_phase (hull : list HullEntry) (point1_id point2_id : nat) : Prop :=
  exists point1_entry point2_entry,
    hull !! point1_id = Some point1_entry /\ hull !! point2_id = Some point2_entry
    /\ phase_name point1_entry = phase_name point2_entry.

(** Two ids of the hull map that make a tie line: their entries belong to
    different phases, or to one phase and lie further apart than the
    critical edge length. *)
Definition tie_pair (hull : list HullEntry) (critical_edge_length : double)
    (point1_id point2_id : nat) : Prop :=
  exists point1_entry point2_entry,
    hull !! point1_id = Some point1_entry /\ hull !! point2_id = Some point2_entry
    /\ (phase_name point1_entry <> phase_name point2_entry
        \/ exists distance,
             internal_distance point1_entry point2_entry = Some distance
             /\ (critical_edge_length <? distance) = true).

(** Two ids of the hull map whose entries belong to the same phase and lie
    no further apart than the critical edge length: a pair the pair loop of
    [find_tie_points] does not accept. *)
Definition close_pair (hull : list HullEntry) (critical_edge_length : double)
    (point1_id point2_id : nat) : Prop :=
  exists point1_entry point2_entry distance,
    hull !! point1_id = Some point1_entry /\ hull !! point2_id = Some point2_entry
    /\ phase_name point1_entry = phase_name point2_entry
    /\ internal_distance point1_entry point2_entry = Some distance
    /\ (critical_edge_length <? distance) = false.

(** Three points of one phase within 0.025 of each other, the vertex with
    the lowest id not first. *)
Definition near_facet : SimplicialFacet :=
  {| vertices := [1%nat; 0%nat; 2%nat];
     normal := [0.1; 0.2; -0.9];
     area := 0.0002;
     basis_matrix := [ [0.52; 0.50; 0.51]; [0.29; 0.30; 0.31]; [1; 1; 1] ] |}.

(** A facet over the hull map of the binary system A-B: two points of
    ALPHA 0.85 apart (a miscibility gap) and a point of BETA. *)
Definition mixed_facet : SimplicialFacet :=
  {| vertices := [2%nat; 0%nat; 1%nat];
     normal := [0; 0; -1];
     area := 1;
     basis_matrix := [ [0; 1; 0.4]; [1; 0; 0.6]; [1; 1; 1] ] |}.

(** A target fits a facet when [prod (facet.basis_matrix, trial_point)] is
    defined: every row of the matrix has one entry per component of the
    trial point (the mole fractions of the conditions, then [1]). *)
Definition fits_target (conditions : evalconditions) (facet : SimplicialFacet) : Prop :=
  Forall (fun row => length row = length (trial_point conditions)) (basis_matrix facet).

(** Every vertex of the facet is an index into the hull map, so that the
    reads [hull_map[point_id]] of [find_tie_points] stay inside it. *)
Definition vertices_in_hull_map (gm : GlobalMinimizer) (facet : SimplicialFacet) : Prop :=
  Forall (fun point_id => (point_id < length (hull_map gm))%nat) (vertices facet).

(** ** libstdc++'s [std::sort]

    [std::sort] is no part of the program's sources; the program is built
    with GNU libstdc++, whose [std::sort] (bits/stl_algo.h and
    bits/stl_heap.h of GCC 12) is an introsort: quicksort on the median of
    three down to ranges of sixteen elements, heapsort when the recursion
    gets deeper than twice the logarithm of the length, and an insertion
    sort at the end. A range is the list of its elements, an iterator an
    index into it. The unguarded loops rely on the comparison being a strict
    weak ordering to stay inside the range; where they would leave it the
    program has no defined behaviour, and the loops stop here. *)

Section LibstdcxxSort.
Context {A : Type} (comp : A -> A -> bool).

(** [__comp (a, b)] for two iterators into the range, given as indices. *)
Definition comp_at (range : list A) (a b : nat) : bool :=
  match range !! a, range !! b with
  | Some x, Some y => comp x y
  | _, _ => false
  end.

(** [__comp (val, it)] and [__comp (it, val)] for a value and an iterator. *)
Definition comp_val_at (range : list A) (val : A) (b : nat) : bool :=
  match range !! b with
  | Some y => comp val y
  | None => false
  end.

Definition comp_at_val (range : list A) (a : nat) (val : A) : bool :=
  match range !! a with
  | Some x => comp x val
  | None => false
  end.

(** The element at [b] is moved to [a]. *)
Definition move_assign (a b : nat) (range : list A) : list A :=
  match range !! b with
  | Some y => <[a := y]> range
  | None => range
  end.

Definition iter_swap (a b : nat) (range : list A) : list A :=
  match range !! a, range !! b with
  | Some x, Some y => <[b := x]> (<[a := y]> range)
  | _, _ => range
  end.

(** [__move_median_to_first]. *)
Definition move_median_to_first (result a b c : nat) (range : list A) : list A :=
  if comp_at range a b then
    if comp_at range b c then iter_swap result b range
    else if comp_at range a c then iter_swap result c range
    else iter_swap result a range
  else if comp_at range a c then iter_swap result a range
  else if comp_at range b c then iter_swap result c range
  else iter_swap result b range.

(** [while (__comp (__first, __pivot)) ++__first;] *)
Fixpoint advance_first (turns : nat) (range : list A) (first pivot : nat) : nat :=
  match turns with
  | O => first
  | S turns' =>
      if comp_at range first pivot then advance_first turns' range (S first) pivot
      else first
  end.

(** [while (__comp (__pivot, __last)) --__last;] *)
Fixpoint retreat_last (range : list A) (pivot last : nat) : nat :=
  match last with
  | O => O
  | S last' => if comp_at range pivot last then retreat_last range pivot last' else last
  end.

(** [__unguarded_partition]: one turn of [while (true)] per unit of [turns]. *)
Fixpoint unguarded_partition_loop (turns first last pivot : nat) (range : list A)
  : nat * list A :=
  match turns with
  | O => (first, range)
  | S turns' =>
      let first1 := advance_first (S (length range)) range first pivot in
      let last1 := retreat_last range pivot (last - 1) in
      if negb (first1 <? last1)%nat then (first1, range)
      else unguarded_partition_loop turns' (S first1) last1 pivot
             (iter_swap first1 last1 range)
  end.

Definition unguarded_partition (first last pivot : nat) (range : list A) : nat * list A :=
  unguarded_partition_loop (S (length range)) first last pivot range.

(** [__unguarded_partition_pivot]. *)
Definition unguarded_partition_pivot (first last : nat) (range : list A) : nat * list A :=
  let mid := (first + (last - first) / 2)%nat in
  unguarded_partition (first + 1) last first
    (move_median_to_first first (first + 1) mid (last - 1) range).

(** [__push_heap]: the hole moves up from [holeIndex] while the parent is
    less than [value]. *)
Fixpoint push_heap_loop (turns first holeIndex topIndex : nat) (value : A)
    (range : list A) : list A :=
  match turns with
  | O => <[(first + holeIndex)%nat := value]> range
  | S turns' =>
      let parent := ((holeIndex - 1) / 2)%nat in
      if (topIndex <? holeIndex)%nat && comp_at_val range (first + parent) value
      then push_heap_loop turns' first parent topIndex value
             (move_assign (first + holeIndex) (first + parent) range)
      else <[(first + holeIndex)%nat := value]> range
  end.

Definition push_heap (first holeIndex topIndex : nat) (value : A) (range : list A)
  : list A :=
  push_heap_loop (S holeIndex) first holeIndex topIndex value range.

(** The first loop of [__adjust_heap]: the hole moves down to the larger
    child ([holeIndex] and [secondChild] are equal at the loop test). *)
Fixpoint adjust_heap_loop (turns first secondChild len : nat) (range : list A)
  : nat * list A :=
  match turns with
  | O => (secondChild, range)
  | S turns' =>
      if (secondChild <? (len - 1) / 2)%nat then
        let secondChild1 := (2 * (secondChild + 1))%nat in
        let secondChild2 :=
          if comp_at range (first + secondChild1) (first + (secondChild1 - 1))
          then (secondChild1 - 1)%nat else secondChild1 in
        adjust_heap_loop turns' first secondChild2 len
          (move_assign (first + secondChild) (first + secondChild2) range)
      else (secondChild, range)
  end.

(** [__adjust_heap]. [len] is at least 1 in every call. *)
Definition adjust_heap (first holeIndex len : nat) (value : A) (range : list A)
  : list A :=
  let '(secondChild, range1) := adjust_heap_loop len first holeIndex len range in
  if Nat.even len && (2 <=? len)%nat && (secondChild =? (len - 2) / 2)%nat then
    let secondChild1 := (2 * (secondChild + 1))%nat in
    push_heap first (secondChild1 - 1) holeIndex value
      (move_assign (first + secondChild) (first + (secondChild1 - 1)) range1)
  else push_heap first secondChild holeIndex value range1.

(** [__pop_heap (first, last, result)]. *)
Definition pop_heap (first last result : nat) (range : list A) : list A :=
  match range !! result with
  | Some value => adjust_heap first 0 (last - first) value (move_assign result first range)
  | None => range
  end.

(** [__make_heap]: [parent] counts down from [(len - 2) / 2] to [0]. *)
Fixpoint make_heap_loop (parent first len : nat) (range : list A) : list A :=
  let range1 :=
    match range !! (first + parent)%nat with
    | Some value => adjust_heap first parent len value range
    | None => range
    end in
  match parent with
  | O => range1
  | S parent' => make_heap_loop parent' first len range1
  end.

Definition make_heap (first last : nat) (range : list A) : list A :=
  if (last - first <? 2)%nat then range
  else make_heap_loop ((last - first - 2) / 2) first (last - first) range.

(** [__sort_heap]: [count] is [last - first]. *)
Fixpoint sort_heap_loop (count first : nat) (range : list A) : list A :=
  match count with
  | S (S _ as count') =>
      sort_heap_loop count' first (pop_heap first (first + count') (first + count') range)
  | _ => range
  end.

Definition sort_heap (first last : nat) (range : list A) : list A :=
  sort_heap_loop (last - first) first range.

(** [__heap_select]. *)
Definition heap_select (first middle last : nat) (range : list A) : list A :=
  fold_left (fun range i =>
               if comp_at range i first then pop_heap first middle i range else range)
    (seq middle (last - middle)) (make_heap first middle range).

(** [__partial_sort]. *)
Definition partial_sort (first middle last : nat) (range : list A) : list A :=
  sort_heap first middle (heap_select first middle last range).

(** [__introsort_loop]: every turn of the loop lowers [depth_limit] by one,
    for the recursive call and for the next turn. *)
Fixpoint introsort_loop (depth_limit first last : nat) (range : list A) : list A :=
  if (16 <? last - first)%nat then
    match depth_limit with
    | O => partial_sort first last last range
    | S depth_limit' =>
        let '(cut, range1) := unguarded_partition_pivot first last range in
        introsort_loop depth_limit' first cut
          (introsort_loop depth_limit' cut last range1)
    end
  else range.

(** [__unguarded_linear_insert]: the value moves left past the elements it
    is less than. *)
Fixpoint unguarded_linear_insert_loop (val : A) (last : nat) (range : list A) : list A :=
  match last with
  | O => <[0%nat := val]> range
  | S next =>
      if comp_val_at range val next
      then unguarded_linear_insert_loop val next (move_assign last next range)
      else <[last := val]> range
  end.

Definition unguarded_linear_insert (last : nat) (range : list A) : list A :=
  match range !! last with
  | Some val => unguarded_linear_insert_loop val last range
  | None => range
  end.

(** [__val = *__i; move_backward (__first, __i, __i + 1); *__first = __val]. *)
Definition move_to_first (first i : nat) (range : list A) : list A :=
  match range !! i with
  | Some val =>
      take first range ++ val :: take (i - first) (drop first range) ++ drop (S i) range
  | None => range
  end.

(** [__insertion_sort]. *)
Definition libstdcxx_insertion_sort (first last : nat) (range : list A) : list A :=
  if (first =? last)%nat then range
  else
    fold_left (fun range i =>
                 if comp_at range i first then move_to_first first i range
                 else unguarded_linear_insert i range)
      (seq (first + 1) (last - (first + 1))) range.

(** [__unguarded_insertion_sort]. *)
Definition unguarded_insertion_sort (first last : nat) (range : list A) : list A :=
  fold_left (fun range i => unguarded_linear_insert i range)
    (seq first (last - first)) range.

(** [__final_insertion_sort]. *)
Definition final_insertion_sort (first last : nat) (range : list A) : list A :=
  if (16 <? last - first)%nat then
    unguarded_insertion_sort (first + 16) last
      (libstdcxx_insertion_sort first (first + 16) range)
  else libstdcxx_insertion_sort first last range.

End LibstdcxxSort.

(** [std::sort (first, last, comp)] on the whole of a [std::vector]. *)
Definition libstdcxx_sort : sort_routine :=
  fun A comp range =>
    let last := length range in
    if (last =? 0)%nat then range
    else final_insertion_sort comp 0 last
           (introsort_loop comp (Nat.log2 last * 2) 0 last range).

(** A binary system A-B with twenty-one hull points, x_A from 0 to 1 in steps
    of 0.05, of the phases ALPHA and BETA in turn, and the twenty facets
    between neighbours, all of the same area. Every facet has a 2 x 2 matrix
    of vertex coordinates, as [global_lower_convex_hull] stores it, and so
    passes the enclosure test for every target. *)
Definition ladder_fractions : list (double * double) :=
  [ (0, 1); (0.05, 0.95); (0.1, 0.9); (0.15, 0.85); (0.2, 0.8); (0.25,
    0.75); (0.3, 0.7); (0.35, 0.65); (0.4, 0.6); (0.45, 0.55); (0.5, 0.5);
    (0.55, 0.45); (0.6, 0.4); (0.65, 0.35); (0.7, 0.3); (0.75, 0.25); (0.8,
    0.2); (0.85, 0.15); (0.9, 0.1); (0.95, 0.05); (1, 0) ].

Definition ladder_entry (id : nat) (x : double * double) : HullEntry :=
  hull_entry (if Nat.even id then "ALPHA" else "BETA") [fst x; snd x]
    [("A"%string, fst x); ("B"%string, snd x)] (-1000).

Definition ladder_hull_map : list HullEntry := imap ladder_entry ladder_fractions.

Definition ladder_facet (id : nat) : SimplicialFacet :=
  {| vertices := [id; S id];
     normal := [0; -1];
     area := 0.05;
     basis_matrix := [ [fst (nth id ladder_fractions (0, 0));
                        fst (nth (S id) ladder_fractions (0, 0))];
                       [1; 1] ] |}.

Definition ladder_minimizer : GlobalMinimizer :=
  {| hull_map := ladder_hull_map;
     candidate_facets := map ladder_facet (seq 0 20);
     critical_edge_length := 0.05;
     initial_subdivisions_per_axis := 20;
     refinement_subdivisions_per_axis := 2;
     max_search_depth := 5;
     discard_unstable := true |}.

Definition ladder_conditions : evalconditions :=
  {| statevars := [("T"%char, 300)];
     elements := ["A"%string; "B"%string];
     phases := [("ALPHA"%string, ENTERED); ("BETA"%string, ENTERED)];
     xfrac := [("A"%string, 0.5)] |}.
(** * Properties *)

(** ** The sorting routines meet the promise of [std::sort] *)

Lemma linear_insert_elem {A} (cmp : A -> A -> bool) val l x :
  x ∈ linear_insert cmp val l <-> x = val \/ x ∈ l.
Proof.
  induction l as [|y l IH]; simpl.
  - rewrite list_elem_of_singleton, elem_of_nil. tauto.
  - destruct (cmp val y); rewrite !elem_of_cons, ?IH; tauto.
Qed.

Lemma linear_insert_perm {A} (cmp : A -> A -> bool) val l :
  linear_insert cmp val l ≡ₚ val :: l.
Proof.
  induction l as [|y l IH]; simpl; [done|].
  destruct (cmp val y); [done|]. rewrite IH. apply Permutation_swap.
Qed.

Lemma fold_insert_perm {A} (ins : A -> list A -> list A) :
  (forall val l, ins val l ≡ₚ val :: l) ->
  forall l acc, fold_left (fun acc val => ins val acc) l acc ≡ₚ l ++ acc.
Proof.
  intros Hins l. induction l as [|y l IH]; intros acc; simpl; [done|].
  rewrite IH, Hins. by rewrite Permutation_middle.
Qed.

Section OrderFacts.
Context {A : Type} (cmp : A -> A -> bool) (dom : A -> Prop).
Hypothesis cmp_irreflexive : forall a, dom a -> cmp a a = false.
Hypothesis cmp_transitive :
  forall a b c, dom a -> dom b -> dom c ->
    cmp a b = true -> cmp b c = true -> cmp a c = true.

Lemma cmp_asymmetric a b : dom a -> dom b -> cmp a b = true -> cmp b a = false.
Proof.
  intros Ha Hb Hab. destruct (cmp b a) eqn:Hba; [|done].
  rewrite <- (cmp_irreflexive a Ha). symmetry. by apply (cmp_transitive a b a).
Qed.

Lemma linear_insert_sorted val l :
  dom val -> Forall dom l -> sorted_by cmp l -> sorted_by cmp (linear_insert cmp val l).
Proof.
  unfold sorted_by. intros Hval Hdom Hs. induction Hs as [|y l Hs IH Hy]; simpl.
  - repeat constructor.
  - apply Forall_cons in Hdom as [Hdy Hdl].
    destruct (cmp val y) eqn:Hvy.
    + constructor; [by constructor|]. constructor; [by apply cmp_asymmetric|].
      rewrite Forall_forall in Hy, Hdl |- *. intros z Hz.
      destruct (cmp z val) eqn:Hzv; [|done].
      rewrite <- (Hy z Hz). symmetry. apply (cmp_transitive z val y); auto.
    + constructor; [by apply IH|].
      rewrite Forall_forall in Hy |- *. intros z Hz.
      apply linear_insert_elem in Hz as [->|Hz]; auto.
Qed.

Lemma fold_insert_sorted (ins : A -> list A -> list A) :
  (forall val l, dom val -> Forall dom l -> sorted_by cmp l -> sorted_by cmp (ins val l)) ->
  (forall val l, ins val l ≡ₚ val :: l) ->
  forall l acc, Forall dom l -> Forall dom acc -> sorted_by cmp acc ->
    sorted_by cmp (fold_left (fun acc val => ins val acc) l acc).
Proof.
  intros Hsorted Hperm l. induction l as [|y l IH]; intros acc Hl Hacc Hs; simpl; [done|].
  apply Forall_cons in Hl as [Hy Hl]. apply IH; auto.
  rewrite Hperm. by constructor.
Qed.

End OrderFacts.

(** The three conditions of a strict weak ordering, read off the check. *)
Lemma strict_weak_ordering_on_spec {A} (cmp : A -> A -> bool) (l : list A) :
  strict_weak_ordering_on cmp l = true ->
  (forall a, a ∈ l -> cmp a a = false) /\
  (forall a b c, a ∈ l -> b ∈ l -> c ∈ l ->
     cmp a b = true -> cmp b c = true -> cmp a c = true) /\
  (forall a b c, a ∈ l -> b ∈ l -> c ∈ l ->
     cmp a b = false -> cmp b a = false -> cmp b c = false -> cmp c b = false ->
     cmp a c = false /\ cmp c a = false).
Proof.
  unfold strict_weak_ordering_on, irreflexive_on, transitive_on, equiv_transitive_on.
  rewrite !andb_true_iff, !forallb_forall. intros [[Hi Ht] He].
  split; [|split].
  - intros a Ha%list_elem_of_In. apply negb_true_iff. auto.
  - intros a b c Ha%list_elem_of_In Hb%list_elem_of_In Hc%list_elem_of_In Hab Hbc.
    specialize (Ht a Ha). rewrite forallb_forall in Ht. specialize (Ht b Hb).
    rewrite forallb_forall in Ht. specialize (Ht c Hc).
    rewrite Hab, Hbc in Ht. by destruct (cmp a c).
  - intros a b c Ha%list_elem_of_In Hb%list_elem_of_In Hc%list_elem_of_In Hab Hba Hbc Hcb.
    specialize (He a Ha). rewrite forallb_forall in He. specialize (He b Hb).
    rewrite forallb_forall in He. specialize (He c Hc).
    rewrite Hab, Hba, Hbc, Hcb in He. by destruct (cmp a c), (cmp c a).
Qed.

Lemma insertion_sort_contract : std_sort_contract insertion_sort.
Proof.
  intros A cmp l. unfold insertion_sort. split.
  - rewrite (fold_insert_perm (linear_insert cmp) (linear_insert_perm cmp)).
    by rewrite app_nil_r.
  - intros (Hi & Ht & _)%strict_weak_ordering_on_spec.
    apply (fold_insert_sorted cmp (fun a => a ∈ l) (linear_insert cmp)).
    + intros. by apply (linear_insert_sorted cmp (fun a => a ∈ l)).
    + apply linear_insert_perm.
    + by apply Forall_forall.
    + constructor.
    + constructor.
Qed.

(** ** Binding in the option monad *)

Lemma option_bind_Some_l {A B} (a : A) (k : A -> option B) : (Some a ≫= k) = k a.
Proof. reflexivity. Qed.

(** ** Dependent dimensions and the internal hull *)

Lemma copy_independent_spec n iter point_sum final_point iter' point_sum' final_point' :
  copy_independent n iter point_sum final_point = Some (iter', point_sum', final_point') ->
  (n <= length iter)%nat /\ iter' = drop n iter /\
  point_sum' = fold_left PrimFloat.add (take n iter) point_sum /\
  final_point' = final_point ++ take n iter.
Proof.
  revert iter point_sum final_point.
  induction n as [|n IH]; intros iter point_sum final_point; simpl.
  - intros [= <- <- <-]. rewrite take_0, drop_0, app_nil_r. repeat split. lia.
  - destruct iter as [|c iter]; [done|]. intros H. apply IH in H as (Hn & -> & -> & ->).
    simpl. rewrite <- app_assoc. repeat split. lia.
Qed.

Lemma copy_independent_defined n iter point_sum final_point :
  (n <= length iter)%nat -> is_Some (copy_independent n iter point_sum final_point).
Proof.
  revert iter point_sum final_point.
  induction n as [|n IH]; intros iter point_sum final_point Hn; simpl; [done|].
  destruct iter as [|c iter]; simpl in Hn; [lia|]. apply IH. lia.
Qed.

(** The dimensions of a [std::set] come in strictly ascending order. *)
Lemma restore_from_spec dims : forall offset iter final_point q,
  StronglySorted lt dims -> Forall (fun dim => (offset <= dim)%nat) dims ->
  length final_point = offset ->
  restore_from dims offset iter final_point = Some q ->
  (exists rest, q = final_point ++ rest) /\ dependent_restored_from dims offset q.
Proof.
  induction dims as [|dim dims IH]; intros offset iter final_point q Hs Hge Hlen; simpl.
  - intros [= <-]. split; [|done]. exists []. by rewrite app_nil_r.
  - apply StronglySorted_inv in Hs as [Hs Hlt]. apply Forall_cons in Hge as [Hge _].
    destruct (copy_independent (dim - offset) iter 0 final_point)
      as [[[iter' point_sum] final_point']|] eqn:Hcopy; [|done].
    simpl. intros Hq.
    apply copy_independent_spec in Hcopy as (Hn & -> & -> & ->).
    apply IH in Hq as [[rest ->] Hrest]; [| done | | ].
    + split; [exists (take (dim - offset) iter ++ [1 - accumulate (take (dim - offset) iter)] ++ rest);
              by rewrite <- !app_assoc |].
      split; [|done].
      assert (Hl : length (final_point ++ take (dim - offset) iter) = dim).
      { rewrite length_app, length_take. lia. }
      rewrite <- !app_assoc.
      rewrite (app_assoc final_point), (lookup_app_r (final_point ++ _)) by lia.
      rewrite Hl, Nat.sub_diag. simpl. rewrite <- app_assoc.
      rewrite drop_app_length' by lia.
      rewrite take_app_length' by (rewrite length_take; lia). done.
    + eapply Forall_impl; [exact Hlt|]. simpl. lia.
    + rewrite !length_app, length_take. simpl. lia.
Qed.

(** Whatever [restore_dependent_dimensions] returns has its dependent
    coordinates restored. *)
Lemma restore_dependent_dimensions_restored point dims q :
  StronglySorted lt dims ->
  restore_dependent_dimensions point dims = Some q -> dependent_restored dims q.
Proof.
  intros Hs Hq. eapply restore_from_spec in Hq as [_ Hq]; [done|done| |done].
  apply Forall_forall. intros. lia.
Qed.

(** It returns a point when the point has the coordinates it reads. *)
Lemma restore_from_defined dims : forall offset iter final_point,
  (independent_count dims offset <= length iter)%nat ->
  is_Some (restore_from dims offset iter final_point).
Proof.
  induction dims as [|dim dims IH]; intros offset iter final_point Hn; simpl; [done|].
  simpl in Hn.
  destruct (copy_independent_defined (dim - offset) iter 0 final_point) as [[[i s] f] Hc]; [lia|].
  rewrite Hc. simpl. apply copy_independent_spec in Hc as (_ & -> & _ & _).
  apply IH. rewrite length_drop. lia.
Qed.

Lemma restore_dependent_dimensions_defined point dims :
  (independent_count dims 0 <= length point)%nat ->
  is_Some (restore_dependent_dimensions point dims).
Proof. apply restore_from_defined. Qed.




(** C3 fails on the code: the points of the hull branch are restored
    twice, once when a vertex is pushed on the candidate points and once
    more on return, where the source means to restore them once. For the
    pyramid over (Fe,Ni)(C,Va) the hull vertex at y_Fe = 0.25, y_C = 0.5
    restores to [(0.25, 0.75, 0.5, 0.5)], but the point returned for it is
    [(0.25, 0.75, 0.75, 0.25)]: the restoring was run again on the restored
    point, the second sublattice is read from the fractions of the first,
    and no hull vertex restores to the returned point. *)
Lemma pyramid_points_restored_twice :
  internal_lower_convex_hull insertion_sort pyramid_hull pyramid_points
      [1%nat; 3%nat] 0.05 (fun _ => 0)
    = Some [ [0; 1; 1; 0]; [0; 1; 1; 0]; [0.25; 0.75; 0.75; 0.25];
             [1; 0; 0; 1]; [1; 0; 0; 1] ]
  /\ restore_dependent_dimensions [0.25; 0.5; -1] [1%nat; 3%nat]
     = Some [0.25; 0.75; 0.5; 0.5]
  /\ restore_dependent_dimensions [0.25; 0.75; 0.5; 0.5] [1%nat; 3%nat]
     = Some [0.25; 0.75; 0.75; 0.25]
  /\ Forall (fun facet =>
       Forall (fun vertex =>
         restore_dependent_dimensions (vertex_point vertex) [1%nat; 3%nat]
           <> Some [0.25; 0.75; 0.75; 0.25])
         (facet_vertices facet))
       pyramid_facets.
Proof.
  split; [vm_compute; reflexivity|].
  split; [vm_compute; reflexivity|].
  split; [vm_compute; reflexivity|].
  repeat constructor; vm_compute; intros [=].
Qed.

(** C2 fails on the code: for the diamond, no edge of any facet is longer
    than 0.01 in site-fraction space, far below the critical edge length
    0.05, yet every vertex of the two lower facets is returned, whatever the
    energy callback says. The facet loop pushes all vertices of a lower
    facet and [continue]s before the edge tests. *)
Lemma diamond_short_edges_become_candidates (calculate_objective : vec -> double) :
  forallb (fun facet =>
    forallb (fun vertex1 =>
      forallb (fun vertex2 => negb (0.05 <? edge_length vertex1 vertex2))
        (facet_vertices facet))
      (facet_vertices facet))
    diamond_facets = true
  /\ internal_lower_convex_hull insertion_sort diamond_hull diamond_points
       [1%nat] 0.05 calculate_objective
     = Some [ [0.50; 1 - 0.50]; [0.51; 1 - 0.51]; [0.52; 1 - 0.52] ].
Proof. split; vm_compute; reflexivity. Qed.

(** ** The global hull and the tie-point resolver *)

(** The index the scans answer lies in the range they scan. *)
Lemma inner_scan_index hull cel point1_id rest : forall j k,
  inner_scan hull cel point1_id rest j = Some (Some k) ->
  (j <= k < j + length rest)%nat.
Proof.
  induction rest as [|point2_id rest IH]; intros j k; simpl; [done|].
  destruct (hull !! point1_id) as [e1|]; [|done]. simpl.
  destruct (hull !! point2_id) as [e2|]; [|done]. simpl.
  destruct (negb (String.eqb (phase_name e1) (phase_name e2))).
  { intros H%IH. lia. }
  destruct (internal_distance e1 e2) as [d|]; [|done]. simpl.
  destruct (d <=? cel).
  - intros [= <-]. lia.
  - intros H%IH. lia.
Qed.

Lemma outer_scan_index hull cel after_point1 : forall point1_id after_point2 j i k n,
  (j + length after_point2 = n)%nat -> (S i + length after_point1 = n)%nat ->
  outer_scan hull cel point1_id after_point2 j after_point1 i = Some (Some k) ->
  (k < n)%nat.
Proof.
  induction after_point1 as [|p after IH]; intros point1_id after_point2 j i k n Hj Hi; simpl.
  - destruct (inner_scan hull cel point1_id after_point2 j) as [[k'|]|] eqn:Hin; [|done|done].
    simpl. intros [= <-]. apply inner_scan_index in Hin. lia.
  - destruct (inner_scan hull cel point1_id after_point2 j) as [[k'|]|] eqn:Hin; [| |done].
    + simpl. intros [= <-]. apply inner_scan_index in Hin. lia.
    + simpl. apply IH; simpl in Hi; lia.
Qed.

(** The merge step needs no more turns than there are candidate ids: any
    larger bound gives the same answer, so the model never stops short. *)
Lemma merge_from_bound hull cel n : forall m candidate_ids point1_id after_point2 j after_point1 i,
  (j + length after_point2 = length candidate_ids)%nat ->
  (S i + length after_point1 = length candidate_ids)%nat ->
  (length candidate_ids <= n)%nat -> (length candidate_ids <= m)%nat ->
  merge_from hull cel n candidate_ids point1_id after_point2 j after_point1 i
  = merge_from hull cel m candidate_ids point1_id after_point2 j after_point1 i.
Proof.
  induction n as [|n IH]; intros m ids p1 a2 j a1 i Hj Hi Hn Hm.
  - destruct ids; simpl in *; lia.
  - destruct m as [|m]; [destruct ids; simpl in *; lia|]. simpl.
    destruct (outer_scan hull cel p1 a2 j a1 i) as [[k|]|] eqn:Hscan; [|done|done].
    simpl. eapply outer_scan_index in Hscan; [|exact Hj|exact Hi].
    assert (Hlen : length (delete k ids) = (length ids - 1)%nat).
    { apply length_delete. by apply lookup_lt_is_Some. }
    destruct (delete k ids) as [|first [|second rest]] eqn:Hdel; [done|done|].
    apply IH; simpl in *; lia.
Qed.

(** The first element of a sorted range is not greater than any other. *)
Lemma sorted_head_least {A} (cmp : A -> A -> bool) (x : A) (l : list A) :
  cmp x x = false -> sorted_by cmp (x :: l) -> forall y, y ∈ x :: l -> cmp y x = false.
Proof.
  intros Hirr Hs y. apply StronglySorted_inv in Hs as [_ Hall].
  rewrite Forall_forall in Hall. intros [->|Hy]%elem_of_cons; auto.
Qed.

(** C7 fails on the code: the facets are sorted with [std::sort], which is
    no stable sort. For a binary system with twenty enclosing facets of one
    area, libstdc++'s [std::sort] (its quicksort step first swaps the first
    and the middle element of a range of more than sixteen) puts the
    eleventh facet first, and the resolver returns the tie points of that
    facet, at x_A = 0.5 and 0.55, where insertion order (the source's
    "we just choose the first one") gives the first facet, with the tie
    points at x_A = 0 and 0.05. Up to sixteen facets the first one is
    chosen, as for the two facets of equal area that meet at x_A = 0.5. *)
Lemma equal_area_choice_not_the_first :
  length (candidate_facets ladder_minimizer) = 20%nat
  /\ Forall (fun facet =>
       area facet = 0.05
       /\ fits_target ladder_conditions facet
       /\ vertices_in_hull_map ladder_minimizer facet
       /\ encloses ladder_conditions facet = true)
       (candidate_facets ladder_minimizer)
  /\ stable_choice ladder_minimizer ladder_conditions = Some (ladder_facet 0)
  /\ tie_points_of_facet ladder_hull_map 0.05 (ladder_facet 0)
     = Some [ hull_entry "ALPHA" [0; 1] [("A"%string, 0); ("B"%string, 1)] (-1000);
              hull_entry "BETA" [0.05; 0.95] [("A"%string, 0.05); ("B"%string, 0.95)]
                (-1000) ]
  /\ map vertices (libstdcxx_sort _ facet_area_comparator
                     (pre_candidate_facets ladder_minimizer ladder_conditions))
     = map (fun id => [id; S id])
         [10; 19; 18; 17; 16; 15; 14; 13; 12; 11; 0; 9; 8; 7; 6; 5; 4; 3; 2; 1]%nat
  /\ head (libstdcxx_sort _ facet_area_comparator
             (pre_candidate_facets ladder_minimizer ladder_conditions))
     = Some (ladder_facet 10)
  /\ find_tie_points libstdcxx_sort ladder_minimizer ladder_conditions
     = Some [ hull_entry "ALPHA" [0.5; 0.5] [("A"%string, 0.5); ("B"%string, 0.5)] (-1000);
              hull_entry "BETA" [0.55; 0.45] [("A"%string, 0.55); ("B"%string, 0.45)]
                (-1000) ]
  /\ stable_choice tie_minimizer tie_conditions = Some tie_first_facet
  /\ find_tie_points libstdcxx_sort tie_minimizer tie_conditions
     = tie_points_of_facet tie_hull_map 0.05 tie_first_facet.
Proof.
  split; [reflexivity|].
  split.
  { unfold fits_target, vertices_in_hull_map.
    repeat (constructor; [repeat split; try (vm_compute; reflexivity);
                          repeat constructor|]).
    constructor. }
  repeat split; vm_compute; reflexivity.
Qed.

(** X26: [find_tie_points] returns an empty list when no candidate facet
    passes the enclosure test for the target; otherwise, for any sort that
    keeps the promise of [std::sort] (the areas of the enclosing facets
    being ordered by [<]), it extracts the tie points from an enclosing
    facet than which no enclosing facet has a smaller area. The target fits
    the candidate facets (every row of every stored matrix has one entry
    per component of the trial point), and their vertices are entries of
    the hull map. *)
Theorem find_tie_points_smallest_enclosing
    (std_sort : sort_routine) (gm : GlobalMinimizer) (conditions : evalconditions) :
  std_sort_contract std_sort ->
  Forall (fun facet => fits_target conditions facet) (candidate_facets gm) ->
  Forall (fun facet => vertices_in_hull_map gm facet) (candidate_facets gm) ->
  (Forall (fun facet => encloses conditions facet = false) (candidate_facets gm) ->
     find_tie_points std_sort gm conditions = Some [])
  /\ (Exists (fun facet => encloses conditions facet = true) (candidate_facets gm) ->
      strict_weak_ordering_on facet_area_comparator
        (pre_candidate_facets gm conditions) = true ->
      exists final_facet,
        final_facet ∈ candidate_facets gm
        /\ encloses conditions final_facet = true
        /\ (forall facet, facet ∈ candidate_facets gm ->
              encloses conditions facet = true ->
              (area facet <? area final_facet) = false)
        /\ find_tie_points std_sort gm conditions
           = tie_points_of_facet (hull_map gm) 0.05 final_facet).
Proof.
  intros Hsort _ _. unfold find_tie_points.
  destruct (Hsort _ facet_area_comparator (pre_candidate_facets gm conditions))
    as [Hperm Hsorted].
  split.
  - intros Hnone.
    assert (Hpre : pre_candidate_facets gm conditions = []).
    { unfold pre_candidate_facets. induction Hnone as [|facet l Hf _ IH]; [done|].
      rewrite filter_cons_False; [done|]. by rewrite Hf. }
    rewrite Hpre in Hperm |- *. apply Permutation_nil_r in Hperm. by rewrite Hperm.
  - intros Hsome Hswo. specialize (Hsorted Hswo).
    destruct (std_sort SimplicialFacet facet_area_comparator
                (pre_candidate_facets gm conditions)) as [|final_facet others] eqn:Hs.
    + exfalso. symmetry in Hperm. apply Permutation_nil_r in Hperm.
      apply Exists_exists in Hsome as (facet & Hin & Henc).
      assert (Hf : facet ∈ pre_candidate_facets gm conditions).
      { apply list_elem_of_filter. by split. }
      rewrite Hperm in Hf. by apply elem_of_nil in Hf.
    + assert (Hin : final_facet ∈ pre_candidate_facets gm conditions).
      { rewrite <- Hperm. left. }
      pose proof Hin as Hin'. apply list_elem_of_filter in Hin' as [Henc Hcand].
      exists final_facet. split; [done|]. split; [done|]. split; [|done].
      intros facet Hf Hfenc.
      apply (sorted_head_least facet_area_comparator final_facet others); [|done|].
      * by apply (strict_weak_ordering_on_spec _ _ Hswo).
      * rewrite Hperm. apply list_elem_of_filter. by split.
Qed.

Lemma find_tie_points_smallest_enclosing_witness :
  std_sort_contract insertion_sort
  /\ Forall (fun facet => fits_target tie_conditions facet) (candidate_facets tie_minimizer)
  /\ Forall (fun facet => vertices_in_hull_map tie_minimizer facet)
       (candidate_facets tie_minimizer)
  /\ Exists (fun facet => encloses tie_conditions facet = true)
       (candidate_facets tie_minimizer)
  /\ strict_weak_ordering_on facet_area_comparator
       (pre_candidate_facets tie_minimizer tie_conditions) = true
  /\ exists final_facet,
       final_facet ∈ candidate_facets tie_minimizer
       /\ encloses tie_conditions final_facet = true
       /\ (forall facet, facet ∈ candidate_facets tie_minimizer ->
             encloses tie_conditions facet = true ->
             (area facet <? area final_facet) = false)
       /\ find_tie_points insertion_sort tie_minimizer tie_conditions
          = tie_points_of_facet (hull_map tie_minimizer) 0.05 final_facet.
Proof.
  assert (Hex : Exists (fun facet => encloses tie_conditions facet = true)
                  (candidate_facets tie_minimizer)).
  { left. vm_compute. reflexivity. }
  assert (Hswo : strict_weak_ordering_on facet_area_comparator
                   (pre_candidate_facets tie_minimizer tie_conditions) = true).
  { vm_compute. reflexivity. }
  assert (Hfit : Forall (fun facet => fits_target tie_conditions facet)
                   (candidate_facets tie_minimizer)).
  { unfold fits_target. repeat constructor. }
  assert (Hids : Forall (fun facet => vertices_in_hull_map tie_minimizer facet)
                   (candidate_facets tie_minimizer)).
  { unfold vertices_in_hull_map. repeat constructor. }
  split; [exact insertion_sort_contract|]. split; [exact Hfit|]. split; [exact Hids|].
  split; [exact Hex|]. split; [exact Hswo|].
  exact (proj2 (find_tie_points_smallest_enclosing insertion_sort tie_minimizer
                  tie_conditions insertion_sort_contract Hfit Hids) Hex Hswo).
Defined.

(** C10: [find_tie_points] never reads the member [critical_edge_length]:
    two minimizers with the same hull map and the same candidate facets
    give the same tie points, and the distances of both the acceptance step
    and the merge step are compared with the constant 0.05. *)
Theorem find_tie_points_ignores_member
    (std_sort : sort_routine) (gm1 gm2 : GlobalMinimizer) (conditions : evalconditions) :
  hull_map gm1 = hull_map gm2 ->
  candidate_facets gm1 = candidate_facets gm2 ->
  find_tie_points std_sort gm1 conditions = find_tie_points std_sort gm2 conditions
  /\ find_tie_points std_sort gm1 conditions
     = match std_sort _ facet_area_comparator (pre_candidate_facets gm2 conditions) with
       | [] => Some []
       | final_facet :: _ =>
           candidate_ids ← for_each_pair (accept_pair (hull_map gm2) 0.05)
                             (vertices final_facet) [];
           merged ← merge_tie_points (hull_map gm2) 0.05 candidate_ids;
           ids ← (if (length merged =? 0)%nat then
                    first_vertex ← head (vertices final_facet);
                    Some (set_insert first_vertex merged)
                  else Some merged);
           mapM (fun point_id => hull_map gm2 !! point_id) ids
       end.
Proof.
  intros Hhull Hfacets.
  unfold find_tie_points, pre_candidate_facets, tie_points_of_facet.
  rewrite Hhull, Hfacets. split; reflexivity.
Qed.

Lemma find_tie_points_ignores_member_witness :
  hull_map gap_minimizer = hull_map (with_critical_edge_length gap_minimizer 0.2)
  /\ candidate_facets gap_minimizer
     = candidate_facets (with_critical_edge_length gap_minimizer 0.2)
  /\ critical_edge_length gap_minimizer = 0.05
  /\ critical_edge_length (with_critical_edge_length gap_minimizer 0.2) = 0.2
  /\ find_tie_points insertion_sort gap_minimizer tie_conditions
     = find_tie_points insertion_sort (with_critical_edge_length gap_minimizer 0.2)
         tie_conditions.
Proof.
  split; [reflexivity|]. split; [reflexivity|].
  split; [reflexivity|]. split; [reflexivity|].
  exact (proj1 (find_tie_points_ignores_member insertion_sort gap_minimizer
                  (with_critical_edge_length gap_minimizer 0.2) tie_conditions
                  eq_refl eq_refl)).
Defined.

(** The two ALPHA points of the gap are 0.14 apart: a tie line for the
    constant 0.05, none for a member set to 0.2; both are returned. *)
Lemma gap_points_returned_for_any_member :
  find_tie_points insertion_sort (with_critical_edge_length gap_minimizer 0.2)
      tie_conditions
    = Some gap_hull_map
  /\ (exists d, internal_distance (hull_entry "ALPHA" [0.45; 0.55] [] 0)
                                  (hull_entry "ALPHA" [0.55; 0.45] [] 0) = Some d
                /\ (0.05 <? d) = true /\ (d <=? 0.2) = true).
Proof.
  split; [vm_compute; reflexivity|].
  eexists. split; [vm_compute; reflexivity|]. split; vm_compute; reflexivity.
Qed.

(** C1 fails on the code: the matrix stored with a facet is the matrix of
    its vertices, not the inverse ([InvertMatrix] is commented out). For
    the binary system the facet from x_A = 0.4 to x_A = 0 passes the
    resolver's test for the target x_A = 0.7 and is chosen for its smaller
    area; the product of its stored matrix with the target is
    [(0.28, 1.7)], whose components sum to 1.98, and both tie points have
    less A than the target. *)
Lemma binary_stored_matrix_not_inverse :
  global_lower_convex_hull binary_hull binary_points 0.05 (fun _ _ => 0)
    = Some (candidate_facets binary_minimizer)
  /\ std_sort_contract insertion_sort
  /\ insertion_sort _ facet_area_comparator
       (pre_candidate_facets binary_minimizer binary_conditions)
     = [binary_lower_facet; binary_upper_facet]
  /\ find_tie_points insertion_sort binary_minimizer binary_conditions
     = Some [ hull_entry "ALPHA" [0.4; 0.6] [("A"%string, 0.4); ("B"%string, 0.6)] (-1000);
              hull_entry "BETA" [0; 1] [("A"%string, 0); ("B"%string, 1)] 0 ]
  /\ prod (basis_matrix binary_lower_facet) (trial_point binary_conditions)
     = [0 + 0.4 * 0.7 + 0 * 1; 0 + 1 * 0.7 + 1 * 1]
  /\ (abs (accumulate (prod (basis_matrix binary_lower_facet)
                            (trial_point binary_conditions)) - 1) <=? 1e-10) = false
  /\ (1.9 <? accumulate (prod (basis_matrix binary_lower_facet)
                              (trial_point binary_conditions))) = true.
Proof.
  split; [vm_compute; reflexivity|].
  split; [exact insertion_sort_contract|].
  repeat split; vm_compute; reflexivity.
Qed.

(** C5 fails on the code: after an erasure the scan is reset to the pair of
    the first and second id, but the loop test moves on to the third before
    the body runs, so that pair is never compared. For the quaternary facet
    the ids 0, 1, 2 are ALPHA points within 0.025 of each other: 1 is erased
    for being close to 0, and 0 and 2 are both returned. *)
Lemma quaternary_near_duplicates_returned :
  find_tie_points insertion_sort quaternary_minimizer quaternary_conditions
    = Some [ hull_entry "ALPHA" [0.50; 0.30; 0.20]
               [("A"%string, 0.50); ("B"%string, 0.30); ("C"%string, 0.20); ("D"%string, 0)]
               (-900);
             hull_entry "ALPHA" [0.51; 0.31; 0.18]
               [("A"%string, 0.51); ("B"%string, 0.31); ("C"%string, 0.18); ("D"%string, 0)]
               (-902);
             hull_entry "BETA" [0; 1]
               [("A"%string, 0); ("B"%string, 0); ("C"%string, 0); ("D"%string, 1)]
               (-500) ]
  /\ (exists d, internal_distance (hull_entry "ALPHA" [0.50; 0.30; 0.20] [] 0)
                                  (hull_entry "ALPHA" [0.51; 0.31; 0.18] [] 0) = Some d
                /\ (d <=? 0.05) = true)
  /\ for_each_pair (accept_pair quaternary_hull_map 0.05) (vertices quaternary_facet) []
     = Some [0%nat; 1%nat; 2%nat; 3%nat]
  /\ merge_tie_points quaternary_hull_map 0.05 [0%nat; 1%nat; 2%nat; 3%nat]
     = Some [0%nat; 2%nat; 3%nat].
Proof.
  split; [vm_compute; reflexivity|].
  split; [eexists; split; vm_compute; reflexivity|].
  split; vm_compute; reflexivity.
Qed.

(** ** The composition set *)

Section Gradient.
Variable process_utree :
  utree -> evalconditions -> bimap -> ASTSymbolMap -> vec -> option double.
Variables (cs : CompositionSet) (conditions : evalconditions).
Variables (main_indices : bimap) (x : vec).

Lemma bimap_at_elem (indices : bimap) name index :
  bimap_at indices name = Some index -> index ∈ map snd indices.
Proof.
  induction indices as [|[key i] indices IH]; simpl; [done|].
  destruct (String.eqb key name).
  - intros [= ->]. left.
  - intros H. right. by apply IH.
Qed.

(** One turn of the loop adds the weighted contribution of its tree. *)
Lemma accumulate_derivative_weighted (retmap : gmap Z float) (entry : ast_entry) :
  accumulate_derivative process_utree cs conditions main_indices x retmap entry
  = kc ← weighted_derivative process_utree cs conditions main_indices x entry;
    Some (<[fst kc := default 0 (retmap !! fst kc) + snd kc]> retmap).
Proof.
  unfold accumulate_derivative, weighted_derivative.
  destruct (process_utree _ _ _ _ _) as [diffvalue|]; [|done]. simpl.
  destruct (head (diffvars entry)) as [diffvar|]; [|done]. simpl.
  destruct (bimap_at main_indices diffvar) as [varindex|]; [|done]. simpl.
  destruct (String.eqb diffvar _); simpl; [done|].
  destruct (bimap_at main_indices _) as [frac_index|]; [|done]. simpl.
  by destruct (array_at x frac_index).
Qed.

Lemma weighted_derivative_index (entry : ast_entry) k c :
  weighted_derivative process_utree cs conditions main_indices x entry = Some (k, c) ->
  k ∈ map snd main_indices.
Proof.
  unfold weighted_derivative.
  destruct (process_utree _ _ _ _ _) as [diffvalue|]; [|done]. simpl.
  destruct (head (diffvars entry)) as [diffvar|]; [|done]. simpl.
  destruct (bimap_at main_indices diffvar) as [varindex|] eqn:Hat; [|done]. simpl.
  apply bimap_at_elem in Hat.
  destruct (String.eqb diffvar _); simpl; [by intros [= <- _]|].
  destruct (bimap_at main_indices _) as [frac_index|]; [|done]. simpl.
  destruct (array_at x frac_index); [|done]. simpl. by intros [= <- _].
Qed.

Lemma foldl_derivatives_None (entries : list ast_entry) :
  foldl (fun acc entry =>
           m ← acc;
           accumulate_derivative process_utree cs conditions main_indices x m entry)
        None entries = None.
Proof. induction entries as [|e entries IH]; simpl; done. Qed.

Lemma foldl_derivatives (entries : list ast_entry) : forall retmap,
  foldl (fun acc entry =>
           m ← acc;
           accumulate_derivative process_utree cs conditions main_indices x m entry)
        (Some retmap) entries
  = contributions ← mapM (weighted_derivative process_utree cs conditions main_indices x)
                        entries;
    Some (add_contributions retmap contributions).
Proof.
  induction entries as [|e entries IH]; intros retmap; simpl; [done|].
  rewrite accumulate_derivative_weighted.
  destruct (weighted_derivative _ _ _ _ _ e) as [kc|]; simpl.
  - rewrite IH.
    by destruct (mapM (weighted_derivative process_utree cs conditions main_indices x)
                   entries).
  - apply foldl_derivatives_None.
Qed.

Lemma contributions_to_cons k k' c contributions :
  contributions_to k ((k', c) :: contributions)
  = if decide (k' = k) then c :: contributions_to k contributions
    else contributions_to k contributions.
Proof.
  unfold contributions_to. simpl.
  destruct (decide (k' = k)) as [->|Hne].
  - by rewrite filter_cons_True.
  - by rewrite filter_cons_False.
Qed.

Lemma add_contributions_lookup (contributions : list (Z * double)) : forall retmap k,
  add_contributions retmap contributions !! k
  = match contributions_to k contributions with
    | [] => retmap !! k
    | cs' => Some (fold_left PrimFloat.add cs' (default 0 (retmap !! k)))
    end.
Proof.
  induction contributions as [|[k' c] contributions IH]; intros retmap k; [done|].
  unfold add_contributions in *. simpl foldl. rewrite IH, contributions_to_cons. simpl.
  destruct (decide (k' = k)) as [->|Hne].
  - rewrite lookup_insert_eq. simpl. by destruct (contributions_to k contributions).
  - by rewrite lookup_insert_ne.
Qed.

Lemma zero_gradient_lookup (indices : bimap) : forall (retmap : gmap Z float) k,
  foldl (fun m i => <[snd i := 0]> m) retmap indices !! k
  = if decide (k ∈ map snd indices) then Some 0 else retmap !! k.
Proof.
  induction indices as [|[name i] indices IH]; intros retmap k.
  - rewrite decide_False; [done|]. apply not_elem_of_nil.
  - change (foldl (fun m i => <[snd i := 0]> m) (<[i := 0]> retmap) indices !! k
            = if decide (k ∈ i :: map snd indices) then Some 0 else retmap !! k).
    rewrite IH. destruct (decide (k ∈ map snd indices)) as [Hin|Hnin].
    + rewrite decide_True; [done|]. by right.
    + destruct (decide (i = k)) as [->|Hne].
      * rewrite lookup_insert_eq, decide_True; [done|]. left.
      * rewrite lookup_insert_ne, decide_False; [done| |done].
        intros [->|Hin]%elem_of_cons; done.
Qed.

Lemma gradient_of_contributions_lookup (contributions : list (Z * double)) k :
  gradient_of_contributions main_indices contributions !! k
  = if decide (k ∈ map snd main_indices)
    then Some (accumulate (contributions_to k contributions)) else None.
Proof.
  unfold gradient_of_contributions.
  induction (map snd main_indices) as [|i indices IH].
  - rewrite decide_False; [done|]. apply not_elem_of_nil.
  - change (<[i := accumulate (contributions_to i contributions)]>
              (list_to_map (map (fun k => (k, accumulate (contributions_to k contributions)))
                                indices) : gmap Z float) !! k
            = if decide (k ∈ i :: indices)
              then Some (accumulate (contributions_to k contributions)) else None).
    destruct (decide (i = k)) as [->|Hne].
    + rewrite lookup_insert_eq, decide_True; [done|]. left.
    + rewrite lookup_insert_ne, IH by done.
      destruct (decide (k ∈ indices)) as [Hin|Hnin].
      * rewrite decide_True; [done|]. by right.
      * rewrite decide_False; [done|]. intros [->|Hin]%elem_of_cons; done.
Qed.

(** C8: the gradient is, index by index, the sum of the contributions of
    the first-derivative trees, where the value of a tree is multiplied by
    [x[_FRAC]] before it is added, except the value of the derivative with
    respect to [_FRAC] itself, which is added as it is; and the gradient
    is returned exactly when every contribution can be evaluated. *)
Theorem gradient_weighted_by_phase_fraction :
  evaluate_objective_gradient process_utree cs conditions main_indices x
  = contributions ← mapM (weighted_derivative process_utree cs conditions main_indices x)
                        (derivative_trees 1 cs);
    Some (gradient_of_contributions main_indices contributions).
Proof.
  unfold evaluate_objective_gradient. rewrite foldl_derivatives.
  destruct (mapM _ (derivative_trees 1 cs)) as [contributions|] eqn:Hm; [|done].
  simpl. f_equal. apply map_eq. intros k.
  rewrite add_contributions_lookup, zero_gradient_lookup, gradient_of_contributions_lookup.
  rewrite lookup_empty.
  destruct (decide (k ∈ map snd main_indices)) as [Hin|Hnin]; simpl.
  - by destruct (contributions_to k contributions).
  - assert (Hnone : contributions_to k contributions = []); [|by rewrite Hnone].
    apply mapM_Some in Hm. clear -Hm Hnin.
    induction Hm as [|e [k' c] entries contributions He _ IH]; [done|].
    rewrite contributions_to_cons, IH.
    apply weighted_derivative_index in He.
    case_decide as Hk; [|done]. by subst.
Qed.

End Gradient.

(** At y_A = 0.25, y_B = 0.75 and a phase fraction of 0.5 the derivatives
    with respect to y_A and y_B are halved and the derivative with respect
    to the phase fraction, the energy 0.1875, is not. *)
Lemma product_gradient_example :
  evaluate_objective_gradient (process_utree_model arithmetic_only) product_set
      binary_conditions product_indices [0.25; 0.75; 0.5]
    = Some (<[0%Z := 0.375]> (<[1%Z := 0.125]> (<[2%Z := 0.1875]> ∅))).
Proof. vm_compute. reflexivity. Qed.

(** C4 fails on the code: [x_copy[i]] is not set back to [x[i]] after the
    turn for coordinate [i], so the difference for a later coordinate is
    taken with the earlier coordinates raised by the perturbation. For
    the energy y_A * y_B at [(0.5, 0.5)] the central difference for y_B
    is y_A = 0.5 (up to rounding); the program's second component is the
    difference at y_A = 0.5000001, larger by 1e-7. *)
Lemma product_internal_gradient_off :
  evaluate_internal_objective_gradient (process_utree_model arithmetic_only)
      product_set binary_conditions [0.5; 0.5]
    = Some [ ((0.5 + perturbation) * 0.5 - (0.5 - perturbation) * 0.5)
               / (2 * perturbation);
             ((0.5 + perturbation) * (0.5 + perturbation)
                - (0.5 + perturbation) * (0.5 - perturbation))
               / (2 * perturbation) ]
  /\ central_difference (process_utree_model arithmetic_only)
       product_set binary_conditions [0.5; 0.5] 1
     = Some ((0.5 * (0.5 + perturbation) - 0.5 * (0.5 - perturbation))
               / (2 * perturbation))
  /\ (0.5 * (0.5 + perturbation) - 0.5 * (0.5 - perturbation)) / (2 * perturbation)
     = 0.49999999987559995
  /\ ((0.5 + perturbation) * (0.5 + perturbation)
        - (0.5 + perturbation) * (0.5 - perturbation)) / (2 * perturbation)
     = 0.50000009979567217.
Proof. repeat split; vm_compute; reflexivity. Qed.

(** What [evaluate_internal_objective_gradient] computes in general. *)
Section InternalGradient.
Variable process_utree :
  utree -> evalconditions -> bimap -> ASTSymbolMap -> vec -> option double.
Variables (cs : CompositionSet) (conditions : evalconditions) (x : vec).

Lemma raised_before_length i (y : vec) : length (raised_before i y) = length y.
Proof.
  unfold raised_before. rewrite length_app, length_map, length_take, length_drop. lia.
Qed.

Lemma raised_before_lookup i (y : vec) : raised_before i y !! i = y !! i.
Proof.
  unfold raised_before. destruct (decide (i <= length y)%nat) as [Hle|Hgt].
  - rewrite lookup_app_r; rewrite length_map, length_take; [|lia].
    rewrite lookup_drop. f_equal. lia.
  - rewrite take_ge, drop_ge by lia. rewrite app_nil_r.
    rewrite !lookup_ge_None_2; [done|lia|rewrite length_map; lia].
Qed.

Lemma raised_before_S i (y : vec) yi :
  y !! i = Some yi ->
  <[i := yi + perturbation]> (raised_before i y) = raised_before (S i) y.
Proof.
  intros Hi. unfold raised_before.
  pose proof (lookup_lt_Some _ _ _ Hi) as Hlt.
  rewrite (take_S_r _ _ _ Hi), (drop_S _ _ _ Hi), map_app. simpl.
  rewrite <- app_assoc. simpl.
  rewrite insert_app_r_alt; rewrite length_map, length_take; [|lia].
  replace (i - i `min` length y)%nat with 0%nat by lia. done.
Qed.

Lemma internal_gradient_loop_spec count : forall i x_copy gradient g,
  internal_gradient_loop process_utree cs conditions count i x x_copy gradient = Some g ->
  (i + count = length gradient)%nat ->
  x_copy = raised_before i (take (length gradient) x) ->
  (length gradient <= length x)%nat ->
  length g = length gradient
  /\ (forall k, (k < i)%nat -> g !! k = gradient !! k)
  /\ (forall k, (i <= k < length gradient)%nat ->
        g !! k = central_difference process_utree cs conditions
                   (raised_before k (take (length gradient) x)) k).
Proof.
  induction count as [|count IH]; intros i x_copy gradient g.
  - intros [= <-] Hi _ _. split; [done|]. split; [done|]. intros k Hk. lia.
  - cbn [internal_gradient_loop].
    destruct (x !! i) as [xi|] eqn:Hxi; [|done]. rewrite option_bind_Some_l.
    destruct (evaluate_objective process_utree cs conditions (phase_indices cs)
                (<[i:=xi - perturbation]> x_copy)) as [lower_obj|] eqn:Hlower; [|done].
    rewrite option_bind_Some_l, list_insert_insert_eq.
    destruct (evaluate_objective process_utree cs conditions (phase_indices cs)
                (<[i:=xi + perturbation]> x_copy)) as [upper_obj|] eqn:Hupper; [|done].
    rewrite option_bind_Some_l.
    intros Hg Hi -> Hlen.
    assert (Htake : take (length gradient) x !! i = Some xi).
    { rewrite lookup_take_lt by lia. done. }
    apply IH in Hg; rewrite ?length_insert; [| lia | | done].
    2:{ by apply raised_before_S. }
    destruct Hg as (Hlg & Hbefore & Hafter). rewrite length_insert in Hlg, Hafter.
    split; [done|]. split.
    + intros k Hk. rewrite Hbefore by lia. by rewrite list_lookup_insert_ne by lia.
    + intros k Hk. destruct (decide (k = i)) as [->|Hne].
      * rewrite Hbefore by lia. rewrite list_lookup_insert_eq by lia.
        unfold central_difference. rewrite raised_before_lookup, Htake.
        rewrite option_bind_Some_l, Hlower, option_bind_Some_l, Hupper. done.
      * apply Hafter. lia.
Qed.

(** Component [k] of the result is the central difference for coordinate
    [k] taken at [x] with the coordinates before [k] raised by the
    perturbation; for the first coordinate that is the central difference
    at [x] itself. *)
Lemma evaluate_internal_objective_gradient_spec g :
  evaluate_internal_objective_gradient process_utree cs conditions x = Some g ->
  length g = length (phase_indices cs)
  /\ forall k, (k < length (phase_indices cs))%nat ->
       g !! k = central_difference process_utree cs conditions
                  (raised_before k (take (length (phase_indices cs)) x)) k.
Proof.
  unfold evaluate_internal_objective_gradient.
  destruct (length x <? length (phase_indices cs))%nat eqn:Hlen; [done|].
  apply Nat.ltb_ge in Hlen. intros Hg.
  apply internal_gradient_loop_spec in Hg; rewrite ?length_replicate; [|lia| |lia].
  2:{ unfold raised_before. by rewrite take_0, drop_0. }
  rewrite length_replicate in Hg. destruct Hg as (Hlg & _ & Hafter).
  split; [done|]. intros k Hk. apply Hafter. lia.
Qed.

End InternalGradient.

(** ** The clone with a renamed phase *)

Section Rename.
Variables (m : libm) (old new : string).
Variable used : string -> Prop.
Hypothesis rename_injective :
  forall a b, used a -> used b -> rename_phase old new a = rename_phase old new b -> a = b.

Lemma rename_eqb a b :
  used a -> used b ->
  String.eqb (rename_phase old new a) (rename_phase old new b) = String.eqb a b.
Proof.
  intros Ha Hb. destruct (String.eqb_spec a b) as [->|Hne].
  - apply String.eqb_refl.
  - apply String.eqb_neq. intros Heq. by apply Hne, rename_injective.
Qed.

Lemma bimap_at_rename (indices : bimap) name :
  Forall used (map fst indices) -> used name ->
  bimap_at (rename_indices old new indices) (rename_phase old new name)
  = bimap_at indices name.
Proof.
  intros Hkeys Hname. induction indices as [|[key index] indices IH]; simpl; [done|].
  apply Forall_cons in Hkeys as [Hkey Hkeys].
  rewrite rename_eqb by done. destruct (String.eqb key name); [done|]. by apply IH.
Qed.

Lemma symbol_at_rename (table : ASTSymbolMap) name :
  Forall used (map fst table) -> used name ->
  symbol_at (rename_symbols old new table) (rename_phase old new name)
  = ast_variable_rename old new <$> symbol_at table name.
Proof.
  intros Hkeys Hname. induction table as [|[key tree] table IH]; simpl; [done|].
  apply Forall_cons in Hkeys as [Hkey Hkeys].
  rewrite rename_eqb by done. destruct (String.eqb key name); [done|]. by apply IH.
Qed.

Lemma symbol_at_elem (table : ASTSymbolMap) name tree :
  symbol_at table name = Some tree -> exists key, (key, tree) ∈ table.
Proof.
  induction table as [|[key t] table IH]; simpl; [done|].
  destruct (String.eqb key name).
  - intros [= ->]. exists key. left.
  - intros [k Hk]%IH. exists k. by right.
Qed.

Variables (conditions : evalconditions) (main_indices : bimap).
Variables (table : ASTSymbolMap) (x : vec).
Hypothesis indices_used : Forall used (map fst main_indices).
Hypothesis symbols_used : Forall used (map fst table).
Hypothesis symbol_trees_used :
  forall symbol, symbol ∈ table -> Forall used (names_of_tree (snd symbol)).

Lemma process_utree_depth_unfold (idx : bimap) (tbl : ASTSymbolMap) depth tree :
  process_utree_depth m conditions idx tbl x depth tree
  = match tree with
    | Constant value => Some value
    | VariableRef name => index ← bimap_at idx name; array_at x index
    | StateVariable code => statevar_at (statevars conditions) code
    | SymbolRef name =>
        match depth with
        | O => None
        | S depth' =>
            symbol ← symbol_at tbl name;
            process_utree_depth m conditions idx tbl x depth' symbol
        end
    | Binary op lhs rhs =>
        a ← process_utree_depth m conditions idx tbl x depth lhs;
        b ← process_utree_depth m conditions idx tbl x depth rhs;
        apply_binary m op a b
    | Unary op child =>
        a ← process_utree_depth m conditions idx tbl x depth child;
        apply_unary m op a
    | Piecewise code low high inside otherwise =>
        value ← statevar_at (statevars conditions) code;
        if (low <=? value) && (value <? high)
        then process_utree_depth m conditions idx tbl x depth inside
        else process_utree_depth m conditions idx tbl x depth otherwise
    end.
Proof. destruct depth, tree; reflexivity. Qed.

(** Evaluating a renamed tree under the renamed bindings gives the value
    of the tree under the bindings. *)
Lemma process_utree_depth_rename depth : forall tree,
  Forall used (names_of_tree tree) ->
  process_utree_depth m conditions (rename_indices old new main_indices)
    (rename_symbols old new table) x depth (ast_variable_rename old new tree)
  = process_utree_depth m conditions main_indices table x depth tree.
Proof.
  induction depth as [|depth IHdepth]; intros tree;
    induction tree as [value|name|code|name|op lhs IHl rhs IHr|op child IHc
                       |code low high inside IHi otherwise IHo];
    intros Hused; cbn [ast_variable_rename names_of_tree] in Hused |- *;
    rewrite (process_utree_depth_unfold (rename_indices old new main_indices)),
            (process_utree_depth_unfold main_indices);
    try done.
  - rewrite Forall_singleton in Hused.
    rewrite bimap_at_rename; [done|exact indices_used|exact Hused].
  - apply Forall_app in Hused as [Hl Hr]. by rewrite IHl, IHr.
  - by rewrite IHc.
  - apply Forall_app in Hused as [Hi Ho]. by rewrite IHi, IHo.
  - rewrite Forall_singleton in Hused.
    rewrite bimap_at_rename; [done|exact indices_used|exact Hused].
  - rewrite Forall_singleton in Hused. rewrite symbol_at_rename by done.
    destruct (symbol_at table name) as [symbol|] eqn:Hsym; [|done]. simpl.
    apply symbol_at_elem in Hsym as [key Hin]. apply IHdepth.
    exact (symbol_trees_used _ Hin).
  - apply Forall_app in Hused as [Hl Hr]. by rewrite IHl, IHr.
  - by rewrite IHc.
  - apply Forall_app in Hused as [Hi Ho]. by rewrite IHi, IHo.
Qed.

Lemma process_utree_model_rename tree :
  Forall used (names_of_tree tree) ->
  process_utree_model m (ast_variable_rename old new tree) conditions
    (rename_indices old new main_indices) (rename_symbols old new table) x
  = process_utree_model m tree conditions main_indices table x.
Proof.
  intros Hused. unfold process_utree_model, rename_symbols.
  rewrite length_map. by apply process_utree_depth_rename.
Qed.

End Rename.

Lemma strip_prefix_spec old : forall name rest,
  strip_prefix old name = Some rest <-> name = (old ++ rest)%string.
Proof.
  induction old as [|a old IH]; intros name rest; simpl.
  - split; [by intros [= ->] | by intros ->].
  - destruct name as [|b name]; [done|].
    destruct (Ascii.eqb_spec a b) as [->|Hne].
    + rewrite IH. split; [by intros -> | by intros [= ->] ].
    + split; [done|]. intros [= -> _]. done.
Qed.

Lemma strip_prefix_append old rest : strip_prefix old (old ++ rest) = Some rest.
Proof. by apply strip_prefix_spec. Qed.

Lemma append_inj_r (prefix a b : string) : (prefix ++ a = prefix ++ b)%string -> a = b.
Proof. induction prefix as [|c prefix IH]; simpl; [done|]. intros [= H]. by apply IH. Qed.

(** The name of the phase fraction is renamed to the name of the clone's. *)
Lemma rename_phase_append old new rest :
  rename_phase old new (old ++ rest) = (new ++ rest)%string.
Proof. unfold rename_phase. by rewrite strip_prefix_append. Qed.

(** Under a fresh phase name, different names in use get different names. *)
Lemma fresh_rename_injective old new names :
  fresh_phase_name new names ->
  forall a b, a ∈ names -> b ∈ names ->
    rename_phase old new a = rename_phase old new b -> a = b.
Proof.
  unfold fresh_phase_name, begins_with, rename_phase. rewrite Forall_forall.
  intros Hfresh a b Ha Hb.
  pose proof (Hfresh a Ha) as Hfa. pose proof (Hfresh b Hb) as Hfb.
  destruct (strip_prefix old a) as [rest_a|] eqn:Hsa;
    destruct (strip_prefix old b) as [rest_b|] eqn:Hsb.
  - apply strip_prefix_spec in Hsa as ->. apply strip_prefix_spec in Hsb as ->.
    by intros ->%append_inj_r.
  - intros <-. by rewrite strip_prefix_append in Hfb.
  - intros ->. by rewrite strip_prefix_append in Hfa.
  - done.
Qed.

Lemma elem_of_concat_map {A B} (f : A -> list B) (l : list A) (y : A) (b : B) :
  y ∈ l -> b ∈ f y -> b ∈ concat (map f l).
Proof.
  intros Hy Hb. induction Hy as [y l|y z l Hy IH]; simpl; apply elem_of_app; auto.
Qed.

Section NamesInUse.
Variables (cs : CompositionSet) (main_indices : bimap).

Lemma frac_in_use : (cset_name cs ++ "_FRAC")%string ∈ names_in_use cs main_indices.
Proof. left. Qed.

Lemma indices_in_use :
  Forall (fun name => name ∈ names_in_use cs main_indices) (map fst main_indices).
Proof.
  apply Forall_forall. intros name Hin. right. apply elem_of_app. by left.
Qed.

Lemma model_in_use model :
  model ∈ models cs ->
  Forall (fun name => name ∈ names_in_use cs main_indices) (names_of_tree (snd model)).
Proof.
  intros Hm. apply Forall_forall. intros name Hin.
  right. apply elem_of_app. right. apply elem_of_app. left.
  by apply (elem_of_concat_map _ _ model).
Qed.

Lemma symbol_in_use symbol :
  symbol ∈ symbols cs ->
  Forall (fun name => name ∈ names_in_use cs main_indices)
         (fst symbol :: names_of_tree (snd symbol)).
Proof.
  intros Hs. apply Forall_forall. intros name Hin.
  right. apply elem_of_app. right. apply elem_of_app. right. apply elem_of_app. left.
  by apply (elem_of_concat_map _ _ symbol).
Qed.

Lemma entry_in_use entry :
  entry ∈ tree_data cs ->
  Forall (fun name => name ∈ names_in_use cs main_indices)
         (diffvars entry ++ names_of_tree (ast entry)).
Proof.
  intros He. apply Forall_forall. intros name Hin.
  right. apply elem_of_app. right. apply elem_of_app. right. apply elem_of_app. right.
  by apply (elem_of_concat_map _ _ entry).
Qed.

End NamesInUse.

Lemma rename_indices_zero_gradient old new (indices : bimap) : forall retmap : gmap Z float,
  foldl (fun acc i => <[snd i := 0]> acc) retmap (rename_indices old new indices)
  = foldl (fun acc i => <[snd i := 0]> acc) retmap indices.
Proof.
  induction indices as [|i indices IH]; intros retmap; [done|].
  simpl. by rewrite IH.
Qed.

Section Clone.
Variables (m : libm) (cs : CompositionSet) (conditions : evalconditions).
Variables (main_indices : bimap) (x : vec).
Variables (new_starting_point : list (string * double)) (new_name : string).
Hypothesis fresh : fresh_phase_name new_name (names_in_use cs main_indices).

Let used (name : string) : Prop := name ∈ names_in_use cs main_indices.

Lemma clone_process_utree tree :
  Forall used (names_of_tree tree) ->
  process_utree_model m (ast_variable_rename (cset_name cs) new_name tree) conditions
    (rename_indices (cset_name cs) new_name main_indices)
    (rename_symbols (cset_name cs) new_name (symbols cs)) x
  = process_utree_model m tree conditions main_indices (symbols cs) x.
Proof.
  apply (process_utree_model_rename m (cset_name cs) new_name used).
  - by apply fresh_rename_injective.
  - apply indices_in_use.
  - apply Forall_forall. intros name [symbol [-> Hs]]%list_elem_of_fmap.
    by apply (symbol_in_use cs main_indices) in Hs as [? _]%Forall_cons.
  - intros symbol Hs.
    by apply (symbol_in_use cs main_indices) in Hs as [_ ?]%Forall_cons.
Qed.

Lemma clone_objective :
  evaluate_objective (process_utree_model m)
    (CompositionSet_clone cs new_starting_point new_name) conditions
    (rename_indices (cset_name cs) new_name main_indices) x
  = evaluate_objective (process_utree_model m) cs conditions main_indices x.
Proof.
  unfold evaluate_objective. simpl.
  pose proof (model_in_use cs main_indices) as Hmodels.
  generalize (Some 0). induction (models cs) as [|model models IH]; intros acc; [done|].
  simpl. rewrite IH by (intros; apply Hmodels; by right).
  rewrite clone_process_utree; [done|]. apply Hmodels. left.
Qed.

Lemma clone_derivative_trees :
  derivative_trees 1 (CompositionSet_clone cs new_starting_point new_name)
  = map (rename_entry (cset_name cs) new_name) (derivative_trees 1 cs).
Proof.
  unfold derivative_trees. simpl.
  induction (tree_data cs) as [|entry entries IH]; [done|]. simpl.
  destruct (decide (length (diffvars entry) = 1%nat)) as [Hone|Hne].
  - rewrite !filter_cons_True; [|done|by (simpl; rewrite length_map)].
    simpl. by rewrite IH.
  - rewrite !filter_cons_False; [done|done|by (simpl; rewrite length_map)].
Qed.

Lemma clone_accumulate_derivative (retmap : gmap Z float) entry :
  entry ∈ tree_data cs ->
  accumulate_derivative (process_utree_model m)
    (CompositionSet_clone cs new_starting_point new_name) conditions
    (rename_indices (cset_name cs) new_name main_indices) x retmap
    (rename_entry (cset_name cs) new_name entry)
  = accumulate_derivative (process_utree_model m) cs conditions main_indices x retmap entry.
Proof.
  intros [Hvars Htree]%(entry_in_use cs main_indices)%Forall_app.
  pose proof (fresh_rename_injective (cset_name cs) _ _ fresh) as Hinj.
  unfold accumulate_derivative. simpl.
  rewrite clone_process_utree by done.
  destruct (process_utree_model m (ast entry) _ _ _ _) as [diffvalue|]; [|done]. simpl.
  destruct (diffvars entry) as [|diffvar others]; [done|]. simpl.
  apply Forall_cons in Hvars as [Hvar _].
  rewrite (bimap_at_rename _ _ used) by (done || apply indices_in_use).
  destruct (bimap_at main_indices diffvar) as [varindex|]; [|done]. simpl.
  rewrite <- (rename_phase_append (cset_name cs) new_name "_FRAC").
  rewrite (rename_eqb _ _ used) by (done || apply frac_in_use).
  destruct (String.eqb diffvar _); simpl; [done|].
  by rewrite (bimap_at_rename _ _ used) by (done || apply indices_in_use || apply frac_in_use).
Qed.

Lemma clone_gradient :
  evaluate_objective_gradient (process_utree_model m)
    (CompositionSet_clone cs new_starting_point new_name) conditions
    (rename_indices (cset_name cs) new_name main_indices) x
  = evaluate_objective_gradient (process_utree_model m) cs conditions main_indices x.
Proof.
  unfold evaluate_objective_gradient.
  rewrite clone_derivative_trees, rename_indices_zero_gradient.
  assert (Hsub : forall entry, entry ∈ derivative_trees 1 cs -> entry ∈ tree_data cs).
  { intros entry Hin. unfold derivative_trees in Hin.
    by apply list_elem_of_filter in Hin as [_ ?]. }
  generalize (Some (foldl (fun acc i => <[snd i := 0]> acc) (∅ : gmap Z float) main_indices)).
  induction (derivative_trees 1 cs) as [|entry entries IH]; intros acc; [done|].
  simpl. rewrite IH by (intros; apply Hsub; by right).
  destruct acc as [retmap|]; [|done]. simpl.
  rewrite clone_accumulate_derivative; [done|]. apply Hsub. left.
Qed.

End Clone.




(** * Further properties *)

(** ** The order and the signs of [double] *)

Lemma SFltb_irrefl a : SFltb a a = false.
Proof.
  unfold SFltb.
  destruct a as [s|s| |s m e]; simpl; try reflexivity; destruct s; try reflexivity;
    rewrite Z.compare_refl; change (PosDef.Pos.compare_cont Eq m m) with (Pos.compare m m);
    rewrite Pos.compare_refl; reflexivity.
Qed.

Lemma SFltb_trans a b c : SFltb a b = true -> SFltb b c = true -> SFltb a c = true.
Proof.
  unfold SFltb.
  destruct a as [sa|sa| |sa ma ea], b as [sb|sb| |sb mb eb], c as [sc|sc| |sc mc ec];
    simpl; try discriminate; try reflexivity;
    try destruct sa; try destruct sb; try destruct sc; simpl;
    try discriminate; try reflexivity;
    change PosDef.Pos.compare_cont with Pos.compare_cont;
    change (Pos.compare_cont Eq) with Pos.compare;
    intros Hab Hbc; compare_cases; simpl in *; try discriminate; try reflexivity;
    subst; try lia.
Qed.

(** Of three numbers, none of them a NaN: [a < b] and [!(c < b)] give
    [a < c]. *)
Lemma SFltb_neg_trans a b c :
  SFeqb b b = true -> SFeqb c c = true ->
  SFltb a b = true -> SFltb c b = false -> SFltb a c = true.
Proof.
  unfold SFltb, SFeqb.
  destruct a as [sa|sa| |sa ma ea], b as [sb|sb| |sb mb eb], c as [sc|sc| |sc mc ec];
    simpl; try discriminate; try reflexivity;
    try destruct sa; try destruct sb; try destruct sc; simpl;
    try discriminate; try reflexivity;
    change PosDef.Pos.compare_cont with Pos.compare_cont;
    change (Pos.compare_cont Eq) with Pos.compare;
    intros _ _ Hab Hbc; compare_cases; simpl in *; try discriminate; try reflexivity;
    subst; try lia.
Qed.

Lemma ltb_irrefl (x : double) : (x <? x) = false.
Proof. rewrite ltb_spec. apply SFltb_irrefl. Qed.

Lemma ltb_trans (x y z : double) : (x <? y) = true -> (y <? z) = true -> (x <? z) = true.
Proof. rewrite !ltb_spec. apply SFltb_trans. Qed.

Lemma ltb_neg_trans (x y z : double) :
  is_nan y = false -> is_nan z = false ->
  (x <? y) = true -> (z <? y) = false -> (x <? z) = true.
Proof.
  unfold is_nan. rewrite !negb_false_iff, !FloatAxioms.eqb_spec, !ltb_spec.
  apply SFltb_neg_trans.
Qed.

Lemma ltb_zero_SF (x : double) : (x <? 0) = negb (SF_not_negative (Prim2SF x)).
Proof.
  rewrite ltb_spec. change (Prim2SF 0) with (S754_zero false).
  by destruct (Prim2SF x) as [s|s| |s m e]; try destruct s.
Qed.

Lemma binary_round_aux_not_negative prec emax m e l :
  SF_not_negative (binary_round_aux prec emax false m e l) = true.
Proof.
  unfold binary_round_aux.
  destruct (shr_fexp prec emax m e l) as [mrs' e'].
  destruct (shr_fexp prec emax _ e' loc_Exact) as [mrs'' e''].
  destruct (shr_m mrs''); [done| |done]. by destruct (_ <=? _)%Z.
Qed.

Lemma SFmul_not_negative prec emax x y :
  SF_not_negative x = true -> SF_not_negative y = true ->
  SF_not_negative (SFmul prec emax x y) = true.
Proof.
  destruct x as [sx|sx| |sx mx ex], y as [sy|sy| |sy my ey]; simpl;
    try destruct sx; try destruct sy; simpl; try done.
  intros _ _. apply binary_round_aux_not_negative.
Qed.

Lemma SFadd_not_negative prec emax x y :
  SF_not_negative x = true -> SF_not_negative y = true ->
  SF_not_negative (SFadd prec emax x y) = true.
Proof.
  destruct x as [sx|sx| |sx mx ex], y as [sy|sy| |sy my ey]; simpl;
    try destruct sx; try destruct sy; simpl; try done.
  intros _ _. unfold binary_normalize, binary_round.
  destruct (shl_align _ _ _) as [mz ez]. apply binary_round_aux_not_negative.
Qed.

Lemma mul_not_negative (x y : double) :
  not_negative x = true -> not_negative y = true -> not_negative (x * y) = true.
Proof.
  unfold not_negative. rewrite !ltb_zero_SF, mul_spec, !negb_involutive.
  apply SFmul_not_negative.
Qed.

Lemma add_not_negative (x y : double) :
  not_negative x = true -> not_negative y = true -> not_negative (x + y) = true.
Proof.
  unfold not_negative. rewrite !ltb_zero_SF, add_spec, !negb_involutive.
  apply SFadd_not_negative.
Qed.

(** Of three numbers, none of them a NaN: when neither of [a] and [b] is
    less than the other, and neither of [b] and [c], then neither of [a]
    and [c] is. *)
Lemma SFltb_equiv_trans a b c :
  SFeqb a a = true -> SFeqb b b = true -> SFeqb c c = true ->
  SFltb a b = false -> SFltb b a = false -> SFltb b c = false -> SFltb c b = false ->
  SFltb a c = false /\ SFltb c a = false.
Proof.
  unfold SFltb, SFeqb.
  destruct a as [sa|sa| |sa ma ea], b as [sb|sb| |sb mb eb], c as [sc|sc| |sc mc ec];
    simpl; try discriminate; try (by split);
    try destruct sa; try destruct sb; try destruct sc; simpl;
    try discriminate; try (by split);
    change PosDef.Pos.compare_cont with Pos.compare_cont;
    change (Pos.compare_cont Eq) with Pos.compare;
    intros _ _ _ Hab Hba Hbc Hcb; compare_cases; simpl in *; try discriminate;
    try (by split); subst; try lia.
Qed.

Lemma ltb_equiv_trans (x y z : double) :
  is_nan x = false -> is_nan y = false -> is_nan z = false ->
  (x <? y) = false -> (y <? x) = false -> (y <? z) = false -> (z <? y) = false ->
  (x <? z) = false /\ (z <? x) = false.
Proof.
  unfold is_nan. rewrite !negb_false_iff, !FloatAxioms.eqb_spec, !ltb_spec.
  apply SFltb_equiv_trans.
Qed.

(** A number greater than another is not less than or equal to it. *)
Lemma SFltb_not_leb a b : SFltb a b = true -> SFleb b a = false.
Proof.
  unfold SFltb, SFleb.
  destruct a as [sa|sa| |sa ma ea], b as [sb|sb| |sb mb eb];
    simpl; try discriminate; try reflexivity;
    try destruct sa; try destruct sb; simpl; try discriminate; try reflexivity;
    change PosDef.Pos.compare_cont with Pos.compare_cont;
    change (Pos.compare_cont Eq) with Pos.compare;
    intros Hab; compare_cases; simpl in *; try discriminate; try reflexivity;
    subst; try lia.
Qed.

Lemma ltb_not_leb (x y : double) : (x <? y) = true -> (y <=? x) = false.
Proof. rewrite ltb_spec, leb_spec. apply SFltb_not_leb. Qed.

(** Of three numbers, none of them a NaN: [!(b < a)] and [b < c] give
    [a < c]. *)
Lemma SFltb_neg_trans_l a b c :
  SFeqb a a = true -> SFeqb b b = true ->
  SFltb b a = false -> SFltb b c = true -> SFltb a c = true.
Proof.
  unfold SFltb, SFeqb.
  destruct a as [sa|sa| |sa ma ea], b as [sb|sb| |sb mb eb], c as [sc|sc| |sc mc ec];
    simpl; try discriminate; try reflexivity;
    try destruct sa; try destruct sb; try destruct sc; simpl;
    try discriminate; try reflexivity;
    change PosDef.Pos.compare_cont with Pos.compare_cont;
    change (Pos.compare_cont Eq) with Pos.compare;
    intros _ _ Hba Hbc; compare_cases; simpl in *; try discriminate; try reflexivity;
    subst; try lia.
Qed.

Lemma ltb_neg_trans_l (x y z : double) :
  is_nan x = false -> is_nan y = false ->
  (y <? x) = false -> (y <? z) = true -> (x <? z) = true.
Proof.
  unfold is_nan. rewrite !negb_false_iff, !FloatAxioms.eqb_spec, !ltb_spec.
  apply SFltb_neg_trans_l.
Qed.



(** ** [restore_dependent_dimensions] *)

Lemma copy_independent_eq n iter point_sum final_point :
  (n <= length iter)%nat ->
  copy_independent n iter point_sum final_point
  = Some (drop n iter, fold_left PrimFloat.add (take n iter) point_sum,
          final_point ++ take n iter).
Proof.
  intros Hn.
  destruct (copy_independent_defined n iter point_sum final_point Hn) as [[[i s] f] Hc].
  rewrite Hc. by apply copy_independent_spec in Hc as (_ & -> & -> & ->).
Qed.

Lemma restore_from_shape dims : forall offset iter final_point q,
  restore_from dims offset iter final_point = Some q ->
  length q = (length final_point + independent_count dims offset + length dims)%nat
  /\ (independent_count dims offset <= length iter)%nat
  /\ restore_from dims offset (take (independent_count dims offset) iter) final_point
     = Some q.
Proof.
  induction dims as [|dim dims IH]; intros offset iter final_point q; simpl.
  - intros [= <-]. split; [lia|]. split; [lia|done].
  - destruct (copy_independent (dim - offset) iter 0 final_point)
      as [[[iter' point_sum] final_point']|] eqn:Hcopy; [|done].
    rewrite option_bind_Some_l. intros Hq.
    apply copy_independent_spec in Hcopy as (Hn & -> & -> & ->).
    apply IH in Hq as (Hlen & Hcount & Hq).
    rewrite length_drop in Hcount.
    split; [rewrite Hlen, !length_app, length_take; simpl; lia|].
    split; [lia|].
    rewrite copy_independent_eq by (rewrite length_take; lia).
    rewrite option_bind_Some_l.
    rewrite take_take, Nat.min_l by lia.
    rewrite <- Hq. f_equal.
    rewrite skipn_firstn_comm. f_equal. lia.
Qed.

(** X1: [restore_dependent_dimensions] returns a point exactly when the
    point has the coordinates the loops read: for every dependent dimension,
    the coordinates between the previous dependent dimension and itself.
    With fewer coordinates the program reads past the end of the point. *)
Theorem restore_defined_iff_enough_coordinates (point : vec) (dims : list nat) :
  is_Some (restore_dependent_dimensions point dims)
  <-> (independent_count dims 0 <= length point)%nat.
Proof.
  split.
  - intros [q Hq]. by apply restore_from_shape in Hq as (_ & Hn & _).
  - apply restore_from_defined.
Qed.

(** X2: a point [restore_dependent_dimensions] returns has one coordinate
    for every coordinate read and one for every dependent dimension, and it
    is the point returned for the coordinates read alone: what follows them
    in the input, such as the energy, is neither read nor copied. *)
Theorem restore_drops_trailing_coordinates (point : vec) (dims : list nat) (q : vec) :
  restore_dependent_dimensions point dims = Some q ->
  length q = (independent_count dims 0 + length dims)%nat
  /\ restore_dependent_dimensions (take (independent_count dims 0) point) dims = Some q.
Proof.
  intros Hq. apply restore_from_shape in Hq as (Hlen & _ & Hq). by split.
Qed.

Lemma restore_drops_trailing_coordinates_witness :
  length [0.25; 0.75; 0.5; 0.5] = (independent_count [1%nat; 3%nat] 0 + 2)%nat
  /\ restore_dependent_dimensions [0.25; 0.5] [1%nat; 3%nat] = Some [0.25; 0.75; 0.5; 0.5].
Proof.
  exact (restore_drops_trailing_coordinates [0.25; 0.5; -1] [1%nat; 3%nat]
           [0.25; 0.75; 0.5; 0.5] eq_refl).
Defined.

Lemma restore_from_independent dims : forall offset iter final_point q,
  StronglySorted lt dims -> Forall (fun dim => (offset <= dim)%nat) dims ->
  length final_point = offset ->
  restore_from dims offset iter final_point = Some q ->
  independent_coordinates dims offset q = take (independent_count dims offset) iter.
Proof.
  induction dims as [|dim dims IH]; intros offset iter final_point q Hs Hge Hlen; simpl.
  - intros _. by rewrite take_0.
  - apply StronglySorted_inv in Hs as [Hs Hlt]. apply Forall_cons in Hge as [Hge _].
    destruct (copy_independent (dim - offset) iter 0 final_point)
      as [[[iter' point_sum] final_point']|] eqn:Hcopy; [|done].
    rewrite option_bind_Some_l. intros Hq.
    apply copy_independent_spec in Hcopy as (Hn & -> & -> & ->).
    assert (Hge' : Forall (fun d => (S dim <= d)%nat) dims).
    { eapply Forall_impl; [exact Hlt|]. simpl. lia. }
    assert (Hlen' : length ((final_point ++ take (dim - offset) iter)
                            ++ [1 - fold_left PrimFloat.add (take (dim - offset) iter) 0])
                    = S dim).
    { rewrite !length_app, length_take. simpl. lia. }
    pose proof (IH _ _ _ _ Hs Hge' Hlen' Hq) as Hind.
    apply restore_from_spec in Hq as [[rest ->] _]; [|done|done|done].
    rewrite Hind, <- take_take_drop. f_equal.
    rewrite <- !app_assoc, drop_app_length' by done.
    rewrite take_app_length' by (rewrite length_take; lia). done.
Qed.

(** X3: the coordinates read from the point are the coordinates of the
    returned point that are not dependent, in the same order. Together with
    the restored dependent coordinates this fixes every coordinate of the
    result. *)
Theorem restore_keeps_independent_coordinates (point : vec) (dims : list nat) (q : vec) :
  StronglySorted lt dims ->
  restore_dependent_dimensions point dims = Some q ->
  independent_coordinates dims 0 q = take (independent_count dims 0) point.
Proof.
  intros Hs Hq. apply (restore_from_independent dims 0 point [] q); [done| |done|done].
  apply Forall_forall. intros. lia.
Qed.

Lemma restore_keeps_independent_coordinates_witness :
  independent_coordinates [1%nat; 3%nat] 0 [0.25; 0.75; 0.5; 0.5] = [0.25; 0.5].
Proof.
  apply (restore_keeps_independent_coordinates [0.25; 0.5; -1] [1%nat; 3%nat]).
  - repeat constructor.
  - reflexivity.
Defined.

(** X4: with a single dependent dimension, restoring a restored point gives
    the same point again: a phase with one sublattice is not changed by the
    second restoration the hull builder applies. *)
Theorem restore_single_dimension_idempotent (point : vec) (dim : nat) (q : vec) :
  restore_dependent_dimensions point [dim] = Some q ->
  restore_dependent_dimensions q [dim] = Some q.
Proof.
  unfold restore_dependent_dimensions. simpl. rewrite Nat.sub_0_r.
  destruct (copy_independent dim point 0 []) as [[[iter' point_sum] final_point']|] eqn:Hcopy;
    [|done].
  rewrite option_bind_Some_l. intros [= <-].
  apply copy_independent_spec in Hcopy as (Hn & -> & -> & ->). simpl.
  rewrite copy_independent_eq by (rewrite length_app, length_take; simpl; lia).
  rewrite option_bind_Some_l.
  rewrite take_app_length' by (rewrite length_take; lia). done.
Qed.

Lemma restore_single_dimension_idempotent_witness :
  restore_dependent_dimensions [0.25; 0.75] [1%nat] = Some [0.25; 0.75].
Proof.
  exact (restore_single_dimension_idempotent [0.25; -1] 1 [0.25; 0.75] eq_refl).
Defined.

(** ** The dependent dimensions [run] computes *)

Lemma set_insert_snoc k s : Forall (fun y => (y < k)%nat) s -> set_insert k s = s ++ [k].
Proof.
  induction 1 as [|y s Hy _ IH]; simpl; [done|].
  destruct (Nat.ltb_spec k y); [lia|]. destruct (Nat.eqb_spec k y); [lia|]. by rewrite IH.
Qed.

Lemma dependent_dimensions_from_app counts : forall current dims,
  Forall (fun y => (y < current)%nat) dims ->
  dependent_dimensions_from counts current dims
  = dims ++ dependent_dimensions_from counts current [].
Proof.
  induction counts as [|n counts IH]; intros current dims Hdims; simpl.
  - by rewrite app_nil_r.
  - destruct (n =? 0)%nat; [by rewrite app_nil_r|].
    rewrite set_insert_snoc by (eapply Forall_impl; [exact Hdims|]; simpl; lia).
    rewrite IH, (IH _ [_]).
    + by rewrite <- app_assoc.
    + repeat constructor.
    + apply Forall_app. split; [|repeat constructor; lia].
      eapply Forall_impl; [exact Hdims|]. simpl. lia.
Qed.

Lemma dependent_dimensions_from_cons n counts current :
  (0 < n)%nat ->
  dependent_dimensions_from (n :: counts) current []
  = (current + (n - 1))%nat :: dependent_dimensions_from counts (current + n) [].
Proof.
  intros Hn. simpl. destruct (Nat.eqb_spec n 0); [lia|].
  rewrite dependent_dimensions_from_app by (repeat constructor).
  simpl. do 2 f_equal. lia.
Qed.

Lemma dependent_dimensions_from_spec counts : forall current,
  Forall (fun n => (0 < n)%nat) counts ->
  let dims := dependent_dimensions_from counts current [] in
  StronglySorted lt dims
  /\ Forall (fun dim => (current <= dim)%nat) dims
  /\ length dims = length counts
  /\ (independent_count dims current + length counts = sum_list counts)%nat.
Proof.
  induction counts as [|n counts IH]; intros current Hpos; cbv zeta.
  - simpl. repeat split; constructor.
  - apply Forall_cons in Hpos as [Hn Hpos].
    rewrite dependent_dimensions_from_cons by done.
    cbn [length independent_count].
    change (sum_list (n :: counts)) with (n + sum_list counts)%nat.
    destruct (IH (current + n)%nat Hpos) as (Hs & Hge & Hlen & Hcount).
    split; [|split; [|split]].
    + constructor; [done|]. eapply Forall_impl; [exact Hge|]. simpl. lia.
    + constructor; [lia|]. eapply Forall_impl; [exact Hge|]. simpl. lia.
    + by rewrite Hlen.
    + replace (S (current + (n - 1))) with (current + n)%nat by lia. lia.
Qed.

(** X5: for a phase whose sublattices have [n_0], [n_1], ... species (each
    at least one), [run] finds one dependent dimension for each sublattice,
    in strictly ascending order, and the coordinates
    [restore_dependent_dimensions] then reads are the [n_j - 1] independent
    site fractions of each sublattice. A point with at least that many
    coordinates is restored to a point with one coordinate for each species,
    in which every dependent coordinate is [1] minus the sum of the
    independent coordinates of its sublattice. *)
Theorem run_dimensions_fit_restore (species_counts : list nat) (point : vec) :
  Forall (fun n => (0 < n)%nat) species_counts ->
  (sum_list species_counts - length species_counts <= length point)%nat ->
  let dims := run_dependent_dimensions species_counts in
  StronglySorted lt dims
  /\ length dims = length species_counts
  /\ exists q, restore_dependent_dimensions point dims = Some q
       /\ length q = sum_list species_counts
       /\ dependent_restored dims q
       /\ independent_coordinates dims 0 q
          = take (sum_list species_counts - length species_counts) point.
Proof.
  intros Hpos Hlen dims.
  destruct (dependent_dimensions_from_spec species_counts 0 Hpos) as (Hs & _ & Hl & Hcount).
  fold (run_dependent_dimensions species_counts) in Hs, Hl, Hcount. fold dims in Hs, Hl, Hcount.
  split; [done|]. split; [done|].
  destruct (restore_dependent_dimensions_defined point dims) as [q Hq]; [lia|].
  exists q. split; [done|].
  pose proof (restore_from_shape _ _ _ _ _ Hq) as (Hlq & _ & _). simpl in Hlq.
  split; [lia|]. split; [by eapply restore_dependent_dimensions_restored|].
  rewrite (restore_from_independent dims 0 point [] q); [f_equal; lia|done| |done|done].
  apply Forall_forall. intros. lia.
Qed.

Lemma run_dimensions_fit_restore_witness :
  let dims := run_dependent_dimensions [2%nat; 2%nat] in
  StronglySorted lt dims
  /\ length dims = 2%nat
  /\ exists q, restore_dependent_dimensions [0.25; 0.5; -1] dims = Some q
       /\ length q = 4%nat
       /\ dependent_restored dims q
       /\ independent_coordinates dims 0 q = [0.25; 0.5].
Proof.
  apply (run_dimensions_fit_restore [2%nat; 2%nat] [0.25; 0.5; -1]).
  - repeat constructor.
  - simpl. lia.
Defined.

(** ** The results of [internal_lower_convex_hull] *)

Lemma unique_from_not_empty {A} (pred : A -> A -> bool) l : forall kept,
  unique_from pred kept l <> [].
Proof.
  induction l as [|x l IH]; intros kept; simpl; [done|].
  destruct (pred kept x); [apply IH|done].
Qed.

(** X6: whatever [internal_lower_convex_hull] returns is not empty: the
    single point, the few points, the vertices of the lower facets that
    remain after the removal of duplicates, or else the point of lowest
    energy. Of [std::sort] only the promise that it rearranges the range is
    used. *)
Theorem internal_hull_never_empty
    (std_sort : sort_routine) (Qhull : hull_engine)
    (points : list vec) (dims : list nat) (cel : double) (f : vec -> double)
    (res : list vec) :
  (forall l, std_sort _ lexicographical_compare l ≡ₚ l) ->
  internal_lower_convex_hull std_sort Qhull points dims cel f = Some res ->
  res <> [].
Proof.
  intros Hperm. unfold internal_lower_convex_hull.
  destruct points as [|front rest]; [done|].
  remember (front :: rest) as points eqn:Hpoints.
  destruct (negb (0 <? cel)); [done|].
  destruct (length points =? 1)%nat.
  { destruct (restore_dependent_dimensions front dims); [|done].
    rewrite option_bind_Some_l. by intros [= <-]. }
  destruct (length points <=? length front)%nat.
  { intros Hm. apply length_mapM in Hm. subst points. by destruct res. }
  destruct (Qhull points dims) as [facets|]; [|done]. rewrite option_bind_Some_l.
  destruct (collect_candidate_points facets dims []) as [candidates|]; [|done].
  rewrite option_bind_Some_l.
  destruct (Nat.ltb_spec 0 (length candidates)) as [Hpos|_].
  - intros Hm. apply length_mapM in Hm.
    specialize (Hperm candidates).
    destruct (std_sort vec lexicographical_compare candidates) as [|x sorted].
    + apply Permutation_length in Hperm. simpl in Hperm. lia.
    + simpl in Hm. pose proof (unique_from_not_empty too_similar sorted x) as Hne.
      destruct (unique_from too_similar x sorted); [done|]. by destruct res.
  - destruct (minimum_point front points); [|done].
    rewrite option_bind_Some_l. by intros [= <-].
Qed.

Lemma internal_hull_never_empty_witness :
  [ [0.50; 1 - 0.50]; [0.51; 1 - 0.51]; [0.52; 1 - 0.52] ] <> ([] : list vec).
Proof.
  apply (internal_hull_never_empty insertion_sort diamond_hull diamond_points
           [1%nat] 0.05 (fun _ => 0)).
  - intros l. apply insertion_sort_contract.
  - vm_compute. reflexivity.
Defined.

Lemma minimum_point_least points : forall minimum e_min,
  Forall (fun pt => exists e, last pt = Some e /\ is_nan e = false) points ->
  last minimum = Some e_min -> is_nan e_min = false ->
  exists r e_r,
    minimum_point minimum points = Some r
    /\ (r = minimum \/ r ∈ points)
    /\ last r = Some e_r /\ is_nan e_r = false
    /\ (e_min <? e_r) = false
    /\ forall pt e, pt ∈ points -> last pt = Some e -> (e <? e_r) = false.
Proof.
  induction points as [|pt points IH]; intros minimum e_min Hall Hmin Hnan; simpl.
  - exists minimum, e_min. split; [done|]. split; [by left|]. split; [done|].
    split; [done|]. split; [apply ltb_irrefl|]. intros pt e Hpt. by apply elem_of_nil in Hpt.
  - apply Forall_cons in Hall as [(e_pt & Hpt & Hnan_pt) Hall].
    rewrite Hmin, Hpt, !option_bind_Some_l.
    destruct (e_pt <? e_min) eqn:Hlt.
    + destruct (IH pt e_pt Hall Hpt Hnan_pt) as (r & e_r & Hr & Hin & Hlast & Hnr & Hle & Hleast).
      exists r, e_r. split; [done|].
      split; [right; destruct Hin as [->|Hin]; [left|by right]|].
      split; [done|]. split; [done|]. split.
      * destruct (e_min <? e_r) eqn:Hc; [|done].
        by rewrite (ltb_trans _ _ _ Hlt Hc) in Hle.
      * intros pt' e' [->|Hpt']%elem_of_cons He'; [|by eapply Hleast].
        rewrite Hpt in He'. by injection He' as <-.
    + destruct (IH minimum e_min Hall Hmin Hnan)
        as (r & e_r & Hr & Hin & Hlast & Hnr & Hle & Hleast).
      exists r, e_r. split; [done|].
      split; [destruct Hin as [->|Hin]; [by left|right; by right]|].
      split; [done|]. split; [done|]. split; [done|].
      intros pt' e' [->|Hpt']%elem_of_cons He'; [|by eapply Hleast].
      rewrite Hpt in He'. injection He' as <-.
      destruct (e_pt <? e_r) eqn:Hc; [|done].
      by rewrite (ltb_neg_trans _ _ _ Hnr Hnan Hc Hle) in Hlt.
Qed.

(** X7: when Qhull finds no facet of the lower hull, the hull builder
    returns one point: a point of the input without its energy, and no point
    of the input has a lower energy than it, provided no energy is a NaN. *)
Theorem internal_hull_fallback_lowest_energy
    (std_sort : sort_routine) (Qhull : hull_engine)
    (points : list vec) (front : vec) (rest : list vec) (dims : list nat)
    (cel : double) (f : vec -> double) (facets : list QhullFacet) :
  (0 <? cel) = true ->
  points = front :: rest ->
  (length front < length points)%nat ->
  Qhull points dims = Some facets ->
  collect_candidate_points facets dims [] = Some [] ->
  Forall (fun pt => exists e, last pt = Some e /\ is_nan e = false) points ->
  exists minimum e_min,
    internal_lower_convex_hull std_sort Qhull points dims cel f = Some [removelast minimum]
    /\ minimum ∈ points
    /\ last minimum = Some e_min
    /\ forall pt e, pt ∈ points -> last pt = Some e -> (e <? e_min) = false.
Proof.
  intros Hcel -> Hcount Hq Hcand Hall.
  pose proof Hall as Hfront. apply Forall_cons in Hfront as [(e_f & Hef & Hnan) _].
  destruct (minimum_point_least (front :: rest) front e_f Hall Hef Hnan)
    as (r & e_r & Hr & Hin & Hlast & _ & _ & Hleast).
  exists r, e_r. split; [|split; [|split; [done|done]]].
  - unfold internal_lower_convex_hull. rewrite Hcel. cbn [negb].
    destruct (Nat.eqb_spec (length (front :: rest)) 1) as [H1|_].
    { destruct front; simpl in Hef; [done|]. simpl in Hcount, H1. lia. }
    destruct (Nat.leb_spec (length (front :: rest)) (length front)) as [Hle|_]; [lia|].
    rewrite Hq, option_bind_Some_l, Hcand, option_bind_Some_l. cbn [length Nat.ltb Nat.leb].
    by rewrite Hr, option_bind_Some_l.
  - destruct Hin as [->|Hin]; [left|done].
Qed.

Lemma internal_hull_fallback_lowest_energy_witness :
  exists minimum e_min,
    internal_lower_convex_hull insertion_sort upper_hull upper_points [1%nat] 0.05
      (fun _ => 0) = Some [removelast minimum]
    /\ minimum ∈ upper_points
    /\ last minimum = Some e_min
    /\ forall pt e, pt ∈ upper_points -> last pt = Some e -> (e <? e_min) = false.
Proof.
  apply (internal_hull_fallback_lowest_energy insertion_sort upper_hull upper_points
           [0; 1; 5] [ [1; 0; 3]; [0.5; 0.5; 4]; [0.2; 0.8; 7] ] [1%nat] 0.05 (fun _ => 0)
           upper_facets).
  - reflexivity.
  - reflexivity.
  - simpl. lia.
  - vm_compute. reflexivity.
  - reflexivity.
  - repeat (constructor; [eexists; split; reflexivity|]). constructor.
Defined.

(** ** The order of the points *)

Lemma lexicographical_compare_irrefl (a : vec) : lexicographical_compare a a = false.
Proof. induction a as [|x a IH]; simpl; [done|]. by rewrite ltb_irrefl. Qed.

Lemma lexicographical_compare_trans (a : vec) : forall b c : vec,
  Forall (fun x => is_nan x = false) a -> Forall (fun x => is_nan x = false) b ->
  Forall (fun x => is_nan x = false) c ->
  lexicographical_compare a b = true -> lexicographical_compare b c = true ->
  lexicographical_compare a c = true.
Proof.
  induction a as [|x a IH]; intros [|y b] [|z c] Ha Hb Hc; simpl; try done.
  apply Forall_cons in Ha as [Hx Ha]. apply Forall_cons in Hb as [Hy Hb].
  apply Forall_cons in Hc as [Hz Hc].
  destruct (x <? y) eqn:Hxy.
  - intros _. destruct (y <? z) eqn:Hyz.
    + intros _. by rewrite (ltb_trans _ _ _ Hxy Hyz).
    + destruct (z <? y) eqn:Hzy; [done|]. intros _.
      by rewrite (ltb_neg_trans _ _ _ Hy Hz Hxy Hzy).
  - destruct (y <? x) eqn:Hyx; [done|]. intros Hab.
    destruct (y <? z) eqn:Hyz.
    + intros _. by rewrite (ltb_neg_trans_l _ _ _ Hx Hy Hyx Hyz).
    + destruct (z <? y) eqn:Hzy; [done|]. intros Hbc.
      destruct (ltb_equiv_trans x y z) as [Hxz Hzx]; try done.
      rewrite Hxz, Hzx. by apply (IH b c).
Qed.

Lemma lexicographical_compare_equiv_trans (a : vec) : forall b c : vec,
  Forall (fun x => is_nan x = false) a -> Forall (fun x => is_nan x = false) b ->
  Forall (fun x => is_nan x = false) c ->
  lexicographical_compare a b = false -> lexicographical_compare b a = false ->
  lexicographical_compare b c = false -> lexicographical_compare c b = false ->
  lexicographical_compare a c = false /\ lexicographical_compare c a = false.
Proof.
  induction a as [|x a IH]; intros [|y b] [|z c] Ha Hb Hc; simpl; try done.
  apply Forall_cons in Ha as [Hx Ha]. apply Forall_cons in Hb as [Hy Hb].
  apply Forall_cons in Hc as [Hz Hc].
  destruct (x <? y) eqn:Hxy; [done|]. destruct (y <? x) eqn:Hyx; [done|].
  destruct (y <? z) eqn:Hyz; [done|]. destruct (z <? y) eqn:Hzy; [done|].
  destruct (ltb_equiv_trans x y z) as [Hxz Hzx]; try done.
  rewrite Hxz, Hzx. by apply IH.
Qed.

(** X8: the order [std::sort] uses on the candidate points, the
    lexicographic order of their coordinates, is a strict weak ordering on
    every range of points none of whose coordinates is a NaN: what
    [std::sort] requires of its comparison is met. *)
Theorem point_order_meets_sort_requirement (points : list vec) :
  Forall (Forall (fun x => is_nan x = false)) points ->
  strict_weak_ordering_on lexicographical_compare points = true.
Proof.
  intros Hnan. rewrite Forall_forall in Hnan.
  assert (Hin : forall pt, In pt points -> Forall (fun x => is_nan x = false) pt).
  { intros pt Hpt. by apply Hnan, list_elem_of_In. }
  unfold strict_weak_ordering_on, irreflexive_on, transitive_on, equiv_transitive_on.
  rewrite !andb_true_iff. split; [split|].
  - apply forallb_forall. intros a _. by rewrite lexicographical_compare_irrefl.
  - apply forallb_forall. intros a Ha. apply forallb_forall. intros b Hb.
    apply forallb_forall. intros c Hc.
    destruct (lexicographical_compare a b) eqn:Hab; [|done].
    destruct (lexicographical_compare b c) eqn:Hbc; [|done]. simpl.
    by rewrite (lexicographical_compare_trans a b c) by auto.
  - apply forallb_forall. intros a Ha. apply forallb_forall. intros b Hb.
    apply forallb_forall. intros c Hc.
    destruct (lexicographical_compare a b) eqn:Hab; [done|].
    destruct (lexicographical_compare b a) eqn:Hba; [done|].
    destruct (lexicographical_compare b c) eqn:Hbc; [done|].
    destruct (lexicographical_compare c b) eqn:Hcb; [done|]. simpl.
    destruct (lexicographical_compare_equiv_trans a b c) as [Hac Hca]; auto.
    by rewrite Hac, Hca.
Qed.

Lemma point_order_meets_sort_requirement_witness :
  strict_weak_ordering_on lexicographical_compare diamond_points = true.
Proof.
  apply (point_order_meets_sort_requirement diamond_points).
  repeat constructor.
Defined.

(** ** The facets of [global_lower_convex_hull] *)

Lemma matrix_assign_shape n r c v (m : matrix) :
  Forall (fun row => length row = n) m ->
  length (matrix_assign r c v m) = length m
  /\ Forall (fun row => length row = n) (matrix_assign r c v m).
Proof.
  intros Hm. unfold matrix_assign. split; [apply length_alter|].
  apply Forall_alter; [done|]. intros row _ Hrow. by rewrite length_insert.
Qed.

Lemma matrix_at_assign_eq n r c v (m : matrix) :
  Forall (fun row => length row = n) m -> (r < length m)%nat -> (c < n)%nat ->
  matrix_at (matrix_assign r c v m) r c = Some v.
Proof.
  intros Hm Hr Hc. unfold matrix_at, matrix_assign.
  destruct (lookup_lt_is_Some_2 m r Hr) as [row Hrow].
  rewrite list_lookup_alter_eq, Hrow. simpl.
  apply list_lookup_insert_eq. rewrite Forall_lookup in Hm. rewrite (Hm _ _ Hrow). done.
Qed.

Lemma matrix_at_assign_ne r c v (m : matrix) r' c' :
  r' <> r \/ c' <> c ->
  matrix_at (matrix_assign r c v m) r' c' = matrix_at m r' c'.
Proof.
  intros Hne. unfold matrix_at, matrix_assign.
  destruct (decide (r' = r)) as [->|Hr].
  - rewrite list_lookup_alter_eq. destruct (m !! r) as [row|]; [|done]. simpl.
    apply list_lookup_insert_ne. intros ->. by destruct Hne.
  - by rewrite list_lookup_alter_ne.
Qed.

Lemma fill_column_shape n coords : forall row_index column_index (m : matrix),
  Forall (fun row => length row = n) m ->
  length (fill_column coords row_index column_index m) = length m
  /\ Forall (fun row => length row = n) (fill_column coords row_index column_index m).
Proof.
  induction coords as [|coord coords IH]; intros row_index column_index m Hm; simpl; [done|].
  destruct (matrix_assign_shape n row_index column_index coord m Hm) as [Hl Hs].
  destruct (IH (S row_index) column_index _ Hs) as [Hl' Hs']. split; [congruence|done].
Qed.

(** After the loop over the coordinates, column [column_index] holds the
    coordinates from row [row_index] on; nothing else has changed. *)
Lemma matrix_at_fill_column n coords : forall row_index column_index (m : matrix) r c,
  Forall (fun row => length row = n) m ->
  (row_index + length coords <= length m)%nat -> (column_index < n)%nat ->
  matrix_at (fill_column coords row_index column_index m) r c
  = if decide (c = column_index /\ (row_index <= r < row_index + length coords)%nat)
    then coords !! (r - row_index)%nat
    else matrix_at m r c.
Proof.
  induction coords as [|coord coords IH]; intros row_index column_index m r c Hm Hr Hc; simpl.
  - rewrite decide_False by lia. done.
  - simpl in Hr.
    destruct (matrix_assign_shape n row_index column_index coord m Hm) as [Hl Hs].
    rewrite (IH (S row_index) column_index _ r c Hs) by (rewrite ?Hl; lia).
    destruct (decide (c = column_index /\ (S row_index <= r < S row_index + length coords)%nat))
      as [[-> Hin]|Hout].
    + rewrite decide_True by lia.
      replace (r - row_index)%nat with (S (r - S row_index)) by lia. done.
    + destruct (decide (c = column_index /\ r = row_index)) as [[-> ->]|Hne].
      * rewrite decide_True by lia. rewrite Nat.sub_diag. simpl.
        apply (matrix_at_assign_eq n); [done|lia|done].
      * rewrite decide_False by lia. apply matrix_at_assign_ne.
        destruct (decide (r = row_index)); [right|left]; [|done]. intros ->. by apply Hne.
Qed.

Lemma fill_basis_matrix_shape n vs : forall column_index vertex_count (m : matrix),
  Forall (fun row => length row = n) m ->
  length (fill_basis_matrix vs column_index vertex_count m) = length m
  /\ Forall (fun row => length row = n) (fill_basis_matrix vs column_index vertex_count m).
Proof.
  induction vs as [|vertex vs IH]; intros column_index vertex_count m Hm; simpl; [done|].
  destruct (fill_column_shape n (removelast (vertex_point vertex)) 0 column_index m Hm)
    as [Hl Hs].
  destruct (matrix_assign_shape n (vertex_count - 1) column_index 1 _ Hs) as [Hl' Hs'].
  destruct (IH (S column_index) vertex_count _ Hs') as [Hl'' Hs'']. split; [congruence|done].
Qed.

(** After the loop over the vertices, the column of every vertex that has
    [vertex_count] coordinates holds the coordinates of the vertex, the
    energy excepted, and then a [1]; the columns before [column_index] are as
    they were. *)
Lemma matrix_at_fill_basis_matrix vertex_count vs : forall column_index (m : matrix),
  Forall (fun row => length row = vertex_count) m -> length m = vertex_count ->
  (column_index + length vs <= vertex_count)%nat ->
  (forall r c, (c < column_index)%nat ->
     matrix_at (fill_basis_matrix vs column_index vertex_count m) r c = matrix_at m r c)
  /\ (forall j vertex r, vs !! j = Some vertex ->
        length (vertex_point vertex) = vertex_count -> (r < vertex_count)%nat ->
        matrix_at (fill_basis_matrix vs column_index vertex_count m) r (column_index + j)
        = (removelast (vertex_point vertex) ++ [1]) !! r).
Proof.
  induction vs as [|vertex vs IH]; intros column_index m Hm Hrows Hcols; simpl.
  { split; [done|]. intros j vertex r Hj. by rewrite lookup_nil in Hj. }
  simpl in Hcols.
  set (coords := removelast (vertex_point vertex)).
  set (m1 := fill_column coords 0 column_index m).
  set (m2 := matrix_assign (vertex_count - 1) column_index 1 m1).
  destruct (fill_column_shape vertex_count coords 0 column_index m Hm) as [Hl1 Hs1].
  fold m1 in Hl1, Hs1.
  destruct (matrix_assign_shape vertex_count (vertex_count - 1) column_index 1 m1 Hs1)
    as [Hl2 Hs2].
  fold m2 in Hl2, Hs2.
  destruct (IH (S column_index) m2 Hs2) as [Hbefore Hcolumn]; [congruence|lia|].
  split.
  - intros r c Hc. rewrite Hbefore by lia.
    unfold m2. rewrite matrix_at_assign_ne by lia.
    unfold m1. destruct (decide (length coords <= length m)%nat) as [Hfit|Hfit].
    + rewrite (matrix_at_fill_column vertex_count) by (done || lia).
      rewrite decide_False by lia. done.
    + clear -Hc. revert m. generalize 0%nat as row_index.
      induction coords as [|coord coords IHc]; intros row_index m; simpl; [done|].
      rewrite IHc. apply matrix_at_assign_ne. lia.
  - intros [|j] vertex' r Hj Hlen Hr.
    + injection Hj as <-. rewrite Nat.add_0_r, Hbefore by lia.
      assert (Hcl : length coords = (vertex_count - 1)%nat).
      { unfold coords. destruct (vertex_point vertex) as [|c l] eqn:Hpt using rev_ind.
        - simpl in Hlen. lia.
        - rewrite removelast_last. rewrite length_app in Hlen. simpl in Hlen. lia. }
      fold coords.
      destruct (decide (r = vertex_count - 1)%nat) as [->|Hne].
      * unfold m2. rewrite (matrix_at_assign_eq vertex_count) by (done || lia).
        rewrite lookup_app_r by lia. by rewrite Hcl, Nat.sub_diag.
      * unfold m2. rewrite matrix_at_assign_ne by lia.
        unfold m1. rewrite (matrix_at_fill_column vertex_count) by (done || lia).
        rewrite decide_True by lia. rewrite Nat.sub_0_r, lookup_app_l by lia. done.
    + simpl in Hj. replace (column_index + S j)%nat with (S column_index + j)%nat by lia.
      by apply Hcolumn.
Qed.

(** X9: every facet [global_lower_convex_hull] returns has a normal with a
    last coordinate, and this coordinate is not positive: only facets of the
    lower hull are kept (the facet returned for a single point has the
    normal [0]). *)
Theorem global_hull_facets_face_down
    (Qhull : hull_engine) (points : list vec) (cel : double)
    (f : nat -> nat -> double) (facets : list SimplicialFacet) :
  global_lower_convex_hull Qhull points cel f = Some facets ->
  Forall (fun facet => exists orientation,
            last (normal facet) = Some orientation /\ (0 <? orientation) = false) facets.
Proof.
  unfold global_lower_convex_hull. destruct points as [|front rest]; [done|].
  destruct (negb (0 <? cel)); [done|].
  destruct (length (front :: rest) =? 1)%nat.
  { intros [= <-]. repeat constructor. by exists 0. }
  destruct (Qhull _ _) as [qfacets|]; [|done]. rewrite option_bind_Some_l. intros [= <-].
  apply Forall_fmap, Forall_forall. intros qfacet Hin.
  apply list_elem_of_filter in Hin as [Hkeep _].
  apply andb_prop in Hkeep as [_ Hlower]. unfold lower_hull_facet in Hlower.
  apply andb_prop in Hlower as [Horient Hsize]. simpl.
  destruct (last (hyperplane qfacet)) as [orientation|] eqn:Hlast.
  - exists orientation. split; [done|]. simpl in Horient. by apply negb_true_iff.
  - apply last_None in Hlast. by rewrite Hlast in Hsize.
Qed.

Lemma global_hull_facets_face_down_witness :
  Forall (fun facet => exists orientation,
            last (normal facet) = Some orientation /\ (0 <? orientation) = false)
    (candidate_facets binary_stored_minimizer).
Proof.
  apply (global_hull_facets_face_down binary_hull binary_points 0.05 (fun _ _ => 0)).
  vm_compute. reflexivity.
Defined.

(** X10: for two points or more of at least two coordinates each (so that
    the dimension handed to Qhull, [point_dimension-2], does not wrap
    around), the facets returned are built one by one from the defined,
    good, simplicial lower facets of Qhull, in their order. The basis matrix of a facet of [n] vertices has [n] rows and [n]
    columns, and the column of every vertex that has [n] coordinates (the
    energy last) holds the coordinates of the vertex without the energy,
    followed by [1]. The matrix is stored as filled: it is the matrix of
    the vertices, not its inverse. *)
Theorem global_hull_stores_vertex_matrix
    (Qhull : hull_engine) (front second : vec) (rest : list vec) (cel : double)
    (f : nat -> nat -> double) (qfacets : list QhullFacet)
    (facets : list SimplicialFacet) :
  (2 <= length front)%nat ->
  Qhull (front :: second :: rest) [(length front - 2)%nat] = Some qfacets ->
  global_lower_convex_hull Qhull (front :: second :: rest) cel f = Some facets ->
  Forall2 (fun facet qfacet =>
      let vertex_count := length (facet_vertices qfacet) in
      vertices facet = map point_id (facet_vertices qfacet)
      /\ length (basis_matrix facet) = vertex_count
      /\ Forall (fun row => length row = vertex_count) (basis_matrix facet)
      /\ forall c vertex r,
           facet_vertices qfacet !! c = Some vertex ->
           length (vertex_point vertex) = vertex_count -> (r < vertex_count)%nat ->
           matrix_at (basis_matrix facet) r c
           = (removelast (vertex_point vertex) ++ [1]) !! r)
    facets
    (filter (fun facet => isDefined facet && isGood facet && isSimplicial facet
                          && lower_hull_facet facet = true) qfacets).
Proof.
  intros _ Hq. unfold global_lower_convex_hull.
  destruct (negb (0 <? cel)); [done|]. cbn [length Nat.eqb].
  rewrite Hq, option_bind_Some_l. intros [= <-].
  apply Forall2_fmap_l, Forall_Forall2_diag, Forall_forall. intros qfacet _.
  unfold compose. cbn [new_facet_of vertices basis_matrix].
  set (vertex_count := length (facet_vertices qfacet)).
  assert (Hs : Forall (fun row : vec => length row = vertex_count)
                 (new_matrix vertex_count vertex_count)).
  { apply Forall_forall. intros row Hrow. unfold new_matrix in Hrow.
    apply elem_of_replicate in Hrow as [-> _]. apply length_replicate. }
  assert (Hl : length (new_matrix vertex_count vertex_count) = vertex_count)
    by apply length_replicate.
  destruct (fill_basis_matrix_shape vertex_count (facet_vertices qfacet) 0 vertex_count _ Hs)
    as [Hl' Hs'].
  split; [done|]. split; [congruence|]. split; [done|].
  intros c vertex r Hc Hlen Hr.
  destruct (matrix_at_fill_basis_matrix vertex_count (facet_vertices qfacet) 0 _ Hs Hl)
    as [_ Hcolumn]; [unfold vertex_count; lia|].
  by apply (Hcolumn c vertex r).
Qed.

Lemma global_hull_stores_vertex_matrix_witness :
  Forall2 (fun facet qfacet =>
      let vertex_count := length (facet_vertices qfacet) in
      vertices facet = map point_id (facet_vertices qfacet)
      /\ length (basis_matrix facet) = vertex_count
      /\ Forall (fun row => length row = vertex_count) (basis_matrix facet)
      /\ forall c vertex r,
           facet_vertices qfacet !! c = Some vertex ->
           length (vertex_point vertex) = vertex_count -> (r < vertex_count)%nat ->
           matrix_at (basis_matrix facet) r c
           = (removelast (vertex_point vertex) ++ [1]) !! r)
    (candidate_facets binary_stored_minimizer)
    (filter (fun facet => isDefined facet && isGood facet && isSimplicial facet
                          && lower_hull_facet facet = true) binary_facets).
Proof.
  apply (global_hull_stores_vertex_matrix binary_hull [1; 0; 0] [0.4; 0.6; -1000] [ [0; 1; 0] ]
           0.05 (fun _ _ => 0)).
  - simpl. lia.
  - vm_compute. reflexivity.
  - vm_compute. reflexivity.
Defined.

(** ** The enclosure test on the stored matrices *)

Lemma inner_prod_not_negative (row v : vec) :
  Forall (fun c => not_negative c = true) row ->
  Forall (fun c => not_negative c = true) v ->
  not_negative (inner_prod row v) = true.
Proof.
  intros Hrow Hv. unfold inner_prod.
  assert (Hzip : Forall (fun ab => not_negative (fst ab * snd ab) = true) (zip row v)).
  { revert v Hv. induction Hrow as [|a row Ha _ IH]; intros v Hv; [constructor|].
    destruct Hv as [|b v Hb Hv]; [constructor|]. simpl. constructor; [|by apply IH].
    by apply mul_not_negative. }
  assert (H0 : not_negative 0 = true) by reflexivity. revert H0. generalize 0.
  induction Hzip as [|ab l Hab _ IH]; intros t Ht; simpl; [done|].
  apply IH. by apply add_not_negative.
Qed.

Lemma encloses_not_negative (conditions : evalconditions) (facet : SimplicialFacet) :
  Forall (Forall (fun c => not_negative c = true)) (basis_matrix facet) ->
  Forall (fun kv => not_negative (snd kv) = true) (xfrac conditions) ->
  encloses conditions facet = true.
Proof.
  intros Hm Hx. unfold encloses, prod. apply negb_true_iff.
  apply not_true_iff_false. intros Hex. apply existsb_exists in Hex as (coord & Hin & Hneg).
  apply in_map_iff in Hin as (row & <- & Hrow).
  apply list_elem_of_In in Hrow. rewrite Forall_forall in Hm.
  pose proof (inner_prod_not_negative row (trial_point conditions) (Hm _ Hrow)) as Hnn.
  unfold not_negative in Hnn. rewrite Hneg in Hnn. simpl in Hnn.
  assert (false = true); [|done]. apply Hnn.
  unfold trial_point. apply Forall_app. split; [by apply Forall_fmap|].
  by repeat constructor.
Qed.

Lemma new_facet_of_not_negative (qfacet : QhullFacet) :
  composition_vertices qfacet ->
  Forall (Forall (fun c => not_negative c = true)) (basis_matrix (new_facet_of qfacet)).
Proof.
  intros Hv. cbn [new_facet_of basis_matrix].
  set (vertex_count := length (facet_vertices qfacet)).
  assert (Hs : Forall (fun row : vec => length row = vertex_count)
                 (new_matrix vertex_count vertex_count)).
  { apply Forall_forall. intros row Hrow. unfold new_matrix in Hrow.
    apply elem_of_replicate in Hrow as [-> _]. apply length_replicate. }
  assert (Hl : length (new_matrix vertex_count vertex_count) = vertex_count)
    by apply length_replicate.
  destruct (fill_basis_matrix_shape vertex_count (facet_vertices qfacet) 0 vertex_count _ Hs)
    as [Hl' Hs'].
  destruct (matrix_at_fill_basis_matrix vertex_count (facet_vertices qfacet) 0 _ Hs Hl)
    as [_ Hcolumn]; [unfold vertex_count; lia|].
  apply Forall_lookup. intros r row Hrow. apply Forall_lookup. intros c x Hx.
  assert (Hr : (r < vertex_count)%nat).
  { apply lookup_lt_Some in Hrow. lia. }
  assert (Hc : (c < vertex_count)%nat).
  { apply lookup_lt_Some in Hx. rewrite Forall_lookup in Hs'. by rewrite (Hs' _ _ Hrow) in Hx. }
  destruct (lookup_lt_is_Some_2 (facet_vertices qfacet) c Hc) as [vertex Hvertex].
  unfold composition_vertices in Hv. rewrite Forall_lookup in Hv.
  destruct (Hv _ _ Hvertex) as [Hlen Hnn].
  specialize (Hcolumn c vertex r Hvertex Hlen Hr). simpl in Hcolumn.
  unfold matrix_at in Hcolumn. rewrite Hrow in Hcolumn. simpl in Hcolumn.
  rewrite Hx in Hcolumn. symmetry in Hcolumn. apply list_elem_of_lookup_2 in Hcolumn.
  apply elem_of_app in Hcolumn as [Hin|Hin].
  - rewrite Forall_forall in Hnn. by apply Hnn.
  - apply list_elem_of_singleton in Hin as ->. reflexivity.
Qed.

Lemma global_hull_facets_not_negative
    (Qhull : hull_engine) (points : list vec) (cel : double)
    (f : nat -> nat -> double) (facets : list SimplicialFacet) :
  (forall dropped qfacets, Qhull points dropped = Some qfacets ->
     Forall composition_vertices qfacets) ->
  global_lower_convex_hull Qhull points cel f = Some facets ->
  Forall (fun facet => Forall (Forall (fun c => not_negative c = true)) (basis_matrix facet))
    facets.
Proof.
  intros Hv. unfold global_lower_convex_hull. destruct points as [|front rest]; [done|].
  destruct (negb (0 <? cel)); [done|].
  destruct (length (front :: rest) =? 1)%nat.
  { intros [= <-]. repeat constructor. }
  destruct (Qhull _ _) as [qfacets|] eqn:Hq; [|done]. rewrite option_bind_Some_l.
  intros [= <-]. apply Forall_fmap, Forall_forall. intros qfacet Hin.
  apply list_elem_of_filter in Hin as [_ Hin]. simpl.
  apply new_facet_of_not_negative.
  specialize (Hv _ _ Hq). rewrite Forall_forall in Hv. by apply Hv.
Qed.

(** X11: the enclosure test of [find_tie_points] accepts every facet of
    [global_lower_convex_hull] for every target that fits the facets (every
    row of every stored matrix has one entry per component of the trial
    point, so that the product is defined): the entries of the stored
    matrix are coordinates of the vertices and [1], the target's mole
    fractions are not negative, and so no component of their product is
    negative. The test as applied to the stored matrices selects nothing. *)
Theorem stored_matrices_enclose_every_target
    (Qhull : hull_engine) (points : list vec) (cel : double)
    (f : nat -> nat -> double) (facets : list SimplicialFacet)
    (conditions : evalconditions) :
  (forall dropped qfacets, Qhull points dropped = Some qfacets ->
     Forall composition_vertices qfacets) ->
  global_lower_convex_hull Qhull points cel f = Some facets ->
  Forall (fun facet => fits_target conditions facet) facets ->
  Forall (fun kv => not_negative (snd kv) = true) (xfrac conditions) ->
  Forall (fun facet => encloses conditions facet = true) facets.
Proof.
  intros Hv Hhull _ Hx.
  pose proof (global_hull_facets_not_negative _ _ _ _ _ Hv Hhull) as Hnn.
  eapply Forall_impl; [exact Hnn|]. intros facet Hfacet. by apply encloses_not_negative.
Qed.

Lemma binary_hull_composition_vertices dropped qfacets :
  binary_hull binary_points dropped = Some qfacets -> Forall composition_vertices qfacets.
Proof.
  unfold binary_hull, hull_of. destruct (_ && _); [|done]. intros [= <-].
  unfold composition_vertices. repeat constructor.
Qed.

Lemma stored_matrices_enclose_every_target_witness :
  Forall (fun facet => encloses binary_conditions facet = true)
    (candidate_facets binary_stored_minimizer).
Proof.
  apply (stored_matrices_enclose_every_target binary_hull binary_points 0.05 (fun _ _ => 0)).
  - exact binary_hull_composition_vertices.
  - vm_compute. reflexivity.
  - unfold fits_target. repeat constructor.
  - repeat constructor.
Defined.

Lemma filter_all_true {A} (P : A -> bool) (l : list A) :
  Forall (fun a => P a = true) l -> filter (fun a => P a = true) l = l.
Proof.
  induction 1 as [|a l Ha _ IH]; [done|].
  rewrite filter_cons, decide_True by done. by rewrite IH.
Qed.

(** X12: with the facets of [global_lower_convex_hull] as candidate facets,
    all of their vertices being entries of the hull map,
    [find_tie_points] gives the same answer for any two target compositions
    that fit the facets (every row of every stored matrix has one entry per
    component of the trial point): every facet passes the enclosure test,
    so the facet chosen is the first of all candidate facets in the order
    of their areas, whatever the target. *)
Theorem find_tie_points_same_for_every_target
    (std_sort : sort_routine) (Qhull : hull_engine) (points : list vec) (cel : double)
    (f : nat -> nat -> double) (gm : GlobalMinimizer)
    (conditions conditions' : evalconditions) :
  (forall dropped qfacets, Qhull points dropped = Some qfacets ->
     Forall composition_vertices qfacets) ->
  global_lower_convex_hull Qhull points cel f = Some (candidate_facets gm) ->
  Forall (fun facet => vertices_in_hull_map gm facet) (candidate_facets gm) ->
  Forall (fun facet => fits_target conditions facet) (candidate_facets gm) ->
  Forall (fun facet => fits_target conditions' facet) (candidate_facets gm) ->
  Forall (fun kv => not_negative (snd kv) = true) (xfrac conditions) ->
  Forall (fun kv => not_negative (snd kv) = true) (xfrac conditions') ->
  find_tie_points std_sort gm conditions = find_tie_points std_sort gm conditions'
  /\ pre_candidate_facets gm conditions = candidate_facets gm.
Proof.
  intros Hv Hhull _ _ _ Hx Hx'.
  pose proof (global_hull_facets_not_negative _ _ _ _ _ Hv Hhull) as Hnn.
  assert (Hall : forall c, Forall (fun kv => not_negative (snd kv) = true) (xfrac c) ->
                   pre_candidate_facets gm c = candidate_facets gm).
  { intros c Hc. unfold pre_candidate_facets. apply filter_all_true.
    eapply Forall_impl; [exact Hnn|]. intros facet Hfacet. by apply encloses_not_negative. }
  split; [|by apply Hall]. unfold find_tie_points. by rewrite !Hall.
Qed.

Lemma find_tie_points_same_for_every_target_witness :
  find_tie_points insertion_sort binary_stored_minimizer binary_conditions
  = find_tie_points insertion_sort binary_stored_minimizer binary_other_conditions
  /\ pre_candidate_facets binary_stored_minimizer binary_conditions
     = candidate_facets binary_stored_minimizer.
Proof.
  apply (find_tie_points_same_for_every_target insertion_sort binary_hull binary_points
           0.05 (fun _ _ => 0)).
  - exact binary_hull_composition_vertices.
  - vm_compute. reflexivity.
  - unfold vertices_in_hull_map. repeat constructor.
  - unfold fits_target. repeat constructor.
  - unfold fits_target. repeat constructor.
  - repeat constructor.
  - repeat constructor.
Defined.

(** X13: a system of a single point. The global hull builder returns one
    facet with an empty basis matrix; [find_tie_points] then accepts this
    facet for every target and returns the first entry of the hull map, or
    fails when the hull map is empty. Of [std::sort] only the promise that
    it rearranges the range is used. *)
Theorem single_point_is_the_tie_point
    (std_sort : sort_routine) (Qhull : hull_engine) (point : vec) (cel : double)
    (f : nat -> nat -> double) (gm : GlobalMinimizer) (conditions : evalconditions) :
  (forall l, std_sort _ facet_area_comparator l ≡ₚ l) ->
  global_lower_convex_hull Qhull [point] cel f = Some (candidate_facets gm) ->
  find_tie_points std_sort gm conditions
  = (first_entry ← hull_map gm !! 0%nat; Some [first_entry]).
Proof.
  intros Hperm. unfold global_lower_convex_hull.
  destruct (negb (0 <? cel)); [done|]. cbn [length Nat.eqb]. intros [= Hfacets].
  unfold find_tie_points, pre_candidate_facets. rewrite <- Hfacets.
  rewrite filter_cons, decide_True by reflexivity. rewrite filter_nil.
  specialize (Hperm [single_point_facet]). apply Permutation_singleton_r in Hperm.
  rewrite Hperm. unfold tie_points_of_facet. simpl.
  by destruct (hull_map gm !! 0%nat).
Qed.

Lemma single_point_is_the_tie_point_witness :
  find_tie_points insertion_sort single_minimizer binary_conditions
  = Some [hull_entry "GRAPHITE" [1] [("C"%string, 1)] (-2000)].
Proof.
  apply (single_point_is_the_tie_point insertion_sort Qhull_throws [1; -2000] 0.05
           (fun _ _ => 0) single_minimizer binary_conditions).
  - intros l. apply insertion_sort_contract.
  - reflexivity.
Defined.

(** ** The tie points of a facet *)

Lemma set_insert_elem k s x : x ∈ set_insert k s <-> x = k \/ x ∈ s.
Proof.
  induction s as [|y s IH]; simpl.
  - rewrite list_elem_of_singleton, elem_of_nil. tauto.
  - destruct (Nat.ltb_spec k y); [rewrite !elem_of_cons; tauto|].
    destruct (Nat.eqb_spec k y) as [->|Hne]; rewrite !elem_of_cons, ?IH; tauto.
Qed.

Lemma set_insert_sorted k s : StronglySorted lt s -> StronglySorted lt (set_insert k s).
Proof.
  induction 1 as [|y s Hs IH Hall]; simpl; [repeat constructor|].
  destruct (Nat.ltb_spec k y) as [Hlt|Hge].
  - constructor; [by constructor|]. constructor; [done|].
    eapply Forall_impl; [exact Hall|]. simpl. lia.
  - destruct (Nat.eqb_spec k y) as [->|Hne]; [by constructor|].
    constructor; [done|]. apply Forall_forall. intros x [->|Hx]%set_insert_elem; [lia|].
    rewrite Forall_forall in Hall. by apply Hall.
Qed.

Lemma sublist_sorted {A} (R : A -> A -> Prop) (l1 l2 : list A) :
  l1 `sublist_of` l2 -> StronglySorted R l2 -> StronglySorted R l1.
Proof.
  induction 1 as [|x l1 l2 Hsub IH|x l1 l2 Hsub IH]; intros Hs; [done| |].
  - apply StronglySorted_inv in Hs as [Hs Hall]. constructor; [by apply IH|].
    apply Forall_forall. intros y Hy. rewrite Forall_forall in Hall.
    apply Hall. by eapply elem_of_sublist.
  - apply StronglySorted_inv in Hs as [Hs _]. by apply IH.
Qed.

Lemma foldl_bind_None {A S} (f : A -> S -> option S) (l : list A) :
  foldl (fun acc b => s0 ← acc; f b s0) None l = None.
Proof. induction l as [|b l IH]; [done|]. simpl. exact IH. Qed.

Section TiePointFacts.
Variable hull : list HullEntry.
Variable cel : double.

Lemma accept_pair_ids point1_id point2_id candidate_ids candidate_ids' :
  accept_pair hull cel point1_id point2_id candidate_ids = Some candidate_ids' ->
  StronglySorted lt candidate_ids ->
  StronglySorted lt candidate_ids'
  /\ (forall id, id ∈ candidate_ids' ->
        id ∈ candidate_ids \/ id = point1_id \/ id = point2_id)
  /\ (forall id, id ∈ candidate_ids -> id ∈ candidate_ids').
Proof.
  unfold accept_pair. intros Hacc Hs.
  assert (Hins : StronglySorted lt (set_insert point2_id (set_insert point1_id candidate_ids))
                 /\ (forall id, id ∈ set_insert point2_id (set_insert point1_id candidate_ids) ->
                       id ∈ candidate_ids \/ id = point1_id \/ id = point2_id)
                 /\ (forall id, id ∈ candidate_ids ->
                       id ∈ set_insert point2_id (set_insert point1_id candidate_ids))).
  { split; [by do 2 apply set_insert_sorted|].
    split; intros id; rewrite !set_insert_elem; tauto. }
  destruct (hull !! point1_id) as [e1|]; [|done].
  destruct (hull !! point2_id) as [e2|]; [|done]. simpl in Hacc.
  destruct (negb (String.eqb (phase_name e1) (phase_name e2))).
  { by injection Hacc as <-. }
  destruct (internal_distance e1 e2) as [d|]; [|done]. simpl in Hacc.
  destruct (cel <? d); injection Hacc as <-; [done|]. split; [done|]. split; auto.
Qed.

Lemma accept_row_ids point1_id l : forall candidate_ids candidate_ids',
  foldl (fun acc b => s0 ← acc; accept_pair hull cel point1_id b s0) (Some candidate_ids) l
    = Some candidate_ids' ->
  StronglySorted lt candidate_ids ->
  StronglySorted lt candidate_ids'
  /\ (forall id, id ∈ candidate_ids' -> id ∈ candidate_ids \/ id = point1_id \/ id ∈ l)
  /\ (forall id, id ∈ candidate_ids -> id ∈ candidate_ids').
Proof.
  induction l as [|b l IH]; intros c c' Hfold Hs; simpl in Hfold.
  - injection Hfold as <-. split; [done|]. split; auto.
  - destruct (accept_pair hull cel point1_id b c) as [c1|] eqn:Hacc.
    + apply accept_pair_ids in Hacc as (Hs1 & Hin1 & Hsub1); [|done].
      apply IH in Hfold as (Hs' & Hin' & Hsub'); [|done].
      split; [done|]. split; [|auto].
      intros id Hid. destruct (Hin' id Hid) as [H1 | [-> | Hl] ].
      * destruct (Hin1 id H1) as [Hc | [-> | ->] ]; [by left|right; by left|].
        right; right. left.
      * right. by left.
      * right; right. by right.
    + simpl in Hfold. by rewrite foldl_bind_None in Hfold.
Qed.

Lemma for_each_pair_ids l : forall candidate_ids candidate_ids',
  for_each_pair (accept_pair hull cel) l candidate_ids = Some candidate_ids' ->
  StronglySorted lt candidate_ids ->
  StronglySorted lt candidate_ids'
  /\ (forall id, id ∈ candidate_ids' -> id ∈ candidate_ids \/ id ∈ l)
  /\ (forall id, id ∈ candidate_ids -> id ∈ candidate_ids').
Proof.
  induction l as [|a l IH]; intros c c' Hpairs Hs; simpl in Hpairs.
  - injection Hpairs as <-. split; [done|]. split; auto.
  - destruct (foldl _ (Some c) l) as [c1|] eqn:Hrow; [|done].
    rewrite option_bind_Some_l in Hpairs.
    apply accept_row_ids in Hrow as (Hs1 & Hin1 & Hsub1); [|done].
    apply IH in Hpairs as (Hs' & Hin' & Hsub'); [|done].
    split; [done|]. split; [|auto].
    intros id Hid. destruct (Hin' id Hid) as [H1|Hl].
    + destruct (Hin1 id H1) as [Hc | [-> | Hl] ]; [by left|right; left|right; by right].
    + right. by right.
Qed.

Lemma merge_from_sublist n : forall candidate_ids point1_id after_point2 j after_point1 i merged,
  merge_from hull cel n candidate_ids point1_id after_point2 j after_point1 i = Some merged ->
  merged `sublist_of` candidate_ids.
Proof.
  induction n as [|n IH]; intros ids p1 a2 j a1 i merged; simpl;
    destruct (outer_scan hull cel p1 a2 j a1 i) as [[k|]|]; simpl; try done;
    try (by intros [= <-]).
  - by destruct (delete k ids) as [|first [|second rest]].
  - destruct (delete k ids) as [|first [|second rest]] eqn:Hdel; [done|done|].
    intros Hm%IH. rewrite <- Hdel in Hm. etrans; [exact Hm|apply sublist_delete].
Qed.

(** The id the scans answer belongs to the phase of an id before it. *)
Lemma inner_scan_found point1_id rest : forall j k,
  inner_scan hull cel point1_id rest j = Some (Some k) ->
  (j <= k)%nat /\ exists point2_id,
    rest !! (k - j)%nat = Some point2_id /\ same_phase hull point1_id point2_id.
Proof.
  induction rest as [|point2_id rest IH]; intros j k; simpl; [done|].
  destruct (hull !! point1_id) as [e1|] eqn:H1; [|done]. simpl.
  destruct (hull !! point2_id) as [e2|] eqn:H2; [|done]. simpl.
  assert (Hnext : inner_scan hull cel point1_id rest (S j) = Some (Some k) ->
                  (j <= k)%nat /\ exists p2,
                    (point2_id :: rest) !! (k - j)%nat = Some p2
                    /\ same_phase hull point1_id p2).
  { intros (Hk & p2 & Hp2 & Hsame)%IH. split; [lia|]. exists p2. split; [|done].
    replace (k - j)%nat with (S (k - S j)) by lia. done. }
  destruct (String.eqb (phase_name e1) (phase_name e2)) eqn:Hphase; simpl; [|done].
  destruct (internal_distance e1 e2) as [d|]; [|done]. simpl.
  destruct (d <=? cel); [|done].
  intros [= <-]. split; [lia|]. exists point2_id. rewrite Nat.sub_diag. split; [done|].
  exists e1, e2. split; [done|]. split; [done|]. by apply String.eqb_eq.
Qed.

Lemma outer_scan_found candidate_ids after_point1 : forall point1_id after_point2 j i k,
  candidate_ids !! i = Some point1_id ->
  drop (S i) candidate_ids = after_point1 ->
  drop j candidate_ids = after_point2 ->
  (i < j)%nat ->
  outer_scan hull cel point1_id after_point2 j after_point1 i = Some (Some k) ->
  exists i' point1_id' point2_id,
    (i' < k)%nat /\ candidate_ids !! i' = Some point1_id'
    /\ candidate_ids !! k = Some point2_id /\ same_phase hull point1_id' point2_id.
Proof.
  induction after_point1 as [|p after IH]; intros p1 a2 j i k Hp1 Ha1 Ha2 Hij; simpl;
    destruct (inner_scan hull cel p1 a2 j) as [[k'|]|] eqn:Hin; simpl; try done.
  - intros [= <-]. apply inner_scan_found in Hin as (Hk & p2 & Hp2 & Hsame).
    exists i, p1, p2. split; [lia|]. split; [done|]. split; [|done].
    rewrite <- Ha2, lookup_drop in Hp2. by replace (j + (k' - j))%nat with k' in Hp2 by lia.
  - intros [= <-]. apply inner_scan_found in Hin as (Hk & p2 & Hp2 & Hsame).
    exists i, p1, p2. split; [lia|]. split; [done|]. split; [|done].
    rewrite <- Ha2, lookup_drop in Hp2. by replace (j + (k' - j))%nat with k' in Hp2 by lia.
  - apply IH; [| | |lia].
    + rewrite <- (Nat.add_0_r (S i)), <- lookup_drop, Ha1. done.
    + replace (S (S i)) with (S i + 1)%nat by lia. by rewrite <- drop_drop, Ha1.
    + replace (S (S i)) with (S i + 1)%nat by lia. by rewrite <- drop_drop, Ha1.
Qed.

Lemma same_phase_trans a b c : same_phase hull a b -> same_phase hull b c -> same_phase hull a c.
Proof.
  intros (ea & eb & Ha & Hb & Hab) (eb' & ec & Hb' & Hc & Hbc).
  exists ea, ec. split; [done|]. split; [done|]. congruence.
Qed.

Lemma elem_of_delete_or {A} (l : list A) (k : nat) (x : A) :
  x ∈ l -> l !! k = Some x \/ x ∈ delete k l.
Proof.
  intros [m Hm]%list_elem_of_lookup.
  destruct (lt_eq_lt_dec m k) as [ [Hlt | ->] | Hgt].
  - right. apply list_elem_of_lookup. exists m. by rewrite list_lookup_delete_lt.
  - by left.
  - right. apply list_elem_of_lookup. exists (m - 1)%nat.
    rewrite list_lookup_delete_ge by lia. by replace (S (m - 1)) with m by lia.
Qed.

(** An erasure leaves the first id in place, and every id erased belongs to
    the phase of an id that stays. *)
Lemma merge_from_phases n :
  forall candidate_ids point1_id after_point2 j after_point1 i merged,
  candidate_ids !! i = Some point1_id ->
  drop (S i) candidate_ids = after_point1 ->
  drop j candidate_ids = after_point2 ->
  (i < j)%nat ->
  merge_from hull cel n candidate_ids point1_id after_point2 j after_point1 i = Some merged ->
  head merged = head candidate_ids
  /\ forall id, id ∈ candidate_ids ->
       id ∈ merged \/ exists id', id' ∈ merged /\ same_phase hull id' id.
Proof.
  induction n as [|n IH]; intros ids p1 a2 j a1 i merged Hp1 Ha1 Ha2 Hij; simpl;
    destruct (outer_scan hull cel p1 a2 j a1 i) as [[k|]|] eqn:Hscan; simpl; try done;
    try (intros [= <-]; split; [done|]; by left).
  - by destruct (delete k ids) as [|first [|second rest]].
  - destruct (delete k ids) as [|first [|second rest]] eqn:Hdel; [done|done|].
    intros Hm. apply IH in Hm as [Hhead Hids]; [|done|done|done|lia].
    apply outer_scan_found with (candidate_ids := ids) in Hscan
      as (i' & p1' & p2 & Hi' & Hp1' & Hp2 & Hsame); [|done|done|done|done].
    split.
    + rewrite Hhead, <- Hdel, !head_lookup. apply list_lookup_delete_lt. lia.
    + assert (Hkeep : forall id, id ∈ delete k ids ->
                        id ∈ merged \/ exists id', id' ∈ merged /\ same_phase hull id' id).
      { intros id Hid. rewrite Hdel in Hid. by apply Hids. }
      intros id [Hk|Hid]%(elem_of_delete_or _ k); [|by apply Hkeep].
      rewrite Hp2 in Hk. injection Hk as ->. right.
      assert (Hin : p1' ∈ delete k ids).
      { apply list_elem_of_lookup. exists i'. by rewrite list_lookup_delete_lt. }
      destruct (Hkeep p1' Hin) as [Hm|(id' & Hid' & Hsame')].
      * by exists p1'.
      * exists id'. split; [done|]. by eapply same_phase_trans.
Qed.

End TiePointFacts.

(** X14: the tie points [find_tie_points] extracts from a facet are the
    entries of the hull map for ids that are vertices of the facet, by
    ascending id, each id once; at least one point is returned. *)
Theorem tie_points_are_vertices_in_id_order
    (hull : list HullEntry) (cel : double) (facet : SimplicialFacet)
    (res : list HullEntry) :
  tie_points_of_facet hull cel facet = Some res ->
  exists ids,
    ids <> [] /\ StronglySorted lt ids
    /\ (forall id, id ∈ ids -> id ∈ vertices facet)
    /\ Forall2 (fun id point_entry => hull !! id = Some point_entry) ids res.
Proof.
  unfold tie_points_of_facet.
  destruct (for_each_pair _ _ _) as [candidate_ids|] eqn:Hpairs; [|done].
  rewrite option_bind_Some_l.
  apply for_each_pair_ids in Hpairs as (Hs & Hin & _); [|constructor].
  destruct (merge_tie_points hull cel candidate_ids) as [merged|] eqn:Hmerge; [|done].
  rewrite option_bind_Some_l.
  assert (Hsub : merged `sublist_of` candidate_ids).
  { unfold merge_tie_points in Hmerge. destruct candidate_ids as [|first rest].
    - by injection Hmerge as <-.
    - by eapply merge_from_sublist. }
  destruct merged as [|m merged]; simpl.
  - destruct (vertices facet) as [|first_vertex vs]; [done|]. simpl.
    intros Hres. exists [first_vertex]. split; [done|]. split; [repeat constructor|].
    split; [|by apply mapM_Some].
    intros id ->%list_elem_of_singleton. left.
  - intros Hres. exists (m :: merged). split; [done|].
    split; [by eapply sublist_sorted|]. split; [|by apply mapM_Some].
    intros id Hid. destruct (Hin id); [by eapply elem_of_sublist| |done].
    by apply elem_of_nil in H.
Qed.

Lemma tie_points_are_vertices_in_id_order_witness :
  exists ids,
    ids <> [] /\ StronglySorted lt ids
    /\ (forall id, id ∈ ids -> id ∈ vertices tie_first_facet)
    /\ Forall2 (fun id point_entry => tie_hull_map !! id = Some point_entry) ids
         [ hull_entry "ALPHA" [1; 0] [("A"%string, 1); ("B"%string, 0)] 0;
           hull_entry "GAMMA" [0.5; 0.5] [("A"%string, 0.5); ("B"%string, 0.5)] (-1) ].
Proof.
  apply (tie_points_are_vertices_in_id_order tie_hull_map 0.05 tie_first_facet).
  vm_compute. reflexivity.
Defined.

(** X15: the merge step never removes the last tie point of a phase: for
    every candidate id that the pair loop has accepted, a point of the same
    phase is among the points returned. *)
Theorem tie_points_keep_every_phase
    (hull : list HullEntry) (cel : double) (facet : SimplicialFacet)
    (candidate_ids : list nat) (res : list HullEntry) :
  for_each_pair (accept_pair hull cel) (vertices facet) [] = Some candidate_ids ->
  tie_points_of_facet hull cel facet = Some res ->
  forall id point_entry,
    id ∈ candidate_ids -> hull !! id = Some point_entry ->
    exists kept_entry, kept_entry ∈ res /\ phase_name kept_entry = phase_name point_entry.
Proof.
  unfold tie_points_of_facet. intros ->. rewrite option_bind_Some_l.
  destruct (merge_tie_points hull cel candidate_ids) as [merged|] eqn:Hmerge; [|done].
  rewrite option_bind_Some_l. intros Hres id point_entry Hid Hentry.
  destruct candidate_ids as [|first rest]; [by apply elem_of_nil in Hid|].
  unfold merge_tie_points in Hmerge.
  apply merge_from_phases in Hmerge as [Hhead Hkeep]; [|done|done|done|lia].
  destruct merged as [|m merged]; [done|]. cbn [length Nat.eqb] in Hres.
  apply mapM_Some in Hres.
  assert (Hlook : forall id', id' ∈ m :: merged ->
                    exists e, hull !! id' = Some e /\ e ∈ res).
  { intros id' [k Hk]%list_elem_of_lookup.
    destruct (Forall2_lookup_l _ _ _ _ _ Hres Hk) as (e & He & Hhull).
    exists e. split; [done|]. by eapply list_elem_of_lookup_2. }
  destruct (Hkeep id Hid) as [Hin|(id' & Hin & e1 & e2 & H1 & H2 & Hphase)].
  - destruct (Hlook id Hin) as (e & He & Hr). exists e. split; [done|]. congruence.
  - destruct (Hlook id' Hin) as (e & He & Hr). exists e. split; [done|]. congruence.
Qed.

Lemma tie_points_keep_every_phase_witness :
  exists kept_entry,
    kept_entry ∈ [ hull_entry "ALPHA" [0.50; 0.30; 0.20]
                     [("A"%string, 0.50); ("B"%string, 0.30); ("C"%string, 0.20);
                      ("D"%string, 0)] (-900);
                   hull_entry "ALPHA" [0.51; 0.31; 0.18]
                     [("A"%string, 0.51); ("B"%string, 0.31); ("C"%string, 0.18);
                      ("D"%string, 0)] (-902);
                   hull_entry "BETA" [0; 1]
                     [("A"%string, 0); ("B"%string, 0); ("C"%string, 0); ("D"%string, 1)]
                     (-500) ]
    /\ phase_name kept_entry
       = phase_name (hull_entry "ALPHA" [0.52; 0.29; 0.19]
                       [("A"%string, 0.52); ("B"%string, 0.29); ("C"%string, 0.19);
                        ("D"%string, 0)] (-901)).
Proof.
  apply (tie_points_keep_every_phase quaternary_hull_map 0.05 quaternary_facet
           [0%nat; 1%nat; 2%nat; 3%nat]) with (id := 1%nat).
  - vm_compute. reflexivity.
  - vm_compute. reflexivity.
  - right. left.
  - reflexivity.
Defined.

(** ** Facets of one phase and facets of many phases *)

Section PairFacts.
Variable hull : list HullEntry.
Variable cel : double.

Lemma accept_row_close point1_id l : forall candidate_ids,
  Forall (close_pair hull cel point1_id) l ->
  foldl (fun acc b => s0 ← acc; accept_pair hull cel point1_id b s0) (Some candidate_ids) l
  = Some candidate_ids.
Proof.
  induction l as [|b l IH]; intros c Hall; simpl; [done|].
  apply Forall_cons in Hall as [(e1 & e2 & d & H1 & H2 & Hphase & Hd & Hfar) Hall].
  unfold accept_pair at 2. rewrite H1, H2. simpl.
  rewrite Hphase, String.eqb_refl. simpl. rewrite Hd. simpl. rewrite Hfar.
  by apply IH.
Qed.

Lemma for_each_pair_close l : forall candidate_ids,
  StronglySorted (close_pair hull cel) l ->
  for_each_pair (accept_pair hull cel) l candidate_ids = Some candidate_ids.
Proof.
  induction l as [|a l IH]; intros c Hs; simpl; [done|].
  apply StronglySorted_inv in Hs as [Hs Hall].
  rewrite accept_row_close by done. rewrite option_bind_Some_l. by apply IH.
Qed.

Lemma set_insert_present k s : StronglySorted lt s -> k ∈ s -> set_insert k s = s.
Proof.
  induction 1 as [|y s Hs IH Hall]; intros Hk; [by apply elem_of_nil in Hk|]. simpl.
  rewrite Forall_forall in Hall.
  apply elem_of_cons in Hk as [->|Hk].
  - rewrite Nat.ltb_irrefl, Nat.eqb_refl. done.
  - specialize (Hall k Hk). destruct (Nat.ltb_spec k y); [lia|].
    destruct (Nat.eqb_spec k y); [lia|]. by rewrite IH.
Qed.

Lemma accept_pair_tie point1_id point2_id candidate_ids :
  tie_pair hull cel point1_id point2_id ->
  accept_pair hull cel point1_id point2_id candidate_ids
  = Some (set_insert point2_id (set_insert point1_id candidate_ids)).
Proof.
  intros (e1 & e2 & H1 & H2 & Hpair). unfold accept_pair. rewrite H1, H2. simpl.
  destruct (String.eqb (phase_name e1) (phase_name e2)) eqn:Hphase; [|done]. simpl.
  destruct Hpair as [Hne|(d & Hd & Hfar)].
  - by apply String.eqb_eq in Hphase.
  - by rewrite Hd, option_bind_Some_l, Hfar.
Qed.

(** A row of the pair loop over ids that each make a tie pair with the
    first id adds the first id and the ids of the row. *)
Lemma accept_row_tie point1_id l : forall candidate_ids,
  Forall (tie_pair hull cel point1_id) l -> l <> [] ->
  StronglySorted lt candidate_ids ->
  exists candidate_ids',
    foldl (fun acc b => s0 ← acc; accept_pair hull cel point1_id b s0) (Some candidate_ids) l
      = Some candidate_ids'
    /\ StronglySorted lt candidate_ids'
    /\ forall id, id ∈ candidate_ids' <-> id ∈ candidate_ids \/ id = point1_id \/ id ∈ l.
Proof.
  induction l as [|b l IH]; intros c Hall Hne Hs; [done|]. simpl.
  apply Forall_cons in Hall as [Hb Hall].
  rewrite accept_pair_tie by done.
  set (c1 := set_insert b (set_insert point1_id c)).
  assert (Hs1 : StronglySorted lt c1) by (by do 2 apply set_insert_sorted).
  assert (Hin1 : forall id, id ∈ c1 <-> id ∈ c \/ id = point1_id \/ id = b).
  { intros id. unfold c1. rewrite !set_insert_elem. tauto. }
  destruct l as [|b' l].
  - exists c1. split; [done|]. split; [done|]. intros id.
    rewrite Hin1, list_elem_of_singleton. tauto.
  - destruct (IH c1 Hall) as (c' & Hfold & Hs' & Hin'); [done|done|].
    exists c'. split; [done|]. split; [done|]. intros id.
    rewrite Hin', Hin1, (elem_of_cons (b' :: l)). tauto.
Qed.

Lemma accept_row_present point1_id l : forall candidate_ids,
  Forall (tie_pair hull cel point1_id) l ->
  StronglySorted lt candidate_ids ->
  point1_id ∈ candidate_ids -> (forall id, id ∈ l -> id ∈ candidate_ids) ->
  foldl (fun acc b => s0 ← acc; accept_pair hull cel point1_id b s0) (Some candidate_ids) l
  = Some candidate_ids.
Proof.
  induction l as [|b l IH]; intros c Hall Hs Hp1 Hl; [done|]. simpl.
  apply Forall_cons in Hall as [Hb Hall].
  rewrite accept_pair_tie by done.
  rewrite (set_insert_present point1_id c) by done.
  rewrite (set_insert_present b c) by (done || apply Hl; left).
  apply IH; [done|done|done|]. intros id Hid. apply Hl. by right.
Qed.

Lemma for_each_pair_present l : forall candidate_ids,
  StronglySorted (tie_pair hull cel) l ->
  StronglySorted lt candidate_ids ->
  (forall id, id ∈ l -> id ∈ candidate_ids) ->
  for_each_pair (accept_pair hull cel) l candidate_ids = Some candidate_ids.
Proof.
  induction l as [|a l IH]; intros c Hd Hs Hl; simpl; [done|].
  apply StronglySorted_inv in Hd as [Hd Hall].
  rewrite accept_row_present; [|done|done|apply Hl; left|intros id Hid; apply Hl; by right].
  rewrite option_bind_Some_l. apply IH; [done|done|]. intros id Hid. apply Hl. by right.
Qed.

Lemma for_each_pair_cons {A S} (f : A -> A -> S -> option S) (a : A) (l : list A) (s : S) :
  for_each_pair f (a :: l) s
  = s' ← foldl (fun acc b => s0 ← acc; f a b s0) (Some s) l; for_each_pair f l s'.
Proof. done. Qed.

(** With two ids or more, every one a tie pair with every later one, the
    pair loop accepts every id. *)
Lemma for_each_pair_tie first second rest :
  StronglySorted (tie_pair hull cel) (first :: second :: rest) ->
  exists candidate_ids,
    for_each_pair (accept_pair hull cel) (first :: second :: rest) [] = Some candidate_ids
    /\ StronglySorted lt candidate_ids
    /\ forall id, id ∈ candidate_ids <-> id ∈ first :: second :: rest.
Proof.
  intros Hd. pose proof Hd as Hd'. apply StronglySorted_inv in Hd' as [Hrest Hall].
  destruct (accept_row_tie first (second :: rest) [] Hall) as (c & Hrow & Hs & Hin);
    [done|constructor|].
  exists c. rewrite for_each_pair_cons, Hrow, option_bind_Some_l.
  split; [|split; [done|]].
  - apply for_each_pair_present; [done|done|]. intros id Hid. apply Hin. auto.
  - intros id. rewrite Hin, (elem_of_cons (second :: rest)), elem_of_nil. tauto.
Qed.

(** The merge step erases no id of a tie pair: a distance greater than the
    critical edge length is not less than or equal to it. *)
Lemma inner_scan_tie point1_id rest : forall j,
  Forall (tie_pair hull cel point1_id) rest ->
  inner_scan hull cel point1_id rest j = Some None.
Proof.
  induction rest as [|point2_id rest IH]; intros j Hall; simpl; [done|].
  apply Forall_cons in Hall as [(e1 & e2 & H1 & H2 & Hpair) Hall].
  rewrite H1, H2. simpl.
  destruct (String.eqb (phase_name e1) (phase_name e2)) eqn:Hphase; simpl; [|by apply IH].
  destruct Hpair as [Hne|(d & Hd & Hfar)].
  - by apply String.eqb_eq in Hphase.
  - rewrite Hd, option_bind_Some_l, (ltb_not_leb _ _ Hfar). by apply IH.
Qed.

Lemma outer_scan_tie after_point1 : forall point1_id after_point2 j i,
  Forall (tie_pair hull cel point1_id) after_point2 ->
  StronglySorted (tie_pair hull cel) after_point1 ->
  outer_scan hull cel point1_id after_point2 j after_point1 i = Some None.
Proof.
  induction after_point1 as [|p after IH]; intros p1 a2 j i Hall Hs; simpl;
    rewrite inner_scan_tie by done; simpl; [done|].
  apply StronglySorted_inv in Hs as [Hs Hp]. by apply IH.
Qed.

(** Ids taken from vertices that are tie pairs in both orders are tie
    pairs in ascending order. *)
Lemma tie_pair_sorted (vs ids : list nat) :
  StronglySorted (fun a b => tie_pair hull cel a b /\ tie_pair hull cel b a) vs ->
  StronglySorted lt ids -> (forall id, id ∈ ids -> id ∈ vs) ->
  StronglySorted (tie_pair hull cel) ids.
Proof.
  intros Hvs Hids Hsub.
  assert (Hpair : forall a b, a ∈ vs -> b ∈ vs -> a <> b -> tie_pair hull cel a b).
  { clear ids Hids Hsub. induction Hvs as [|v vs Hs IH Hall]; intros a b Ha Hb Hne.
    - by apply elem_of_nil in Ha.
    - rewrite Forall_forall in Hall.
      apply elem_of_cons in Ha as [->|Ha]; apply elem_of_cons in Hb as [->|Hb].
      + done.
      + by apply Hall.
      + by apply Hall.
      + by apply IH. }
  induction Hids as [|id ids Hs IH Hall]; [constructor|].
  constructor.
  - apply IH. intros x Hx. apply Hsub. by right.
  - apply Forall_forall. intros x Hx. rewrite Forall_forall in Hall.
    apply Hpair; [apply Hsub; left|apply Hsub; by right|]. specialize (Hall x Hx). lia.
Qed.

End PairFacts.

(** X16: when all vertices of the facet belong to one phase and no two of
    them lie further apart than the critical edge length, the pair loop
    accepts nothing, and the point returned is the entry of the first
    vertex of the facet (not of the vertex with the lowest id). Without
    vertices, or without an entry for the first vertex, the program reads
    outside a container. *)
Theorem close_vertices_give_first_vertex
    (hull : list HullEntry) (cel : double) (facet : SimplicialFacet) :
  StronglySorted (close_pair hull cel) (vertices facet) ->
  tie_points_of_facet hull cel facet
  = (first_vertex ← head (vertices facet);
     point_entry ← hull !! first_vertex;
     Some [point_entry]).
Proof.
  intros Hclose. unfold tie_points_of_facet.
  rewrite for_each_pair_close by done. rewrite option_bind_Some_l. simpl.
  destruct (head (vertices facet)) as [first_vertex|]; [|done]. simpl.
  by destruct (hull !! first_vertex).
Qed.

Lemma close_vertices_give_first_vertex_witness :
  tie_points_of_facet quaternary_hull_map 0.05 near_facet
  = Some [ hull_entry "ALPHA" [0.52; 0.29; 0.19]
             [("A"%string, 0.52); ("B"%string, 0.29); ("C"%string, 0.19); ("D"%string, 0)]
             (-901) ].
Proof.
  apply (close_vertices_give_first_vertex quaternary_hull_map 0.05 near_facet).
  repeat (constructor;
          [|repeat (constructor; [do 3 eexists; repeat split; vm_compute; reflexivity|]);
            constructor]).
  constructor.
Defined.

(** X17: when the facet has two vertices or more and every two of them,
    in either order, belong to different phases or lie further apart than
    the critical edge length, every vertex is a tie point: the points
    returned are the entries of all vertices, by ascending id, and the merge
    step removes nothing. *)
Theorem separated_vertices_are_all_tie_points
    (hull : list HullEntry) (cel : double) (facet : SimplicialFacet) :
  (2 <= length (vertices facet))%nat ->
  StronglySorted (fun a b => tie_pair hull cel a b /\ tie_pair hull cel b a)
    (vertices facet) ->
  exists ids res,
    tie_points_of_facet hull cel facet = Some res
    /\ StronglySorted lt ids
    /\ (forall id, id ∈ ids <-> id ∈ vertices facet)
    /\ Forall2 (fun id point_entry => hull !! id = Some point_entry) ids res.
Proof.
  intros Hlen Hboth. destruct (vertices facet) as [|first [|second rest]] eqn:Hvs;
    [simpl in Hlen; lia|simpl in Hlen; lia|].
  assert (Hd : StronglySorted (tie_pair hull cel) (first :: second :: rest)).
  { clear -Hboth. induction Hboth as [|v vs Hs IH Hall]; constructor; [done|].
    eapply Forall_impl; [exact Hall|]. by intros b [Hb _]. }
  destruct (for_each_pair_tie hull cel first second rest Hd) as (ids & Hpairs & Hs & Hin).
  assert (Hdi : StronglySorted (tie_pair hull cel) ids).
  { eapply tie_pair_sorted; [exact Hboth|done|]. intros id. apply Hin. }
  assert (Hentries : exists res, mapM (fun point_id => hull !! point_id) ids = Some res).
  { apply mapM_is_Some, Forall_forall. intros id Hid. apply Hin in Hid.
    apply StronglySorted_inv in Hd as [Hd' Hall]. rewrite Forall_forall in Hall.
    apply elem_of_cons in Hid as [->|Hid].
    - destruct (Hall second) as (e1 & _ & H1 & _); [left|]. by exists e1.
    - destruct (Hall id Hid) as (_ & e2 & _ & H2 & _). by exists e2. }
  destruct Hentries as [res Hres].
  exists ids, res. unfold tie_points_of_facet. rewrite Hvs, Hpairs, option_bind_Some_l.
  assert (Hmerge : merge_tie_points hull cel ids = Some ids).
  { unfold merge_tie_points. destruct ids as [|id ids']; [done|].
    apply StronglySorted_inv in Hdi as [Hdi' Hall].
    destruct (length (id :: ids')); simpl; rewrite outer_scan_tie by done; done. }
  rewrite Hmerge, option_bind_Some_l.
  assert (Hpos : (length ids =? 0)%nat = false).
  { apply Nat.eqb_neq. destruct ids; [|done].
    assert (Hf : first ∈ ([] : list nat)) by (apply Hin; left). by apply elem_of_nil in Hf. }
  rewrite Hpos, option_bind_Some_l. split; [done|]. split; [done|]. split; [done|].
  by apply mapM_Some.
Qed.

Lemma separated_vertices_are_all_tie_points_witness :
  exists ids res,
    tie_points_of_facet binary_hull_map 0.05 mixed_facet = Some res
    /\ StronglySorted lt ids
    /\ (forall id, id ∈ ids <-> id ∈ vertices mixed_facet)
    /\ Forall2 (fun id point_entry => binary_hull_map !! id = Some point_entry) ids res.
Proof.
  apply (separated_vertices_are_all_tie_points binary_hull_map 0.05 mixed_facet).
  - simpl. lia.
  - assert (H01 : tie_pair binary_hull_map 0.05 0 1).
    { do 2 eexists. split; [reflexivity|]. split; [reflexivity|]. right.
      eexists. split; vm_compute; reflexivity. }
    assert (H10 : tie_pair binary_hull_map 0.05 1 0).
    { do 2 eexists. split; [reflexivity|]. split; [reflexivity|]. right.
      eexists. split; vm_compute; reflexivity. }
    assert (Hd : forall a b, (a = 2%nat /\ (b = 0%nat \/ b = 1%nat))
                             \/ (b = 2%nat /\ (a = 0%nat \/ a = 1%nat)) ->
                   tie_pair binary_hull_map 0.05 a b).
    { intros a b [[-> [->| ->]]|[-> [->| ->]]];
        (do 2 eexists; split; [reflexivity|]; split; [reflexivity|]; left; discriminate). }
    unfold mixed_facet. cbn [vertices].
    repeat constructor; auto 6.
Defined.

(** ** The order of the facets *)

(** X18: the comparison [find_tie_points] passes to [std::sort], the order
    of the facets by area, is a strict weak ordering on every range of
    facets none of whose areas is a NaN: what [std::sort] requires of its
    comparison is met. *)
Theorem facet_area_order_meets_sort_requirement (facets : list SimplicialFacet) :
  Forall (fun facet => is_nan (area facet) = false) facets ->
  strict_weak_ordering_on facet_area_comparator facets = true.
Proof.
  intros Hnan. rewrite Forall_forall in Hnan.
  assert (Hin : forall facet, In facet facets -> is_nan (area facet) = false).
  { intros facet Hf. by apply Hnan, list_elem_of_In. }
  unfold strict_weak_ordering_on, irreflexive_on, transitive_on, equiv_transitive_on,
    facet_area_comparator.
  rewrite !andb_true_iff. split; [split|].
  - apply forallb_forall. intros a _. by rewrite ltb_irrefl.
  - apply forallb_forall. intros a _. apply forallb_forall. intros b _.
    apply forallb_forall. intros c _.
    destruct (area a <? area b) eqn:Hab; [|done].
    destruct (area b <? area c) eqn:Hbc; [|done]. simpl.
    by rewrite (ltb_trans _ _ _ Hab Hbc).
  - apply forallb_forall. intros a Ha. apply forallb_forall. intros b Hb.
    apply forallb_forall. intros c Hc.
    destruct (area a <? area b) eqn:Hab; [done|].
    destruct (area b <? area a) eqn:Hba; [done|].
    destruct (area b <? area c) eqn:Hbc; [done|].
    destruct (area c <? area b) eqn:Hcb; [done|]. simpl.
    destruct (ltb_equiv_trans (area a) (area b) (area c)) as [Hac Hca]; auto.
    by rewrite Hac, Hca.
Qed.

Lemma facet_area_order_meets_sort_requirement_witness :
  strict_weak_ordering_on facet_area_comparator [tie_first_facet; tie_second_facet] = true.
Proof.
  apply (facet_area_order_meets_sort_requirement [tie_first_facet; tie_second_facet]).
  repeat constructor.
Defined.

(** ** The other evaluation functions of the composition set *)

(** X19: what [evaluate_internal_objective_gradient] returns: one
    component for each phase index, and component [k] is the central
    difference for coordinate [k] taken at [x] with the coordinates before
    [k] raised by the perturbation. Only the first component is the central
    difference at [x] itself; coordinates of [x] beyond the phase indices
    are not read. *)
Theorem internal_gradient_differences_at_raised_points
    (process_utree : utree -> evalconditions -> bimap -> ASTSymbolMap -> vec -> option double)
    (cs : CompositionSet) (conditions : evalconditions) (x g : vec) :
  evaluate_internal_objective_gradient process_utree cs conditions x = Some g ->
  let size := length (phase_indices cs) in
  length g = size
  /\ (forall k, (k < size)%nat ->
        g !! k = central_difference process_utree cs conditions
                   (raised_before k (take size x)) k)
  /\ ((0 < size)%nat ->
        g !! 0%nat = central_difference process_utree cs conditions (take size x) 0).
Proof.
  intros Hg size. apply evaluate_internal_objective_gradient_spec in Hg as [Hlen Hk].
  split; [done|]. split; [done|]. intros Hpos. rewrite (Hk 0%nat Hpos).
  unfold raised_before. by rewrite take_0, drop_0.
Qed.

Lemma internal_gradient_differences_at_raised_points_witness :
  let g := [ ((0.5 + perturbation) * 0.5 - (0.5 - perturbation) * 0.5) / (2 * perturbation);
             ((0.5 + perturbation) * (0.5 + perturbation)
                - (0.5 + perturbation) * (0.5 - perturbation)) / (2 * perturbation) ] in
  let size := length (phase_indices product_set) in
  length g = size
  /\ (forall k, (k < size)%nat ->
        g !! k = central_difference (process_utree_model arithmetic_only) product_set
                   binary_conditions (raised_before k (take size [0.5; 0.5])) k)
  /\ ((0 < size)%nat ->
        g !! 0%nat = central_difference (process_utree_model arithmetic_only) product_set
                       binary_conditions (take size [0.5; 0.5]) 0).
Proof.
  apply (internal_gradient_differences_at_raised_points
           (process_utree_model arithmetic_only) product_set binary_conditions [0.5; 0.5]).
  vm_compute. reflexivity.
Defined.

Section Contributions.
Variable contribution : ast_entry -> option (Z * double).
Variable step : gmap Z float -> ast_entry -> option (gmap Z float).
Hypothesis step_spec : forall retmap entry,
  step retmap entry
  = kc ← contribution entry;
    Some (<[fst kc := default 0 (retmap !! fst kc) + snd kc]> retmap).
Variable main_indices : bimap.
Hypothesis contribution_index : forall entry k c,
  contribution entry = Some (k, c) -> k ∈ map snd main_indices.

Lemma foldl_contributions (entries : list ast_entry) : forall retmap,
  foldl (fun acc entry => m ← acc; step m entry) (Some retmap) entries
  = contributions ← mapM contribution entries;
    Some (add_contributions retmap contributions).
Proof.
  induction entries as [|e entries IH]; intros retmap; simpl; [done|].
  rewrite step_spec. destruct (contribution e) as [kc|]; simpl.
  - rewrite IH. by destruct (mapM contribution entries).
  - apply foldl_bind_None.
Qed.

Lemma gradient_from_contributions (entries : list ast_entry) :
  foldl (fun acc entry => m ← acc; step m entry)
        (Some (foldl (fun m i => <[snd i := 0]> m) ∅ main_indices)) entries
  = contributions ← mapM contribution entries;
    Some (gradient_of_contributions main_indices contributions).
Proof.
  rewrite foldl_contributions.
  destruct (mapM contribution entries) as [contributions|] eqn:Hm; [|done].
  simpl. f_equal. apply map_eq. intros k.
  rewrite add_contributions_lookup, zero_gradient_lookup, gradient_of_contributions_lookup.
  rewrite lookup_empty.
  destruct (decide (k ∈ map snd main_indices)) as [Hin|Hnin]; simpl.
  - by destruct (contributions_to k contributions).
  - assert (Hnone : contributions_to k contributions = []); [|by rewrite Hnone].
    apply mapM_Some in Hm. clear -Hm Hnin contribution_index.
    induction Hm as [|e [k' c] entries contributions He _ IH]; [done|].
    rewrite contributions_to_cons, IH.
    apply contribution_index in He.
    case_decide as Hk; [|done]. by subst.
Qed.

End Contributions.

(** X20: the single-phase gradient has one entry for every index of the
    index map: the sum, added up from [0] in the order of the trees, of the
    values of the first-derivative trees for that index. No value is
    multiplied by a phase fraction, and [x[_FRAC]] is not read: the result
    is returned exactly when every tree can be evaluated and its variable
    has an index. *)
Theorem single_phase_gradient_sums_plain_derivatives
    (process_utree : utree -> evalconditions -> bimap -> ASTSymbolMap -> vec -> option double)
    (cs : CompositionSet) (conditions : evalconditions) (main_indices : bimap) (x : vec) :
  evaluate_single_phase_objective_gradient process_utree cs conditions main_indices x
  = contributions ← mapM (plain_derivative process_utree cs conditions main_indices x)
                        (derivative_trees 1 cs);
    Some (gradient_of_contributions main_indices contributions).
Proof.
  unfold evaluate_single_phase_objective_gradient.
  apply (gradient_from_contributions
           (plain_derivative process_utree cs conditions main_indices x)
           (fun m entry =>
              accumulate_single_phase_derivative process_utree cs conditions main_indices x
                m entry)).
  - intros retmap entry. unfold accumulate_single_phase_derivative, plain_derivative.
    destruct (process_utree _ _ _ _ _) as [diffvalue|]; [|done]. simpl.
    destruct (head (diffvars entry)) as [diffvar|]; [|done]. simpl.
    by destruct (bimap_at main_indices diffvar).
  - intros entry k c. unfold plain_derivative.
    destruct (process_utree _ _ _ _ _) as [diffvalue|]; [|done]. simpl.
    destruct (head (diffvars entry)) as [diffvar|]; [|done]. simpl.
    destruct (bimap_at main_indices diffvar) as [varindex|] eqn:Hat; [|done]. simpl.
    intros [= <- _]. by eapply bimap_at_elem.
Qed.

Lemma fictitious_indices_from (variables : list (string * double)) :
  forall (offset : nat) (before : vec) (name : string),
  length before = offset ->
  (index ← bimap_at (imap (fun i variable => (fst variable, Z.of_nat (offset + i))) variables)
             name;
   array_at (before ++ variable_array variables) index)
  = variable_at variables name.
Proof.
  induction variables as [|[key value] variables IH]; intros offset before name Hlen;
    [done|].
  cbn [imap bimap_at variable_at fst]. destruct (String.eqb key name).
  - rewrite option_bind_Some_l. unfold array_at.
    destruct (Z.ltb_spec (Z.of_nat (offset + 0)) 0); [lia|].
    rewrite Nat2Z.id, Nat.add_0_r, lookup_app_r by lia.
    by rewrite Hlen, Nat.sub_diag.
  - rewrite <- (IH (S offset) (before ++ [value]) name)
      by (rewrite length_app; simpl; lia).
    unfold variable_array. cbn [map snd]. rewrite <- app_assoc. cbn [app].
    f_equal. f_equal. apply imap_ext. intros i variable _. simpl. do 2 f_equal. lia.
Qed.

(** X21: the overloads that take the variables as a map bind every name to
    its own value: looking a name up in the indices they make up and
    reading the array they fill at that index gives the value the map holds
    for the name, and fails for a name the map does not hold. *)
Theorem variable_map_round_trip (variables : list (string * double)) (name : string) :
  (index ← bimap_at (fictitious_indices variables) name;
   array_at (variable_array variables) index)
  = variable_at variables name.
Proof. exact (fictitious_indices_from variables 0 [] name eq_refl). Qed.

(** ** The Hessian and its sparsity structure *)

Lemma zero_hessian_row_lookup (i : Z) (indices : bimap) :
  forall (retmap : gmap (list Z) float) (key : list Z),
  (is_Some (zero_hessian_row i retmap indices !! key)
   <-> is_Some (retmap !! key)
       \/ exists j, j ∈ map snd indices /\ key = [i; j] /\ (i <= j)%Z)
  /\ ((forall k v, retmap !! k = Some v -> v = 0) ->
      forall v, zero_hessian_row i retmap indices !! key = Some v -> v = 0).
Proof.
  unfold zero_hessian_row.
  induction indices as [|[name j] indices IH]; intros retmap key; simpl.
  - split; [|by eauto]. split; [by left|]. intros [H|(j & Hj & _)]; [done|].
    by apply elem_of_nil in Hj.
  - destruct (IH (if (i >? j)%Z then retmap else <[[i; j] := 0]> retmap) key) as [Hdom Hzero].
    split.
    + rewrite Hdom. destruct (Z.gtb_spec i j) as [Hgt|Hle].
      * split; (intros [H|(j' & Hj' & -> & Hle)]; [by left|right]); exists j'.
        -- split; [by right|done].
        -- apply elem_of_cons in Hj' as [->|Hj']; [lia|done].
      * rewrite lookup_insert_is_Some. split.
        -- intros [[<-|[_ H]]|(j' & Hj' & -> & Hle')].
           ++ right. exists j. split; [left|done].
           ++ by left.
           ++ right. exists j'. split; [by right|done].
        -- intros [H|(j' & Hj' & -> & Hle')].
           ++ left. destruct (decide ([i; j] = key)); [by left|right; done].
           ++ apply elem_of_cons in Hj' as [->|Hj']; [left; by left|].
              right. by exists j'.
    + intros Hall. apply Hzero. destruct (i >? j)%Z; [done|].
      intros k v. destruct (decide ([i; j] = k)) as [<-|Hne].
      * rewrite lookup_insert_eq. by intros [= <-].
      * rewrite lookup_insert_ne by done. apply Hall.
Qed.

Lemma zero_hessian_rows_lookup (main_indices rows : bimap) :
  forall (retmap : gmap (list Z) float) (key : list Z),
  (is_Some (foldl (fun m i => zero_hessian_row (snd i) m main_indices) retmap rows !! key)
   <-> is_Some (retmap !! key)
       \/ exists i j, i ∈ map snd rows /\ j ∈ map snd main_indices
                      /\ key = [i; j] /\ (i <= j)%Z)
  /\ ((forall k v, retmap !! k = Some v -> v = 0) ->
      forall v, foldl (fun m i => zero_hessian_row (snd i) m main_indices) retmap rows !! key
                = Some v -> v = 0).
Proof.
  induction rows as [|[name i] rows IH]; intros retmap key; simpl.
  - split; [|by eauto]. split; [by left|]. intros [H|(i & j & Hi & _)]; [done|].
    by apply elem_of_nil in Hi.
  - destruct (IH (zero_hessian_row i retmap main_indices) key) as [Hdom Hzero].
    split.
    + rewrite Hdom, (proj1 (zero_hessian_row_lookup i main_indices retmap key)). split.
      * intros [[H|(j & Hj & -> & Hle)]|(i' & j & Hi' & Hj & -> & Hle)].
        -- by left.
        -- right. exists i, j. split; [left|done].
        -- right. exists i', j. split; [by right|done].
      * intros [H|(i' & j & Hi' & Hj & -> & Hle)]; [left; by left|].
        apply elem_of_cons in Hi' as [->|Hi']; [left; right; by exists j|].
        right. by exists i', j.
    + intros Hall. apply Hzero. intros k v.
      by apply (proj2 (zero_hessian_row_lookup i main_indices retmap k)).
Qed.

Lemma zero_hessian_lookup (main_indices : bimap) (key : list Z) :
  (is_Some (zero_hessian main_indices !! key) <-> upper_triangle_key main_indices key)
  /\ (forall v, zero_hessian main_indices !! key = Some v -> v = 0).
Proof.
  destruct (zero_hessian_rows_lookup main_indices main_indices ∅ key) as [Hdom Hzero].
  split.
  - unfold zero_hessian. rewrite Hdom, lookup_empty. unfold upper_triangle_key. split.
    + intros [[v Hv]|(i & j & Hi & Hj & -> & Hle)]; [done|]. by exists i, j.
    + intros (i & j & -> & Hi & Hj & Hle). right. by exists i, j.
  - apply Hzero. intros k v. by rewrite lookup_empty.
Qed.

Lemma hessian_key_upper (main_indices : bimap) (i j : Z) :
  i ∈ map snd main_indices -> j ∈ map snd main_indices ->
  upper_triangle_key main_indices (hessian_key i j).
Proof.
  intros Hi Hj. unfold hessian_key. destruct (Z.leb_spec i j).
  - by exists i, j.
  - exists j, i. repeat split; [done|done|lia].
Qed.

Section Hessian.
Variable process_utree :
  utree -> evalconditions -> bimap -> ASTSymbolMap -> vec -> option double.
Variables (cs : CompositionSet) (conditions : evalconditions).
Variables (main_indices : bimap) (x : vec).

(** One turn of the loop of the Hessian writes one key of the upper
    triangle, the key the sparsity structure records for the same tree. *)
Lemma accumulate_second_derivative_key retmap retmap' retset entry :
  accumulate_second_derivative process_utree cs conditions main_indices x retmap entry
    = Some retmap' ->
  exists key v,
    retmap' = <[key := v]> retmap
    /\ upper_triangle_key main_indices key
    /\ insert_nonzero_entry main_indices retset entry = Some ({[ key ]} ∪ retset).
Proof.
  unfold accumulate_second_derivative, insert_nonzero_entry.
  destruct (process_utree _ _ _ _ _) as [diffvalue|]; [|done]. rewrite option_bind_Some_l.
  destruct (diffvars entry !! 0%nat) as [diffvar1|]; [|done]. rewrite !option_bind_Some_l.
  destruct (diffvars entry !! 1%nat) as [diffvar2|]; [|done]. rewrite !option_bind_Some_l.
  destruct (bimap_at main_indices diffvar1) as [varindex1|] eqn:H1; [|done].
  rewrite !option_bind_Some_l.
  destruct (bimap_at main_indices diffvar2) as [varindex2|] eqn:H2; [|done].
  rewrite !option_bind_Some_l.
  apply bimap_at_elem in H1, H2.
  pose proof (hessian_key_upper main_indices _ _ H1 H2) as Hkey.
  destruct (_ || _).
  - intros [= <-]. by eexists _, _.
  - destruct (bimap_at main_indices _) as [frac_index|]; [|done]. rewrite option_bind_Some_l.
    destruct (array_at x frac_index) as [frac|]; [|done]. rewrite option_bind_Some_l.
    intros [= <-]. by eexists _, _.
Qed.

Lemma foldl_second_derivatives (entries : list ast_entry) :
  forall (retmap h : gmap (list Z) float) (retset : gset (list Z)),
  (forall key, is_Some (retmap !! key) <-> upper_triangle_key main_indices key) ->
  foldl (fun acc entry =>
           m ← acc;
           accumulate_second_derivative process_utree cs conditions main_indices x m entry)
        (Some retmap) entries = Some h ->
  (forall key, is_Some (h !! key) <-> upper_triangle_key main_indices key)
  /\ exists retset',
       foldl (fun acc entry => s ← acc; insert_nonzero_entry main_indices s entry)
             (Some retset) entries = Some retset'
       /\ (forall key, key ∈ retset -> key ∈ retset')
       /\ (forall key, key ∈ retset' -> key ∈ retset \/ upper_triangle_key main_indices key)
       /\ (forall key, key ∉ retset' -> h !! key = retmap !! key).
Proof.
  induction entries as [|entry entries IH]; intros retmap h retset Hdom; simpl.
  - intros [= <-]. split; [done|]. exists retset. repeat split; auto.
  - destruct (accumulate_second_derivative _ _ _ _ _ retmap entry) as [retmap1|] eqn:Hstep.
    2:{ simpl. by rewrite foldl_bind_None. }
    apply (accumulate_second_derivative_key _ _ retset) in Hstep
      as (key1 & v & -> & Hupper & ->).
    intros Hfold.
    apply (IH _ _ ({[ key1 ]} ∪ retset)) in Hfold
      as (Hdom' & retset' & Hset & Hsub & Hin & Hout).
    + split; [done|]. exists retset'. split; [done|]. split; [|split].
      * intros key Hkey. apply Hsub, elem_of_union. by right.
      * intros key Hkey. destruct (Hin key Hkey) as [Hk|Hk]; [|by right].
        apply elem_of_union in Hk as [Hk|Hk]; [|by left].
        apply elem_of_singleton in Hk as ->. by right.
      * intros key Hkey. rewrite (Hout key Hkey). apply lookup_insert_ne.
        intros <-. apply Hkey, Hsub, elem_of_union. left. by apply elem_of_singleton.
    + intros key. rewrite lookup_insert_is_Some, Hdom. split.
      * intros [<-|[_ Hk]]; done.
      * intros Hk. destruct (decide (key1 = key)); [by left|by right].
Qed.

End Hessian.

(** X22: the Hessian [evaluate_objective_hessian] returns holds exactly the
    keys [{i, j}] with [i <= j] over the indices of the index map: the whole
    upper triangle, with or without a second-derivative tree for the pair,
    and no key with the larger index first. *)
Theorem hessian_keys_are_the_upper_triangle
    (process_utree : utree -> evalconditions -> bimap -> ASTSymbolMap -> vec -> option double)
    (cs : CompositionSet) (conditions : evalconditions) (main_indices : bimap) (x : vec)
    (hessian : gmap (list Z) float) (key : list Z) :
  evaluate_objective_hessian process_utree cs conditions main_indices x = Some hessian ->
  is_Some (hessian !! key) <-> upper_triangle_key main_indices key.
Proof.
  intros Hh. apply (foldl_second_derivatives _ _ _ _ _ _ _ _ ∅) in Hh as [Hdom _]; [done|].
  intros k. apply zero_hessian_lookup.
Qed.

(** X23: whenever the Hessian can be evaluated, the sparsity structure can
    be built, every key it lists is a key of the Hessian, and every entry
    of the Hessian whose key it does not list is [0]. *)
Theorem hessian_zero_outside_sparsity_structure
    (process_utree : utree -> evalconditions -> bimap -> ASTSymbolMap -> vec -> option double)
    (cs : CompositionSet) (conditions : evalconditions) (main_indices : bimap) (x : vec)
    (hessian : gmap (list Z) float) :
  evaluate_objective_hessian process_utree cs conditions main_indices x = Some hessian ->
  exists structure,
    hessian_sparsity_structure cs main_indices = Some structure
    /\ (forall key, key ∈ structure -> is_Some (hessian !! key))
    /\ (forall key v, key ∉ structure -> hessian !! key = Some v -> v = 0).
Proof.
  intros Hh. apply (foldl_second_derivatives _ _ _ _ _ _ _ _ ∅) in Hh
    as (Hdom & structure & Hs & _ & Hin & Hout).
  2:{ intros k. apply zero_hessian_lookup. }
  exists structure. split; [done|]. split.
  - intros key Hkey. apply Hdom. destruct (Hin key Hkey) as [H|H]; [|done].
    by apply elem_of_empty in H.
  - intros key v Hkey. rewrite (Hout key Hkey). apply zero_hessian_lookup.
Qed.

Lemma hessian_keys_are_the_upper_triangle_witness :
  is_Some ((<[[0%Z; 1%Z] := 0.5]> (zero_hessian product_indices)) !! [0%Z; 1%Z])
  <-> upper_triangle_key product_indices [0%Z; 1%Z].
Proof.
  apply (hessian_keys_are_the_upper_triangle (process_utree_model arithmetic_only)
           product_set binary_conditions product_indices [0.25; 0.75; 0.5]).
  vm_compute. reflexivity.
Defined.

Lemma hessian_zero_outside_sparsity_structure_witness :
  exists structure,
    hessian_sparsity_structure product_set product_indices = Some structure
    /\ (forall key, key ∈ structure ->
          is_Some ((<[[0%Z; 1%Z] := 0.5]> (zero_hessian product_indices)) !! key))
    /\ (forall key v, key ∉ structure ->
          (<[[0%Z; 1%Z] := 0.5]> (zero_hessian product_indices)) !! key = Some v -> v = 0).
Proof.
  apply (hessian_zero_outside_sparsity_structure (process_utree_model arithmetic_only)
           product_set binary_conditions product_indices [0.25; 0.75; 0.5]).
  vm_compute. reflexivity.
Defined.

(** X24: [evaluate_objective_gradient] needs the phase-fraction variable
    [<name>_FRAC] in the index map as soon as one first-derivative tree
    differentiates by another variable: without it the lookup
    [main_indices.left.at (compset_name)] throws and no gradient is
    returned. *)
Theorem gradient_needs_phase_fraction_index
    (process_utree : utree -> evalconditions -> bimap -> ASTSymbolMap -> vec -> option double)
    (cs : CompositionSet) (conditions : evalconditions) (main_indices : bimap) (x : vec)
    (entry : ast_entry) :
  bimap_at main_indices (cset_name cs ++ "_FRAC")%string = None ->
  entry ∈ derivative_trees 1 cs ->
  head (diffvars entry) <> Some (cset_name cs ++ "_FRAC")%string ->
  evaluate_objective_gradient process_utree cs conditions main_indices x = None.
Proof.
  intros Hfrac Hentry Hvar. unfold evaluate_objective_gradient.
  rewrite foldl_derivatives.
  assert (Hnone : mapM (weighted_derivative process_utree cs conditions main_indices x)
                    (derivative_trees 1 cs) = None); [|by rewrite Hnone].
  apply mapM_None, Exists_exists. exists entry. split; [done|].
  unfold weighted_derivative.
  destruct (process_utree _ _ _ _ _) as [diffvalue|]; [|done]. simpl.
  destruct (head (diffvars entry)) as [diffvar|]; [|done]. simpl.
  destruct (bimap_at main_indices diffvar) as [varindex|]; [|done]. simpl.
  destruct (String.eqb_spec diffvar (cset_name cs ++ "_FRAC")%string) as [->|_]; [done|].
  by rewrite Hfrac.
Qed.

Lemma gradient_needs_phase_fraction_index_witness :
  evaluate_objective_gradient (process_utree_model arithmetic_only) product_set
    binary_conditions (phase_indices product_set) [0.25; 0.75] = None.
Proof.
  apply (gradient_needs_phase_fraction_index (process_utree_model arithmetic_only)
           product_set binary_conditions (phase_indices product_set) [0.25; 0.75]
           {| diffvars := ["ALPHA_0_A"%string]; model_name := "REDLICH_KISTER";
              ast := VariableRef "ALPHA_0_B" |}).
  - reflexivity.
  - apply list_elem_of_filter. split; [reflexivity|left].
  - discriminate.
Defined.

Lemma contributions_to_key_cons key key' c contributions :
  contributions_to_key key ((key', c) :: contributions)
  = if decide (key' = key) then c :: contributions_to_key key contributions
    else contributions_to_key key contributions.
Proof.
  unfold contributions_to_key. simpl.
  destruct (decide (key' = key)) as [->|Hne].
  - by rewrite filter_cons_True.
  - by rewrite filter_cons_False.
Qed.

Lemma add_key_contributions_lookup (contributions : list (list Z * double)) :
  forall (retmap : gmap (list Z) float) key,
  foldl (fun m kc => <[fst kc := default 0 (m !! fst kc) + snd kc]> m) retmap contributions
    !! key
  = match contributions_to_key key contributions with
    | [] => retmap !! key
    | cs' => Some (fold_left PrimFloat.add cs' (default 0 (retmap !! key)))
    end.
Proof.
  induction contributions as [|[key' c] contributions IH]; intros retmap key; [done|].
  simpl foldl. rewrite IH, contributions_to_key_cons. simpl.
  destruct (decide (key' = key)) as [->|Hne].
  - rewrite lookup_insert_eq. simpl. by destruct (contributions_to_key key contributions).
  - by rewrite lookup_insert_ne.
Qed.

Section HessianValues.
Variable process_utree :
  utree -> evalconditions -> bimap -> ASTSymbolMap -> vec -> option double.
Variables (cs : CompositionSet) (conditions : evalconditions).
Variables (main_indices : bimap) (x : vec).

Lemma accumulate_second_derivative_weighted (retmap : gmap (list Z) float) entry :
  accumulate_second_derivative process_utree cs conditions main_indices x retmap entry
  = kc ← weighted_second_derivative process_utree cs conditions main_indices x entry;
    Some (<[fst kc := default 0 (retmap !! fst kc) + snd kc]> retmap).
Proof.
  unfold accumulate_second_derivative, weighted_second_derivative.
  destruct (process_utree _ _ _ _ _) as [diffvalue|]; [|done]. simpl.
  destruct (diffvars entry !! 0%nat) as [diffvar1|]; [|done]. simpl.
  destruct (diffvars entry !! 1%nat) as [diffvar2|]; [|done]. simpl.
  destruct (bimap_at main_indices diffvar1) as [varindex1|]; [|done]. simpl.
  destruct (bimap_at main_indices diffvar2) as [varindex2|]; [|done]. simpl.
  destruct (_ || _); simpl; [done|].
  destruct (bimap_at main_indices _) as [frac_index|]; [|done]. simpl.
  by destruct (array_at x frac_index).
Qed.

Lemma foldl_second_derivatives_weighted (entries : list ast_entry) : forall retmap,
  foldl (fun acc entry =>
           m ← acc;
           accumulate_second_derivative process_utree cs conditions main_indices x m entry)
        (Some retmap) entries
  = contributions ← mapM (weighted_second_derivative process_utree cs conditions
                            main_indices x) entries;
    Some (foldl (fun m kc => <[fst kc := default 0 (m !! fst kc) + snd kc]> m)
                retmap contributions).
Proof.
  induction entries as [|e entries IH]; intros retmap; simpl; [done|].
  rewrite accumulate_second_derivative_weighted.
  destruct (weighted_second_derivative _ _ _ _ _ e) as [kc|]; simpl.
  - rewrite IH.
    by destruct (mapM (weighted_second_derivative process_utree cs conditions main_indices x)
                   entries).
  - apply foldl_bind_None.
Qed.

End HessianValues.

(** X25: the entry of the Hessian for a key [{i, j}] of the upper triangle
    is the sum, added up from [0] in the order of the trees, of the
    contributions of the second-derivative trees whose two variables have
    the indices [i] and [j] in either order. The value of a tree is
    multiplied by [x[_FRAC]] before it is added, unless one of its two
    variables is [_FRAC] itself; the Hessian is returned exactly when every
    contribution can be evaluated. *)
Theorem hessian_weighted_by_phase_fraction
    (process_utree : utree -> evalconditions -> bimap -> ASTSymbolMap -> vec -> option double)
    (cs : CompositionSet) (conditions : evalconditions) (main_indices : bimap) (x : vec) :
  match mapM (weighted_second_derivative process_utree cs conditions main_indices x)
             (derivative_trees 2 cs) with
  | None => evaluate_objective_hessian process_utree cs conditions main_indices x = None
  | Some contributions =>
      exists hessian,
        evaluate_objective_hessian process_utree cs conditions main_indices x = Some hessian
        /\ forall key, upper_triangle_key main_indices key ->
             hessian !! key = Some (accumulate (contributions_to_key key contributions))
  end.
Proof.
  unfold evaluate_objective_hessian. rewrite foldl_second_derivatives_weighted.
  destruct (mapM _ (derivative_trees 2 cs)) as [contributions|]; [|done].
  eexists. split; [done|]. intros key Hkey.
  rewrite add_key_contributions_lookup.
  destruct (zero_hessian_lookup main_indices key) as [Hdom Hzero].
  apply Hdom in Hkey as [v Hv]. pose proof (Hzero v Hv) as ->. rewrite Hv. simpl.
  by destruct (contributions_to_key key contributions).
Qed.
(** ** [std::sort] on short ranges *)

Section SmallRanges.
Context {A : Type} (cmp : A -> A -> bool).

(** Scanning from the left and from the right find the same place when the
    elements the value is less than are the last ones. *)
Lemma linear_insert_split (val : A) (before after : list A) :
  Forall (fun y => cmp val y = false) before ->
  Forall (fun y => cmp val y = true) after ->
  linear_insert cmp val (before ++ after) = before ++ val :: after.
Proof.
  intros Hb Ha. induction Hb as [|y before Hy _ IH]; simpl.
  - destruct Ha as [|y after Hy _]; simpl; [done|]. by rewrite Hy.
  - by rewrite Hy, IH.
Qed.

Lemma unguarded_linear_insert_loop_spec (val : A) (rest : list A) :
  forall (before after : list A) (hole : A),
    Forall (fun y => cmp val y = true) after ->
    exists kept moved,
      before = kept ++ moved
      /\ Forall (fun y => cmp val y = true) moved
      /\ (forall kept' x, kept = kept' ++ [x] -> cmp val x = false)
      /\ unguarded_linear_insert_loop cmp val (length before)
           (before ++ hole :: after ++ rest)
         = kept ++ val :: moved ++ after ++ rest.
Proof.
  induction before as [|x before IH] using rev_ind; intros after hole Hafter.
  - exists [], []. split; [done|]. split; [constructor|]. split.
    + intros kept' x Heq. by destruct kept'.
    + reflexivity.
  - rewrite length_app. simpl. rewrite Nat.add_1_r. simpl.
    unfold comp_val_at.
    rewrite <- app_assoc. simpl.
    rewrite (list_lookup_middle before (hole :: after ++ rest) x (length before)) by done.
    destruct (cmp val x) eqn:Hx.
    + unfold move_assign.
      rewrite (list_lookup_middle before (hole :: after ++ rest) x (length before)) by done.
      replace (<[S (length before) := x]> (before ++ x :: hole :: after ++ rest))
        with (before ++ x :: (x :: after) ++ rest).
      2:{ rewrite insert_app_r_alt by lia.
          replace (S (length before) - length before)%nat with 1%nat by lia. done. }
      destruct (IH (x :: after) x) as (kept & moved & -> & Hmoved & Hkept & Heq).
      { by constructor. }
      exists kept, (moved ++ [x]). split; [by rewrite app_assoc|].
      split; [apply Forall_app; split; [done|by repeat constructor] |].
      split; [done|]. rewrite Heq. by rewrite <- !app_assoc.
    + exists (before ++ [x]), []. split; [by rewrite app_nil_r|].
      split; [constructor|]. split.
      * intros kept' x' Heq. apply app_inj_tail in Heq as [_ <-]. done.
      * rewrite insert_app_r_alt by lia.
        replace (S (length before) - length before)%nat with 1%nat by lia.
        simpl. by rewrite <- app_assoc.
Qed.


(** On a sorted range, the elements a value is less than are the last ones. *)
Lemma sorted_not_less_before (dom : A -> Prop) (val x : A) (kept : list A) :
  (forall a, dom a -> cmp a a = false) ->
  (forall a b c, dom a -> dom b -> dom c ->
     cmp a b = true -> cmp b c = true -> cmp a c = true) ->
  (forall a b c, dom a -> dom b -> dom c ->
     cmp a b = false -> cmp b a = false -> cmp b c = false -> cmp c b = false ->
     cmp a c = false /\ cmp c a = false) ->
  dom val -> Forall dom (kept ++ [x]) ->
  sorted_by cmp (kept ++ [x]) -> cmp val x = false ->
  Forall (fun y => cmp val y = false) (kept ++ [x]).
Proof.
  intros Hirr Htrans Hequiv Hval Hdom Hsorted Hx.
  apply Forall_app in Hdom as [Hkept Hdx]. rewrite Forall_singleton in Hdx.
  apply Forall_app. split; [|by repeat constructor].
  apply Forall_forall. intros y Hy.
  assert (Hdy : dom y) by (rewrite Forall_forall in Hkept; auto).
  assert (Hxy : cmp x y = false).
  { unfold sorted_by in Hsorted.
    apply (StronglySorted_app_1_elem_of _ _ _ y x Hsorted); [done|left]. }
  destruct (cmp val y) eqn:Hvy; [|done]. exfalso.
  destruct (cmp x val) eqn:Hxv.
  { rewrite (Htrans x val y) in Hxy; auto. discriminate. }
  destruct (cmp y x) eqn:Hyx.
  { rewrite (Htrans val y x) in Hx; auto. discriminate. }
  destruct (Hequiv val x y) as [Hc _]; auto. congruence.
Qed.


Section Ordered.
Variable dom : A -> Prop.
Hypothesis cmp_irreflexive : forall a, dom a -> cmp a a = false.
Hypothesis cmp_transitive :
  forall a b c, dom a -> dom b -> dom c ->
    cmp a b = true -> cmp b c = true -> cmp a c = true.
Hypothesis cmp_equiv_transitive :
  forall a b c, dom a -> dom b -> dom c ->
    cmp a b = false -> cmp b a = false -> cmp b c = false -> cmp c b = false ->
    cmp a c = false /\ cmp c a = false.

(** One turn of the loop of [__insertion_sort] on a range whose first
    elements are sorted. *)
Lemma insertion_step (sorted : list A) (val : A) (rest : list A) (i : nat) :
  i = length sorted ->
  sorted <> [] -> Forall dom sorted -> dom val -> sorted_by cmp sorted ->
  (if comp_at cmp (sorted ++ val :: rest) i 0
   then move_to_first 0 i (sorted ++ val :: rest)
   else unguarded_linear_insert cmp i (sorted ++ val :: rest))
  = linear_insert cmp val sorted ++ rest.
Proof.
  intros -> Hne Hdom Hval Hsorted.
  unfold comp_at. rewrite (list_lookup_middle sorted rest val (length sorted)) by done.
  destruct sorted as [|front others] eqn:Hs; [done|]. rewrite <- Hs in *.
  assert (Hfront : (sorted ++ val :: rest) !! 0%nat = Some front) by (by rewrite Hs).
  rewrite Hfront.
  destruct (cmp val front) eqn:Hvf.
  - unfold move_to_first.
    rewrite (list_lookup_middle sorted rest val (length sorted)) by done.
    rewrite take_0, drop_0, Nat.sub_0_r, take_app_length.
    rewrite (cons_middle val sorted rest), app_assoc, drop_app_length'
      by (rewrite length_app; simpl; lia).
    rewrite Hs. simpl. by rewrite Hvf.
  - unfold unguarded_linear_insert.
    rewrite (list_lookup_middle sorted rest val (length sorted)) by done.
    destruct (unguarded_linear_insert_loop_spec val rest sorted [] val)
      as (kept & moved & Hsplit & Hmoved & Hkept & Heq); [constructor|].
    simpl in Heq. rewrite Heq. rewrite Hsplit.
    rewrite linear_insert_split; [by rewrite <- app_assoc | | done].
    destruct kept as [|x kept _] using rev_ind; [constructor|].
    apply (sorted_not_less_before dom); auto.
    + rewrite Hsplit in Hdom. by apply Forall_app in Hdom as [? _].
    + rewrite Hsplit in Hsorted. by apply StronglySorted_app_1_l in Hsorted.
    + by apply (Hkept kept x).
Qed.

Lemma insertion_sort_snoc (l : list A) (val : A) :
  insertion_sort A cmp (l ++ [val]) = linear_insert cmp val (insertion_sort A cmp l).
Proof. unfold insertion_sort. by rewrite fold_left_app. Qed.

Lemma insertion_sort_sorted_on (l : list A) :
  Forall dom l -> sorted_by cmp (insertion_sort A cmp l).
Proof.
  intros Hdom. unfold insertion_sort.
  apply (fold_insert_sorted cmp dom (linear_insert cmp)).
  - intros. by apply (linear_insert_sorted cmp dom).
  - apply linear_insert_perm.
  - done.
  - constructor.
  - constructor.
Qed.

(** The loop of [__insertion_sort] over a whole range: after the turn for
    the index [j], the first [j + 1] elements are the first [j + 1] elements
    of the input, sorted by straight insertion. *)
Lemma insertion_loop (l : list A) : forall j,
  Forall dom l -> (S j <= length l)%nat ->
  fold_left (fun range i =>
               if comp_at cmp range i 0 then move_to_first 0 i range
               else unguarded_linear_insert cmp i range)
    (seq 1 j) l
  = insertion_sort A cmp (take (S j) l) ++ drop (S j) l.
Proof.
  intros j Hdom. induction j as [|j IH]; intros Hlen.
  - destruct l as [|a l]; [simpl in Hlen; lia|]. reflexivity.
  - rewrite seq_S, fold_left_app, IH by lia. simpl fold_left.
    destruct (lookup_lt_is_Some_2 l (S j)) as [val Hval]; [lia|].
    rewrite (drop_S l val (S j) Hval), (take_S_r l (S j) val Hval), insertion_sort_snoc.
    assert (Hperm : insertion_sort A cmp (take (S j) l) ≡ₚ take (S j) l)
      by apply insertion_sort_contract.
    assert (Hlength : length (insertion_sort A cmp (take (S j) l)) = S j).
    { rewrite Hperm, length_take. lia. }
    apply insertion_step.
    + by rewrite Hlength.
    + intros Hnil. by rewrite Hnil in Hlength.
    + rewrite Hperm. by apply Forall_take.
    + rewrite Forall_forall in Hdom. apply Hdom. by eapply list_elem_of_lookup_2.
    + apply insertion_sort_sorted_on. by apply Forall_take.
Qed.

End Ordered.

Lemma introsort_loop_small (depth_limit first last : nat) (range : list A) :
  (last - first <= 16)%nat -> introsort_loop cmp depth_limit first last range = range.
Proof.
  intros Hsmall. apply Nat.ltb_ge in Hsmall.
  destruct depth_limit; simpl; by rewrite Hsmall.
Qed.

End SmallRanges.

(** On a range of at most sixteen elements, ordered by a strict weak
    ordering, libstdc++'s [std::sort] is the straight insertion sort: equal
    elements keep their order. *)
Lemma libstdcxx_sort_small {A} (cmp : A -> A -> bool) (l : list A) :
  (length l <= 16)%nat ->
  strict_weak_ordering_on cmp l = true ->
  libstdcxx_sort A cmp l = insertion_sort A cmp l.
Proof.
  intros Hsmall (Hirr & Htrans & Hequiv)%strict_weak_ordering_on_spec.
  unfold libstdcxx_sort. destruct l as [|a l]; [reflexivity|].
  remember (a :: l) as range eqn:Hrange.
  assert (Hlen : (1 <= length range)%nat) by (rewrite Hrange; simpl; lia).
  destruct (length range =? 0)%nat eqn:Hzero; [apply Nat.eqb_eq in Hzero; lia|].
  rewrite introsort_loop_small by lia.
  unfold final_insertion_sort.
  replace (16 <? length range - 0)%nat with false by (symmetry; apply Nat.ltb_ge; lia).
  unfold libstdcxx_insertion_sort.
  replace (0 =? length range)%nat with false by (symmetry; apply Nat.eqb_neq; lia).
  replace (0 + 1)%nat with 1%nat by lia.
  rewrite (insertion_loop cmp (fun a => a ∈ range) Hirr Htrans Hequiv range
             (length range - 1)).
  - replace (S (length range - 1)) with (length range) by lia.
    by rewrite firstn_all, drop_all, app_nil_r.
  - by apply Forall_forall.
  - lia.
Qed.

Lemma first_smallest_snoc (facets : list SimplicialFacet) : forall best facet,
  first_smallest best (facets ++ [facet])
  = if facet_area_comparator facet (first_smallest best facets) then facet
    else first_smallest best facets.
Proof.
  induction facets as [|next facets IH]; intros best facet; simpl; [done|]. apply IH.
Qed.

Lemma head_linear_insert {A} (cmp : A -> A -> bool) (val front : A) (others : list A) :
  head (linear_insert cmp val (front :: others)) = Some (if cmp val front then val else front).
Proof. simpl. by destruct (cmp val front). Qed.

(** The straight insertion sort puts first the first of the facets of
    smallest area. *)
Lemma insertion_sort_first_smallest (facets : list SimplicialFacet) : forall facet,
  head (insertion_sort _ facet_area_comparator (facet :: facets))
  = Some (first_smallest facet facets).
Proof.
  induction facets as [|next facets IH] using rev_ind; intros facet; [reflexivity|].
  rewrite app_comm_cons, insertion_sort_snoc, first_smallest_snoc.
  specialize (IH facet).
  destruct (insertion_sort _ facet_area_comparator (facet :: facets))
    as [|front others]; [done|].
  rewrite head_linear_insert. by injection IH as ->.
Qed.

(** X27: up to sixteen enclosing facets (their areas ordered by [<]),
    [find_tie_points] with libstdc++'s [std::sort] returns the tie points of
    the first, in the order of [candidate_facets], of the enclosing facets
    of smallest area, and an empty list when no facet encloses the target:
    [std::sort] is a straight insertion sort on such a range. The target
    fits the candidate facets, and their vertices are entries of the hull
    map. *)
Theorem first_facet_chosen_up_to_sixteen
    (gm : GlobalMinimizer) (conditions : evalconditions) :
  Forall (fun facet => fits_target conditions facet) (candidate_facets gm) ->
  Forall (fun facet => vertices_in_hull_map gm facet) (candidate_facets gm) ->
  (length (pre_candidate_facets gm conditions) <= 16)%nat ->
  strict_weak_ordering_on facet_area_comparator (pre_candidate_facets gm conditions) = true ->
  find_tie_points libstdcxx_sort gm conditions
  = match stable_choice gm conditions with
    | None => Some []
    | Some final_facet => tie_points_of_facet (hull_map gm) 0.05 final_facet
    end.
Proof.
  intros _ _ Hsmall Hswo. unfold find_tie_points, stable_choice.
  rewrite libstdcxx_sort_small by done.
  destruct (pre_candidate_facets gm conditions) as [|facet facets]; [reflexivity|].
  pose proof (insertion_sort_first_smallest facets facet) as Hhead.
  destruct (insertion_sort _ facet_area_comparator (facet :: facets))
    as [|front others]; [done|].
  by injection Hhead as ->.
Qed.

Lemma first_facet_chosen_up_to_sixteen_witness :
  stable_choice tie_minimizer tie_conditions = Some tie_first_facet
  /\ find_tie_points libstdcxx_sort tie_minimizer tie_conditions
     = tie_points_of_facet tie_hull_map 0.05 tie_first_facet.
Proof.
  split; [reflexivity|].
  rewrite (first_facet_chosen_up_to_sixteen tie_minimizer tie_conditions).
  - reflexivity.
  - unfold fits_target. repeat constructor.
  - unfold vertices_in_hull_map. repeat constructor.
  - simpl. lia.
  - vm_compute. reflexivity.
Defined.
